(** * Discord forum / Trello synchronisation: a shallow embedding

    The development follows the two classes of the repository:

    - [TrelloPoller] (the change poller, its duplicate suppression and its
      back-off), and
    - [DiscordTrelloBot] (the identity registry, the content aggregator, the
      attachment reconciler and the card-sync orchestrator).

    Asynchronous methods are embedded as state-passing functions, each run
    to its end before the next: interleaving at the [await] points inside a
    handler or a poll tick is not modelled.  What the code starts without
    awaiting it is a step of its own that falls anywhere between the
    others: the cards of the poller's start-up scan, which may also fall
    between the notifications of a tick, and the threads the ready handler
    reconciles while triggers go on arriving.  Every remote
    call (Trello REST, Discord gateway) is answered by an explicit response
    supplied with the trigger, so that a failing call is an input like any
    other, and a method that can throw returns how it ended.  JavaScript
    [Map] and [Set] keep insertion order, which the code observes
    ([Array.from], [slice(-n)]); they are embedded as association lists and
    duplicate-free lists.

    In the bot, strings are sequences of code units below 256; the
    white-space class of [trim] and [\s] restricted to that range is TAB,
    LF, VT, FF, CR, SPACE and NBSP, and literals of the source with
    characters beyond that range are kept as the bytes of the source file;
    they are only ever concatenated and compared.  In the poller a string
    holds the UTF-8 encoding of the JavaScript string and is hashed over
    its UTF-16 code units, as [charCodeAt] gives them.  Dates are instants
    in milliseconds; their rendering by the runtime ([toLocaleString],
    [toISOString]) is a parameter. *)

From Stdlib Require Import ZArith List String Ascii Bool Lia.
From Stdlib Require Import DecimalString Sorted Permutation.
Import ListNotations.

#[local] Open Scope string_scope.
#[local] Open Scope Z_scope.

(** ** JavaScript values and containers *)

Module JS.

(** A property that holds a string, [null], or is absent. *)
Inductive JSVal : Type :=
| JUndefined
| JNull
| JStr (s : string).

Definition JSVal_eqb (a b : JSVal) : bool :=
  match a, b with
  | JUndefined, JUndefined => true
  | JNull, JNull => true
  | JStr s, JStr t => String.eqb s t
  | _, _ => false
  end.

(** [ToBoolean]: [undefined], [null] and the empty string are falsy. *)
Definition truthy (v : JSVal) : bool :=
  match v with
  | JStr s => negb (String.eqb s "")
  | _ => false
  end.

(** [a || b] *)
Definition or_else (a b : JSVal) : JSVal := if truthy a then a else b.

(** Interpolation [`${v}`] in a template literal. *)
Definition template (v : JSVal) : string :=
  match v with
  | JUndefined => "undefined"
  | JNull => "null"
  | JStr s => s
  end.

(** [o?.f] on an object that may be absent. *)
Definition chain {A : Type} (o : option A) (f : A -> JSVal) : JSVal :=
  match o with
  | Some a => f a
  | None => JUndefined
  end.

(** [Number.prototype.toString] on an integer. *)
Definition number_toString (z : Z) : string :=
  NilZero.string_of_int (Z.to_int z).

(** [ToInt32]: wrap-around to the signed 32-bit range. *)
Definition toInt32 (z : Z) : Z := (z + 2 ^ 31) mod 2 ^ 32 - 2 ^ 31.

(** *** [Set] of strings, in insertion order *)

Definition set_has (s : list string) (x : string) : bool :=
  existsb (String.eqb x) s.

Definition set_add (s : list string) (x : string) : list string :=
  if set_has s x then s else s ++ [x].

Definition set_delete (s : list string) (x : string) : list string :=
  filter (fun y => negb (String.eqb x y)) s.

(** *** [Map] with string keys, in insertion order *)

Section MapOps.
Context {V : Type}.

Fixpoint map_get (m : list (string * V)) (k : string) : option V :=
  match m with
  | [] => None
  | (k', v) :: m' => if String.eqb k k' then Some v else map_get m' k
  end.

Definition map_has (m : list (string * V)) (k : string) : bool :=
  match map_get m k with
  | Some _ => true
  | None => false
  end.

(** [m.set(k, v)]: an existing key keeps its position. *)
Fixpoint map_set (m : list (string * V)) (k : string) (v : V)
  : list (string * V) :=
  match m with
  | [] => [(k, v)]
  | (k', v') :: m' =>
      if String.eqb k k' then (k', v) :: m' else (k', v') :: map_set m' k v
  end.

Definition map_keys (m : list (string * V)) : list string := map fst m.

End MapOps.

(** [a.slice(-n)]: the last [n] elements. *)
Definition slice_last {A : Type} (n : nat) (l : list A) : list A :=
  skipn (List.length l - n) l.

End JS.
Import JS.

(** ** Data shared by both classes *)

(** A discord.js embed, as received in a message or as sent. *)
Record Footer : Type := {
  footer_text : JSVal;
  footer_icon_url : JSVal
}.

Record Embed : Type := {
  embed_type : JSVal;
  embed_url : JSVal;
  embed_title : JSVal;
  embed_description : JSVal;
  embed_color : option Z;
  embed_image : option JSVal;      (* [embed.image], holding its [url] *)
  embed_video : option JSVal;      (* [embed.video], holding its [url] *)
  embed_footer : option Footer;
  embed_timestamp : JSVal
}.

Record Attachment : Type := {
  attachment_url : string;
  attachment_name : string;
  attachment_contentType : JSVal
}.

Record Message : Type := {
  message_id : string;
  author_bot : bool;
  author_username : string;
  content : string;
  attachments : list Attachment;
  embeds : list Embed;
  message_createdTimestamp : Z
}.

(** ** The change poller *)

Module TrelloPoller.

(** *** Change actions *)

Record CardRef : Type := {
  card_id : JSVal;
  card_name : JSVal;
  card_due : JSVal
}.

Record OldRef : Type := {
  old_due : JSVal;
  old_name : JSVal
}.

Record LabelRef : Type := {
  label_name : JSVal;
  label_color : JSVal
}.

Record CheckItemRef : Type := {
  checkItem_name : JSVal;
  checkItem_state : JSVal
}.

(** [checklist], [list], [listBefore] and [listAfter] are read for their
    [name] only. *)
Record NameRef : Type := { ref_name : JSVal }.

Record ActionData : Type := {
  data_card : option CardRef;
  data_old : option OldRef;
  data_label : option LabelRef;
  data_checklist : option NameRef;
  data_checkItem : option CheckItemRef;
  data_list : option NameRef;
  data_listBefore : option NameRef;
  data_listAfter : option NameRef
}.

(** [action_date] is the instant [new Date(action.date)] denotes, in
    milliseconds since the epoch. *)
Record Action : Type := {
  action_id : string;
  action_type : string;
  action_date : Z;
  action_data : option ActionData
}.

(** [action.data?.f] for an object-valued property [f]. *)
Definition data_of {A : Type} (action : Action) (f : ActionData -> option A)
  : option A :=
  match action_data action with
  | Some d => f d
  | None => None
  end.

(** *** Process environment and the runtime's date rendering *)

Record Env : Type := {
  NOTIFY_LABEL_CHANGES : option string;
  NOTIFY_CHECKLIST_CHANGES : option string;
  NOTIFY_MEMBER_CHANGES : option string;
  NOTIFY_DUE_DATE_CHANGES : option string;
  NOTIFY_COMMENT_CHANGES : option string;
  (* [new Date(s).toLocaleDateString()] *)
  toLocaleDateString : string -> string;
  (* [new Date(ms).toISOString()] *)
  toISOString : Z -> string
}.

(** [process.env.X !== 'true'] *)
Definition not_true (flag : option string) : bool :=
  match flag with
  | Some s => negb (String.eqb s "true")
  | None => true
  end.

(** *** Poller state *)

Record Poller : Type := {
  intervalSeconds : Z;
  lastCheckTime : Z;
  pollingInterval : option Z;       (* period, in ms, of the live timer *)
  isPolling : bool;
  consecutiveErrors : Z;
  maxConsecutiveErrors : Z;
  processedActions : list string;                 (* Set of action ids *)
  sentNotifications : list (string * list string) (* cardId -> Set of hashes *)
}.

Definition with_lastCheckTime (p : Poller) (t : Z) : Poller :=
  {| intervalSeconds := intervalSeconds p;
     lastCheckTime := t;
     pollingInterval := pollingInterval p;
     isPolling := isPolling p;
     consecutiveErrors := consecutiveErrors p;
     maxConsecutiveErrors := maxConsecutiveErrors p;
     processedActions := processedActions p;
     sentNotifications := sentNotifications p |}.

Definition with_pollingInterval (p : Poller) (t : option Z) : Poller :=
  {| intervalSeconds := intervalSeconds p;
     lastCheckTime := lastCheckTime p;
     pollingInterval := t;
     isPolling := isPolling p;
     consecutiveErrors := consecutiveErrors p;
     maxConsecutiveErrors := maxConsecutiveErrors p;
     processedActions := processedActions p;
     sentNotifications := sentNotifications p |}.

Definition with_isPolling (p : Poller) (b : bool) : Poller :=
  {| intervalSeconds := intervalSeconds p;
     lastCheckTime := lastCheckTime p;
     pollingInterval := pollingInterval p;
     isPolling := b;
     consecutiveErrors := consecutiveErrors p;
     maxConsecutiveErrors := maxConsecutiveErrors p;
     processedActions := processedActions p;
     sentNotifications := sentNotifications p |}.

Definition with_consecutiveErrors (p : Poller) (n : Z) : Poller :=
  {| intervalSeconds := intervalSeconds p;
     lastCheckTime := lastCheckTime p;
     pollingInterval := pollingInterval p;
     isPolling := isPolling p;
     consecutiveErrors := n;
     maxConsecutiveErrors := maxConsecutiveErrors p;
     processedActions := processedActions p;
     sentNotifications := sentNotifications p |}.

Definition with_processedActions (p : Poller) (s : list string) : Poller :=
  {| intervalSeconds := intervalSeconds p;
     lastCheckTime := lastCheckTime p;
     pollingInterval := pollingInterval p;
     isPolling := isPolling p;
     consecutiveErrors := consecutiveErrors p;
     maxConsecutiveErrors := maxConsecutiveErrors p;
     processedActions := s;
     sentNotifications := sentNotifications p |}.

Definition with_sentNotifications (p : Poller)
  (m : list (string * list string)) : Poller :=
  {| intervalSeconds := intervalSeconds p;
     lastCheckTime := lastCheckTime p;
     pollingInterval := pollingInterval p;
     isPolling := isPolling p;
     consecutiveErrors := consecutiveErrors p;
     maxConsecutiveErrors := maxConsecutiveErrors p;
     processedActions := processedActions p;
     sentNotifications := m |}.

(** [constructor(discordBot, trelloHelper, intervalSeconds)]; [now] is the
    value of [new Date()]. *)
Definition constructor (intervalSeconds0 now : Z) : Poller :=
  {| intervalSeconds := intervalSeconds0;
     lastCheckTime := now;
     pollingInterval := None;
     isPolling := false;
     consecutiveErrors := 0;
     maxConsecutiveErrors := 5;
     processedActions := [];
     sentNotifications := [] |}.

(** *** Content hash *)

(** In this module a string holds the UTF-8 encoding of the JavaScript
    string it stands for.  [charCodes s] is that string as [charCodeAt]
    reads it, one UTF-16 code unit after the other; a character beyond the
    basic plane gives its two surrogates.  A byte that does not begin a
    well-formed sequence is taken as a code unit of its own. *)
Definition byte_of (c : ascii) : Z := Z.of_N (N_of_ascii c).

Definition continuation (b : Z) : bool := (0x80 <=? b) && (b <? 0xC0).

Fixpoint charCodes (s : string) : list Z :=
  match s with
  | EmptyString => []
  | String c0 s1 =>
      let b0 := byte_of c0 in
      let alone := b0 :: charCodes s1 in
      if b0 <? 0xC0 then alone
      else
        match s1 with
        | EmptyString => alone
        | String c1 s2 =>
            let b1 := byte_of c1 in
            if negb (continuation b1) then alone
            else if b0 <? 0xE0 then
              ((b0 - 0xC0) * 64 + (b1 - 0x80)) :: charCodes s2
            else
              match s2 with
              | EmptyString => alone
              | String c2 s3 =>
                  let b2 := byte_of c2 in
                  if negb (continuation b2) then alone
                  else if b0 <? 0xF0 then
                    ((b0 - 0xE0) * 4096 + (b1 - 0x80) * 64 + (b2 - 0x80))
                    :: charCodes s3
                  else
                    match s3 with
                    | EmptyString => alone
                    | String c3 s4 =>
                        let b3 := byte_of c3 in
                        if negb (continuation b3) || (0xF8 <=? b0) then alone
                        else
                          let point :=
                            (b0 - 0xF0) * 262144 + (b1 - 0x80) * 4096
                            + (b2 - 0x80) * 64 + (b3 - 0x80) in
                          (0xD800 + (point - 0x10000) / 1024)
                          :: (0xDC00 + (point - 0x10000) mod 1024)
                          :: charCodes s4
                    end
              end
        end
  end.

(** The [for] loop of [simpleHash] over the code units still to come. *)
Fixpoint simpleHash_loop (codes : list Z) (hash : Z) : Z :=
  match codes with
  | [] => hash
  | char :: rest =>
      (* hash = ((hash << 5) - hash) + char *)
      let hash := (toInt32 (hash * 32) - hash) + char in
      (* hash = hash & hash *)
      let hash := toInt32 hash in
      simpleHash_loop rest hash
  end.

Definition simpleHash (str : string) : string :=
  number_toString (simpleHash_loop (charCodes str) 0).

Definition createContentHash (embed : Embed) : string :=
  simpleHash (template (embed_title embed) ++ ":"
              ++ template (embed_description embed)).

(** *** Rendering a change action as a notification *)

(** The object literal returned at the end of [formatNotificationEmbed]. *)
Definition notification (env : Env) (action : Action)
  (color : Z) (title description : string) : Embed :=
  {| embed_type := JUndefined;
     embed_url := JUndefined;
     embed_title := JStr title;
     embed_description := JStr description;
     embed_color := Some color;
     embed_image := None;
     embed_video := None;
     embed_footer :=
       Some {| footer_text := JStr "Trello";
               footer_icon_url :=
                 JStr "https://cdn.iconscout.com/icon/free/png-256/trello-226529.png" |};
     embed_timestamp := JStr (toISOString env (action_date action)) |}.

(** The tail of [formatNotificationEmbed]: [if (!title) return null], then
    the object literal.  [None] stands for [title] still undefined. *)
Definition finish (env : Env) (action : Action)
  (tdc : option (string * string * Z)) : option Embed :=
  match tdc with
  | None => None
  | Some (title, description, color) =>
      if String.eqb title "" then None
      else Some (notification env action color title description)
  end.

Definition formatNotificationEmbed (env : Env) (action : Action)
  : option Embed :=
  let type := action_type action in
  if String.eqb type "addLabelToCard" then
    if not_true (NOTIFY_LABEL_CHANGES env) then None
    else
      let labelName :=
        or_else (chain (data_of action data_label) label_name)
          (or_else (chain (data_of action data_label) label_color)
             (JStr "Unknown Label")) in
      finish env action
        (Some ("🏷️ Label Added",
               "Label **" ++ template labelName ++ "** was added to the card",
               0x61BD4F))
  else if String.eqb type "removeLabelFromCard" then
    if not_true (NOTIFY_LABEL_CHANGES env) then None
    else
      let removedLabel :=
        or_else (chain (data_of action data_label) label_name)
          (or_else (chain (data_of action data_label) label_color)
             (JStr "Unknown Label")) in
      finish env action
        (Some ("🏷️ Label Removed",
               "Label **" ++ template removedLabel
               ++ "** was removed from the card",
               0xEB5A46))
  else if String.eqb type "addChecklistToCard" then
    if not_true (NOTIFY_CHECKLIST_CHANGES env) then None
    else
      let checklistName :=
        or_else (chain (data_of action data_checklist) ref_name)
          (JStr "Unknown Checklist") in
      finish env action
        (Some ("📋 Checklist Added",
               "Checklist **" ++ template checklistName
               ++ "** was added to the card",
               0x0079BF))
  else if String.eqb type "updateCheckItemStateOnCard" then
    if not_true (NOTIFY_CHECKLIST_CHANGES env) then None
    else
      let checkItem :=
        or_else (chain (data_of action data_checkItem) checkItem_name)
          (JStr "Unknown Item") in
      let complete :=
        JSVal_eqb (chain (data_of action data_checkItem) checkItem_state)
          (JStr "complete") in
      let state := if complete then "completed" else "marked incomplete" in
      let stateEmoji := if complete then "✅" else "⬜" in
      finish env action
        (Some (stateEmoji ++ " Checklist Item "
               ++ (if String.eqb state "completed"
                   then "Completed" else "Updated"),
               "Checklist item **" ++ template checkItem ++ "** was " ++ state,
               if complete then 0x61BD4F else 0xF2D600))
  else if String.eqb type "addMemberToCard" then
    if not_true (NOTIFY_MEMBER_CHANGES env) then None
    else
      finish env action
        (Some ("👤 Member Assigned",
               "A team member was assigned to this card",
               0x9F19CC))
  else if String.eqb type "removeMemberFromCard" then
    if not_true (NOTIFY_MEMBER_CHANGES env) then None
    else
      finish env action
        (Some ("👤 Member Unassigned",
               "A team member was unassigned from this card",
               0xC377E0))
  else if String.eqb type "updateCard" then
    let oldDue := chain (data_of action data_old) old_due in
    let newDue := chain (data_of action data_card) card_due in
    let dueTouched :=
      negb (JSVal_eqb oldDue JUndefined)
      || negb (JSVal_eqb newDue JUndefined) in
    if dueTouched && not_true (NOTIFY_DUE_DATE_CHANGES env) then None
    else
      let tdc : option (string * string * Z) := None in
      (* Handle due date changes *)
      let tdc :=
        if dueTouched then
          if negb (truthy oldDue) && truthy newDue then
            let dueDate := toLocaleDateString env (template newDue) in
            Some ("📅 Due Date Set",
                  "Due date was set to **" ++ dueDate ++ "**",
                  0xF2D600)
          else if truthy oldDue && negb (truthy newDue) then
            Some ("📅 Due Date Removed",
                  "Due date was removed from the card",
                  0xEB5A46)
          else if truthy oldDue && truthy newDue
                  && negb (JSVal_eqb oldDue newDue) then
            let dueDate := toLocaleDateString env (template newDue) in
            Some ("📅 Due Date Changed",
                  "Due date was updated to **" ++ dueDate ++ "**",
                  0x0079BF)
          else tdc
        else tdc in
      (* Handle name changes *)
      let oldName := chain (data_of action data_old) old_name in
      let tdc :=
        if negb (JSVal_eqb oldName JUndefined) then
          Some ("✏️ Card Renamed",
                "Card was renamed from **" ++ template oldName ++ "**",
                0x0079BF)
        else tdc in
      (* Handle list moves *)
      let tdc :=
        match data_of action data_listBefore,
              data_of action data_listAfter with
        | Some listBefore, Some listAfter =>
            let fromList := ref_name listBefore in
            let toList := ref_name listAfter in
            Some ("🔄 Card Moved",
                  "Card was moved from **" ++ template fromList
                  ++ "** to **" ++ template toList ++ "**",
                  0x9F19CC)
        | _, _ => tdc
        end in
      finish env action tdc
  else if String.eqb type "commentCard" then
    if not_true (NOTIFY_COMMENT_CHANGES env) then None
    else
      finish env action
        (Some ("💬 New Comment",
               "A new comment was added to the card",
               0x0079BF))
  else if String.eqb type "moveCardToBoard"
          || String.eqb type "moveCardFromBoard" then
    let listName :=
      or_else (chain (data_of action data_list) ref_name)
        (or_else (chain (data_of action data_listAfter) ref_name)
           (JStr "Unknown List")) in
    finish env action
      (Some ("🔄 Card Moved",
             "Card was moved to **" ++ template listName ++ "**",
             0x9F19CC))
  else None.

(** *** The world the poller acts on *)

(** One [thread.send({ embeds: [embed] })] that resolved.  The card and the
    action are the context of the call, kept for stating properties. *)
Record Delivery : Type := {
  delivery_thread : string;
  delivery_card : string;
  delivery_embed : Embed;
  delivery_action : Action
}.

Record World : Type := {
  poller : Poller;
  (* Discord: thread id -> its messages, most recent first *)
  threads : list (string * list Message);
  (* notifications sent, oldest first *)
  deliveries : list Delivery;
  (* periods, in ms, passed to [setInterval], oldest first *)
  timers : list Z
}.

Definition with_poller (w : World) (p : Poller) : World :=
  {| poller := p; threads := threads w;
     deliveries := deliveries w; timers := timers w |}.

(** What one run of [checkForUpdates] receives from outside. *)
Record Tick : Type := {
  (* [new Date()] when the checkpoint is advanced *)
  tick_now : Z;
  (* [getBoardActions(...)]: [None] when the call rejects *)
  tick_actions : option (list Action);
  (* [discordBot.cardThreadMap] *)
  tick_cardThreadMap : list (string * string);
  (* whether [thread.send] resolves for this action *)
  tick_send_ok : Action -> bool
}.

(** The message Discord stores for a notification: authored by the bot, the
    embed as sent.  The poller reads nothing else of it. *)
Definition notification_message (now : Z) (embed : Embed) : Message :=
  {| message_id := "";
     author_bot := true;
     author_username := "";
     content := "";
     attachments := [];
     embeds := [embed];
     message_createdTimestamp := now |}.

Definition hashes_of (sent : list (string * list string)) (cardId : string)
  : list string :=
  match map_get sent cardId with
  | Some s => s
  | None => []
  end.

Definition processAction (env : Env) (tk : Tick) (w : World) (action : Action)
  : bool * World :=
  match chain (data_of action data_card) card_id with
  | JUndefined | JNull => (false, w)
  | JStr cardId =>
  if String.eqb cardId "" then (false, w) else
  (* findThreadByCardId *)
  match map_get (tick_cardThreadMap tk) cardId with
  | None => (false, w)
  | Some threadId =>
  if String.eqb threadId "" then (false, w) else
  (* channels.fetch: an unknown thread rejects, which the catch absorbs *)
  match map_get (threads w) threadId with
  | None => (false, w)
  | Some messages =>
  match formatNotificationEmbed env action with
  | None => (false, w)
  | Some embed =>
  let sent := sentNotifications (poller w) in
  if map_has sent cardId
     && set_has (hashes_of sent cardId) (createContentHash embed)
  then (false, w)
  else if negb (tick_send_ok tk action) then (false, w)
  else
    let sent :=
      if map_has sent cardId then sent else map_set sent cardId [] in
    let contentHash := createContentHash embed in
    let sent := map_set sent cardId (set_add (hashes_of sent cardId) contentHash) in
    (true,
     {| poller := with_sentNotifications (poller w) sent;
        threads :=
          map_set (threads w) threadId
            (notification_message (tick_now tk) embed :: messages);
        deliveries :=
          (deliveries w ++
             [{| delivery_thread := threadId;
                 delivery_card := cardId;
                 delivery_embed := embed;
                 delivery_action := action |}])%list;
        timers := timers w |})
  end end end end.

Definition cleanupOldData (p : Poller) : Poller :=
  let p :=
    if (2000 <? List.length (processedActions p))%nat then
      with_processedActions p (slice_last 2000 (processedActions p))
    else p in
  if (100 <? List.length (sentNotifications p))%nat then
    with_sentNotifications p (slice_last 100 (sentNotifications p))
  else p.

Definition handlePollingError (w : World) : World :=
  let p := poller w in
  let p := with_consecutiveErrors p (consecutiveErrors p + 1) in
  if maxConsecutiveErrors p <=? consecutiveErrors p then
    let tempInterval := intervalSeconds p * 2 in
    let p := with_pollingInterval p (Some (tempInterval * 1000)) in
    let p := with_consecutiveErrors p 0 in
    {| poller := p; threads := threads w; deliveries := deliveries w;
       timers := (timers w ++ [tempInterval * 1000])%list |}
  else with_poller w p.

(** [Array.prototype.sort] with the comparator
    [(a, b) => new Date(a.date) - new Date(b.date)].  The sort is stable, so
    its result is the one of insertion from the right. *)
Fixpoint sort_insert (a : Action) (l : list Action) : list Action :=
  match l with
  | [] => [a]
  | b :: l' =>
      if action_date a - action_date b <=? 0 then a :: l
      else b :: sort_insert a l'
  end.

Fixpoint sort (l : list Action) : list Action :=
  match l with
  | [] => []
  | a :: l' => sort_insert a (sort l')
  end.

(** The body of the [for] loop over [sortedActions]. *)
Definition loop_body (env : Env) (tk : Tick) (w : World) (action : Action)
  : World :=
  let (success, w) := processAction env tk w action in
  if success then
    with_poller w
      (with_processedActions (poller w)
         (set_add (processedActions (poller w)) (action_id action)))
  else w.

Definition checkForUpdates (env : Env) (tk : Tick) (w : World) : World :=
  match tick_actions tk with
  | None => handlePollingError w
  | Some actions =>
      let w := with_poller w (with_consecutiveErrors (poller w) 0) in
      let newActions :=
        filter (fun action =>
                  negb (set_has (processedActions (poller w))
                          (action_id action)))
          actions in
      if (List.length newActions =? 0)%nat then
        with_poller w (with_lastCheckTime (poller w) (tick_now tk))
      else
        let sortedActions := sort newActions in
        let w := fold_left (loop_body env tk) sortedActions w in
        let w := with_poller w (cleanupOldData (poller w)) in
        with_poller w (with_lastCheckTime (poller w) (tick_now tk))
  end.

(** *** Start-up scan *)

(** What [start] receives from outside. *)
Record Boot : Type := {
  boot_now : Z;
  boot_cardThreadMap : list (string * string);
  (* whether [thread.messages.fetch({ limit: 100 })] resolves *)
  boot_fetch_ok : string -> bool
}.

Definition is_notification (msg : Message) : bool :=
  author_bot msg
  && match embeds msg with
     | [] => false
     | embed :: _ =>
         JSVal_eqb (chain (embed_footer embed) footer_text) (JStr "Trello")
     end.

Definition scanThreadNotifications (fetch_ok : bool) (messages : list Message)
  (cardId : string) (sent : list (string * list string))
  : list (string * list string) :=
  if negb fetch_ok then sent
  else
    let messages := firstn 100 messages in
    let botMessages := filter is_notification messages in
    let sent :=
      if map_has sent cardId then sent else map_set sent cardId [] in
    fold_left
      (fun sent message =>
         match embeds message with
         | [] => sent
         | embed :: _ =>
             map_set sent cardId
               (set_add (hashes_of sent cardId) (createContentHash embed))
         end)
      botMessages sent.

Definition loadExistingNotifications (bt : Boot)
  (threads : list (string * list Message))
  (sent : list (string * list string)) : list (string * list string) :=
  fold_left
    (fun sent '(cardId, threadId) =>
       match map_get threads threadId with
       | None => sent
       | Some messages =>
           scanThreadNotifications (boot_fetch_ok bt threadId) messages
             cardId sent
       end)
    (boot_cardThreadMap bt) sent.

(** One card of the start-up scan: an iteration of the loop of
    [loadExistingNotifications] over the pair [(cardId, threadId)], with
    the messages the thread holds when its fetch resolves.  An unknown
    thread makes [channels.fetch] reject, which the loop catches. *)
Definition scan_card (fetch_ok : bool) (cardId threadId : string) (w : World)
  : World :=
  match map_get (threads w) threadId with
  | None => w
  | Some messages =>
      with_poller w
        (with_sentNotifications (poller w)
           (scanThreadNotifications fetch_ok messages cardId
              (sentNotifications (poller w))))
  end.

(** The whole scan, when nothing else runs until it has settled. *)
Definition scan_settled (bt : Boot) (w : World) : World :=
  with_poller w
    (with_sentNotifications (poller w)
       (loadExistingNotifications bt (threads w)
          (sentNotifications (poller w)))).

(** [start()].  [loadExistingNotifications()] is called without [await]:
    it takes its copy of the registry and writes nothing before its first
    [await], so [start] goes on with an untouched cache, and the scan
    settles later, card by card ([scan_card]), while ticks run.  The
    [checkForUpdates()] that ends [start] is the first tick. *)
Definition start (bt : Boot) (w : World) : World :=
  let p := poller w in
  if isPolling p then w
  else
    let p := with_isPolling p true in
    let p := with_lastCheckTime p (boot_now bt - 30 * 60 * 1000) in
    let p := with_pollingInterval p (Some (intervalSeconds p * 1000)) in
    {| poller := p; threads := threads w; deliveries := deliveries w;
       timers := (timers w ++ [intervalSeconds p * 1000])%list |}.

(** A fresh process: a new poller over the same Discord threads. *)
Definition restart (intervalSeconds0 : Z) (bt : Boot) (w : World) : World :=
  start bt
    {| poller := constructor intervalSeconds0 (boot_now bt);
       threads := threads w;
       deliveries := deliveries w;
       timers := [] |}.

End TrelloPoller.

(** ** String operations of the runtime *)

Module Text.

Definition code (c : ascii) : N := N_of_ascii c.

(** White space and line terminators, as [trim] and [\s] see them. *)
Definition is_space (c : ascii) : bool :=
  let n := code c in
  ((9 <=? n) && (n <=? 13) || (n =? 32) || (n =? 160))%N.

(** The characters [.] does not match. *)
Definition is_line_terminator (c : ascii) : bool :=
  let n := code c in
  ((n =? 10) || (n =? 13))%N.

Definition lower_char (c : ascii) : ascii :=
  let n := code c in
  if ((65 <=? n) && (n <=? 90)
      || (192 <=? n) && (n <=? 222) && negb (n =? 215))%N
  then ascii_of_N (n + 32)
  else c.

Fixpoint toLowerCase (s : string) : string :=
  match s with
  | EmptyString => EmptyString
  | String c s' => String (lower_char c) (toLowerCase s')
  end.

Fixpoint trimStart (s : string) : string :=
  match s with
  | EmptyString => EmptyString
  | String c s' => if is_space c then trimStart s' else s
  end.

Fixpoint trimEnd (s : string) : string :=
  match s with
  | EmptyString => EmptyString
  | String c s' =>
      match trimEnd s' with
      | EmptyString => if is_space c then EmptyString else String c EmptyString
      | rest => String c rest
      end
  end.

Definition trim (s : string) : string := trimEnd (trimStart s).

Definition is_empty (s : string) : bool := String.eqb s "".

Definition startsWith (s p : string) : bool := String.prefix p s.

Fixpoint includes (s sub : string) : bool :=
  String.prefix sub s
  || match s with
     | EmptyString => false
     | String _ s' => includes s' sub
     end.

Fixpoint drop (n : nat) (s : string) : string :=
  match n, s with
  | O, _ => s
  | S n', String _ s' => drop n' s'
  | S _, EmptyString => EmptyString
  end.

(** [s.split(sep)[0]] *)
Fixpoint before_first (sep : ascii) (s : string) : string :=
  match s with
  | EmptyString => EmptyString
  | String c s' =>
      if Ascii.eqb c sep then EmptyString else String c (before_first sep s')
  end.

(** [s.split(sep).pop()] *)
Fixpoint after_last (sep : ascii) (s : string) : string :=
  match s with
  | EmptyString => EmptyString
  | String c s' =>
      if includes s (String sep EmptyString)
      then (if Ascii.eqb c sep && negb (includes s' (String sep EmptyString))
            then s' else after_last sep s')
      else s
  end.

(** The longest prefix free of white space: a match of [[^\s]*]. *)
Fixpoint nonspace_prefix (s : string) : string :=
  match s with
  | EmptyString => EmptyString
  | String c s' =>
      if is_space c then EmptyString else String c (nonspace_prefix s')
  end.

Fixpoint all_nonspace (s : string) : bool :=
  match s with
  | EmptyString => true
  | String c s' => negb (is_space c) && all_nonspace s'
  end.

(** A match of [\.(e1|e2|...)(\?|$)] somewhere in [s]. *)
Definition extension_here (exts : list string) (s : string) : bool :=
  match s with
  | String "." s' =>
      existsb
        (fun ext =>
           String.prefix ext s'
           && match drop (String.length ext) s' with
              | EmptyString => true
              | String c _ => Ascii.eqb c "?"
              end)
        exts
  | _ => false
  end.

Fixpoint has_extension (exts : list string) (s : string) : bool :=
  extension_here exts s
  || match s with
     | EmptyString => false
     | String _ s' => has_extension exts s'
     end.

(** A match of [https?:\/\/[^\s]+] starting at the head of [s]. *)
Definition url_here (s : string) : option string :=
  let scheme :=
    if String.prefix "https://" s then Some "https://"
    else if String.prefix "http://" s then Some "http://"
    else None in
  match scheme with
  | None => None
  | Some scheme =>
      let rest := nonspace_prefix (drop (String.length scheme) s) in
      if is_empty rest then None else Some (scheme ++ rest)
  end.

(** [s.match(/(https?:\/\/[^\s]+)/g) || []]: the matches from left to
    right, none overlapping; [skip] characters belong to the previous
    match. *)
Fixpoint match_urls_from (skip : nat) (s : string) : list string :=
  match s with
  | EmptyString => []
  | String _ s' =>
      match skip with
      | S k => match_urls_from k s'
      | O =>
          match url_here s with
          | Some url => url :: match_urls_from (String.length url - 1) s'
          | None => match_urls_from 0 s'
          end
      end
  end.

Definition match_urls (s : string) : list string := match_urls_from 0 s.

(** The shortest [x] free of line terminators with [x ++ close] a prefix of
    [s]: what [(.*?)] captures before [close]. *)
Fixpoint lazy_until (close : string) (s : string) : option string :=
  if String.prefix close s then Some EmptyString
  else
    match s with
    | EmptyString => None
    | String c s' =>
        if is_line_terminator c then None
        else option_map (String c) (lazy_until close s')
    end.

(** [s.replace(/D(.*?)D/g, L + '$1' + R)] for a literal delimiter [D]. *)
Fixpoint replace_delimited_from (skip : nat) (d l r : string) (s : string)
  : string :=
  match s with
  | EmptyString => EmptyString
  | String c s' =>
      match skip with
      | S k => replace_delimited_from k d l r s'
      | O =>
          if String.prefix d s then
            match lazy_until d (drop (String.length d) s) with
            | Some x =>
                l ++ x ++ r
                ++ replace_delimited_from
                     (String.length d + String.length x + String.length d - 1)
                     d l r s'
            | None => String c (replace_delimited_from 0 d l r s')
            end
          else String c (replace_delimited_from 0 d l r s')
      end
  end.

Definition replace_delimited (d l r : string) (s : string) : string :=
  replace_delimited_from 0 d l r s.

(** [s.replace(/lit/g, by)] for a literal, non-empty [lit]. *)
Fixpoint replace_all_from (skip : nat) (lit by_ : string) (s : string)
  : string :=
  match s with
  | EmptyString => EmptyString
  | String c s' =>
      match skip with
      | S k => replace_all_from k lit by_ s'
      | O =>
          if String.prefix lit s
          then by_ ++ replace_all_from (String.length lit - 1) lit by_ s'
          else String c (replace_all_from 0 lit by_ s')
      end
  end.

Definition replace_all (lit by_ : string) (s : string) : string :=
  replace_all_from 0 lit by_ s.

(** The greedy capture of a dot-star group: up to the next line
    terminator. *)
Fixpoint line_prefix (s : string) : string :=
  match s with
  | EmptyString => EmptyString
  | String c s' =>
      if is_line_terminator c then EmptyString else String c (line_prefix s')
  end.

(** [s.replace(re, L + '$1')] where [re] is the literal prefix [P] followed
    by a dot-star group, with the [g] flag. *)
Fixpoint replace_to_eol_from (skip : nat) (p l : string) (s : string)
  : string :=
  match s with
  | EmptyString => EmptyString
  | String c s' =>
      match skip with
      | S k => replace_to_eol_from k p l s'
      | O =>
          if String.prefix p s then
            let x := line_prefix (drop (String.length p) s) in
            l ++ x
            ++ replace_to_eol_from (String.length p + String.length x - 1)
                 p l s'
          else String c (replace_to_eol_from 0 p l s')
      end
  end.

Definition replace_to_eol (p l : string) (s : string) : string :=
  replace_to_eol_from 0 p l s.

End Text.

(** ** The bot: aggregation, reconciliation and orchestration *)

Module DiscordTrelloBot.
Import Text.

Record Thread : Type := {
  thread_id : string;
  thread_name : string;
  thread_createdTimestamp : Z;
  thread_ownerId : JSVal
}.

(** The three renderings of an instant the bot asks of the runtime, all in
    the ['en-US'] locale and the time zone of the process. *)
Record Locale : Type := {
  (* year numeric, month long, day numeric, hour and minute 2-digit,
     timeZoneName short *)
  format_long : Z -> string;
  (* toLocaleDateString: year numeric, month long, day numeric *)
  format_day : Z -> string;
  (* year numeric, month short, day numeric, hour and minute 2-digit,
     timeZoneName short *)
  format_short : Z -> string
}.

(** *** Literals of the source that are not ASCII, byte for byte *)

Definition SPEECH : string := "ðŸ’¬".
Definition MEMO : string := "ðŸ“".
Definition BULLET : string := "â€¢".
Definition PEOPLE : string := "ðŸ‘¥".
Definition CLIPBOARD : string := "ðŸ“‹".
Definition RULE : string := "â•â•â•â•â•â•â•â•â•â•â•â•â•â•â•â•â•â•â•â•â•â•â•â•â•â•â•â•â•â•â•â•â•â•â•â•â•â•â•".
Definition UPWARDS : string := "â¬†ï¸".
Definition DOWNWARDS : string := "ðŸ”½".
Definition CALENDAR : string := "ðŸ“…".
Definition CROWN : string := "ðŸ‘‘".
Definition THOUGHT : string := "ðŸ’­".
Definition LINK : string := "ðŸ”—".

Definition LF : string := String (ascii_of_N 10) EmptyString.

(** *** Rendering one message *)

Definition mediaExtensions : list string :=
  ["gif"; "png"; "jpg"; "jpeg"; "webp"; "mp4"; "mov"; "avi"; "webm"; "mkv";
   "mp3"; "wav"; "ogg"; "flac"; "m4a"].

(** [/^https?:\/\/(www\.)?tenor\.com\/view\/[^\s]+$/], on a lower-cased
    subject. *)
Definition tenorShare (s : string) : bool :=
  let rest :=
    if String.prefix "https://" s then Some (drop 8 s)
    else if String.prefix "http://" s then Some (drop 7 s)
    else None in
  match rest with
  | None => false
  | Some rest =>
      let rest := if String.prefix "www." rest then drop 4 rest else rest in
      String.prefix "tenor.com/view/" rest
      && negb (is_empty (drop 15 rest))
      && all_nonspace (drop 15 rest)
  end.

(** The three patterns carry the [i] flag; they are matched against the
    lower-cased text. *)
Definition isJustMediaUrl (content : string) : bool :=
  let trimmed := trim content in
  if is_empty trimmed then false
  else if has_extension mediaExtensions (toLowerCase trimmed) then true
  else if includes (toLowerCase trimmed) "cdn.discordapp.com"
          || includes (toLowerCase trimmed) "media.discordapp.net" then true
  else if tenorShare (toLowerCase trimmed) then true
  else false.

Definition getMediaTypeFromUrl (url : string) : string :=
  let lowerUrl := toLowerCase url in
  if includes lowerUrl ".gif" || includes lowerUrl "gif" then "a GIF"
  else if includes lowerUrl "tenor.com/view/" then "a GIF"
  else if has_extension ["png"; "jpg"; "jpeg"; "webp"] lowerUrl
  then "an Image"
  else if has_extension ["mp4"; "mov"; "avi"; "webm"; "mkv"] lowerUrl
  then "a Video"
  else if has_extension ["mp3"; "wav"; "ogg"; "flac"; "m4a"] lowerUrl
  then "an Audio File"
  else "a File".

Record Types : Type := {
  images : nat;
  videos : nat;
  audio : nat;
  files : nat;
  gifs : nat
}.

Definition one_of (l : list string) (x : string) : bool :=
  existsb (String.eqb x) l.

(** The body of the [forEach] in [categorizeAttachments]. *)
Definition categorize (types : Types) (attachment : Attachment) : Types :=
  let ext := toLowerCase (after_last "." (attachment_name attachment)) in
  let contentType :=
    match attachment_contentType attachment with
    | JStr s => toLowerCase s
    | _ => ""
    end in
  if String.eqb ext "gif" || includes contentType "gif" then
    {| images := images types; videos := videos types; audio := audio types;
       files := files types; gifs := S (gifs types) |}
  else if one_of ["png"; "jpg"; "jpeg"; "webp"; "bmp"] ext
          || startsWith contentType "image/" then
    {| images := S (images types); videos := videos types;
       audio := audio types; files := files types; gifs := gifs types |}
  else if one_of ["mp4"; "mov"; "avi"; "webm"; "mkv"] ext
          || startsWith contentType "video/" then
    {| images := images types; videos := S (videos types);
       audio := audio types; files := files types; gifs := gifs types |}
  else if one_of ["mp3"; "wav"; "ogg"; "flac"; "m4a"] ext
          || startsWith contentType "audio/" then
    {| images := images types; videos := videos types;
       audio := S (audio types); files := files types; gifs := gifs types |}
  else
    {| images := images types; videos := videos types; audio := audio types;
       files := S (files types); gifs := gifs types |}.

Definition count_part (n : nat) (one many : string) : list string :=
  match n with
  | O => []
  | S O => [one]
  | _ => [number_toString (Z.of_nat n) ++ many]
  end.

Definition categorizeAttachments (attachments : list Attachment) : string :=
  let types :=
    fold_left categorize attachments
      {| images := 0; videos := 0; audio := 0; files := 0; gifs := 0 |} in
  let parts :=
    (count_part (gifs types) "a GIF" " GIFs"
     ++ count_part (images types) "an Image" " Images"
     ++ count_part (videos types) "a Video" " Videos"
     ++ count_part (audio types) "an Audio File" " Audio Files"
     ++ count_part (files types) "a File" " Files")%list in
  match parts with
  | [] => "an Attachment"
  | [p] => p
  | [p; q] => p ++ " and " ++ q
  | _ =>
      let lastPart := last parts "" in
      String.concat ", " (removelast parts) ++ ", and " ++ lastPart
  end.

Definition getEmbedType (embed : Embed) : string :=
  let type := embed_type embed in
  if JSVal_eqb type (JStr "image") then "an Image"
  else if JSVal_eqb type (JStr "gifv") then "a GIF"
  else if JSVal_eqb type (JStr "video") then "a Video"
  else if JSVal_eqb type (JStr "rich")
          && match embed_image embed with Some _ => true | None => false end
  then "an Image"
  else if JSVal_eqb type (JStr "rich")
          && match embed_video embed with Some _ => true | None => false end
  then "a Video"
  else if truthy (embed_url embed) then "a Link"
  else "an Embed".

Definition formatDiscordMarkdown (content : string) : string :=
  let content := replace_delimited "**" "**" "**" content in
  let content := replace_delimited "*" "*" "*" content in
  let content := replace_delimited "__" "__" "__" content in
  let content := replace_delimited "~~" "~~" "~~" content in
  let content := replace_delimited "`" "`" "`" content in
  let content :=
    replace_all "``````" (LF ++ "``````" ++ LF) content in
  let content := replace_to_eol "> " "> " content in
  replace_delimited "||" "[SPOILER: " "]" content.

Definition processEmbeds (embeds : list Embed) (showEmbeds : bool) : string :=
  if negb showEmbeds then ""
  else if (List.length embeds =? 0)%nat then ""
  else
    fold_left
      (fun embedInfo embed =>
         if truthy (embed_url embed)
         then embedInfo ++ LINK ++ " " ++ template (embed_url embed) ++ LF
         else embedInfo)
      embeds "".

Definition processAttachments (attachments : list Attachment)
  (showAttachments : bool) : string :=
  if negb showAttachments || (List.length attachments =? 0)%nat then ""
  else
    fold_left
      (fun attachmentInfo attachment =>
         attachmentInfo ++ LINK ++ " " ++ attachment_url attachment ++ LF)
      attachments "".

Definition formatMessageForCard (loc : Locale) (message : Message)
  (isOriginalPost : bool) : string :=
  let timestamp := format_short loc (message_createdTimestamp message) in
  let author := author_username message in
  let content := content message in
  let authorPrefix :=
    if isOriginalPost then CROWN ++ " **THREAD CREATOR**" else THOUGHT in
  let formattedMessage :=
    LF ++ authorPrefix ++ " **" ++ author ++ "** " ++ BULLET ++ " *"
    ++ timestamp ++ "*" ++ LF in
  let isJustUrl := isJustMediaUrl content in
  let hasTextContent :=
    negb (is_empty (trim content)) && negb isJustUrl in
  let hasAttachments := (0 <? List.length (attachments message))%nat in
  let hasEmbeds := (0 <? List.length (embeds message))%nat in
  if (negb hasTextContent && (hasAttachments || hasEmbeds)) || isJustUrl then
    let formattedMessage :=
      if isJustUrl then
        let mediaType := getMediaTypeFromUrl (trim content) in
        formattedMessage ++ "*" ++ author ++ " only attached " ++ mediaType
        ++ "*" ++ LF ++ LINK ++ " " ++ trim content ++ LF
      else
        match attachments message, embeds message with
        | firstAttachment :: _, _ =>
            let attachmentTypes :=
              categorizeAttachments (attachments message) in
            formattedMessage ++ "*" ++ author ++ " only attached "
            ++ attachmentTypes ++ "*" ++ LF ++ LINK ++ " "
            ++ attachment_url firstAttachment ++ LF
        | [], embed :: _ =>
            let embedType := getEmbedType embed in
            let formattedMessage :=
              formattedMessage ++ "*" ++ author ++ " only attached "
              ++ embedType ++ "*" ++ LF in
            if truthy (embed_url embed)
            then formattedMessage ++ LINK ++ " " ++ template (embed_url embed)
                 ++ LF
            else formattedMessage
        | [], [] => formattedMessage
        end in
    formattedMessage ++ LF ++ "---" ++ LF
  else
    let formattedMessage :=
      if hasTextContent then
        let formattedMessage :=
          if isOriginalPost
          then formattedMessage ++ "**" ++ MEMO ++ " ORIGINAL THREAD CONTENT:**"
               ++ LF
          else formattedMessage in
        let formattedContent := formatDiscordMarkdown content in
        let formattedMessage := formattedMessage ++ formattedContent ++ LF in
        let formattedMessage :=
          if (0 <? List.length (embeds message))%nat then
            let embedInfo := processEmbeds (embeds message) true in
            if negb (is_empty (trim embedInfo))
            then formattedMessage ++ embedInfo
            else formattedMessage
          else formattedMessage in
        if (0 <? List.length (attachments message))%nat then
          let attachmentInfo :=
            processAttachments (attachments message) true in
          if negb (is_empty attachmentInfo)
          then formattedMessage ++ attachmentInfo
          else formattedMessage
        else formattedMessage
      else formattedMessage in
    formattedMessage ++ LF ++ "---" ++ LF.

(** *** Aggregating a thread *)

Definition groupMessagesByDate (loc : Locale) (messages : list Message)
  : list (string * list Message) :=
  fold_left
    (fun grouped message =>
       let date := format_day loc (message_createdTimestamp message) in
       let grouped :=
         if map_has grouped date then grouped else map_set grouped date [] in
       match map_get grouped date with
       | Some dayMessages =>
           map_set grouped date (dayMessages ++ [message])%list
       | None => grouped
       end)
    messages [].

(** The pages [thread.messages.fetch] returned, each most recent first; the
    loop stops at the first empty page. *)
Fixpoint pages_read (pages : list (list Message)) : list (list Message) :=
  match pages with
  | [] => []
  | page :: pages' =>
      match page with
      | [] => []
      | _ => page :: pages_read pages'
      end
  end.

Definition fetchAllThreadMessages (pages : list (list Message))
  : list Message :=
  rev (List.concat
         (map (filter (fun msg => negb (author_bot msg))) (pages_read pages))).

(** [[...new Set(messages.map(m => m.author.username))]] *)
Definition participants_of (messages : list Message) : list string :=
  fold_left set_add (map author_username messages) [].

(** The description [updateCardWithAllMessages] builds before it calls
    [trello.card.update]. *)
Definition description_of (loc : Locale) (thread : Thread)
  (messages : list Message) : string :=
  let threadCreated := format_long loc (thread_createdTimestamp thread) in
  let description := "# " ++ SPEECH ++ " " ++ thread_name thread ++ LF ++ LF in
  let description :=
    description ++ "**" ++ MEMO ++ " Thread Details**" ++ LF in
  let description :=
    description ++ BULLET ++ " **ID:** `" ++ thread_id thread ++ "`" ++ LF in
  let description :=
    description ++ BULLET ++ " **Created:** " ++ threadCreated ++ LF in
  let description :=
    description ++ BULLET ++ " **Messages:** "
    ++ number_toString (Z.of_nat (List.length messages)) ++ LF in
  let description :=
    description ++ BULLET ++ " **Participants:** "
    ++ number_toString (Z.of_nat (List.length (participants_of messages)))
    ++ LF ++ LF in
  let participants := participants_of messages in
  let description :=
    description ++ "**" ++ PEOPLE ++ " Participants:** "
    ++ String.concat ", " participants ++ LF ++ LF in
  let replies := tl messages in
  let description :=
    description ++ "## " ++ CLIPBOARD ++ " Original Thread Post" ++ LF in
  let description := description ++ "**" ++ RULE ++ "**" ++ LF ++ LF in
  let description :=
    match messages with
    | originalPost :: _ =>
        description ++ formatMessageForCard loc originalPost true
    | [] => description
    end in
  let description := description ++ LF ++ "**" ++ RULE ++ "**" ++ LF in
  let description :=
    description ++ "**" ++ UPWARDS ++ " END OF ORIGINAL POST " ++ UPWARDS
    ++ "**" ++ LF in
  let description := description ++ "**" ++ RULE ++ "**" ++ LF ++ LF in
  if (0 <? List.length replies)%nat then
    let description :=
      description ++ "## " ++ SPEECH ++ " Thread Replies & Discussion" ++ LF in
    let description :=
      description ++ "**" ++ DOWNWARDS ++ " NEW CONTENT STARTS HERE "
      ++ DOWNWARDS ++ "**" ++ LF ++ LF in
    let repliesByDate := groupMessagesByDate loc replies in
    fold_left
      (fun description '(date, dayMessages) =>
         let description :=
           description ++ "### " ++ CALENDAR ++ " " ++ date ++ LF in
         fold_left
           (fun description message =>
              description ++ formatMessageForCard loc message false)
           dayMessages description)
      repliesByDate description
  else
    let description :=
      description ++ "## " ++ SPEECH ++ " Thread Replies" ++ LF in
    description
    ++ "*No replies yet - this thread only contains the original post.*"
    ++ LF.

(** *** Reconciling attachments *)

(** An attachment as [trello.searchAttachments] lists it. *)
Record RemoteAttachment : Type := {
  remote_url : string;
  remote_name : string
}.

(** A call to the Trello API that changes the board, and whether it
    resolved. *)
Inductive Call : Type :=
| CardCreate (name desc : string) (ok : bool)
| CardUpdate (cardId desc : string) (ok : bool)
| AddAttachment (cardId url name : string) (ok : bool).

(** The working sets of one pass and the [addAttachment] calls issued so
    far, oldest first. *)
Record Seen : Type := {
  existingUrls : list string;
  existingNames : list string;
  processedUrls : list string;
  processedNames : list string;
  issued : list Call
}.

(** The [forEach] over [existingAttachments]. *)
Definition seed (existingAttachments : list RemoteAttachment) : Seen :=
  fold_left
    (fun st att =>
       let urls := set_add (existingUrls st) (remote_url att) in
       let names := set_add (existingNames st) (remote_name att) in
       let baseUrl := before_first "?" (remote_url att) in
       {| existingUrls := set_add urls baseUrl;
          existingNames := names;
          processedUrls := processedUrls st;
          processedNames := processedNames st;
          issued := issued st |})
    existingAttachments
    {| existingUrls := []; existingNames := []; processedUrls := [];
       processedNames := []; issued := [] |}.

Definition isDuplicateUrl (st : Seen) (url baseUrl : string) : bool :=
  set_has (existingUrls st) url
  || set_has (existingUrls st) baseUrl
  || set_has (processedUrls st) url
  || set_has (processedUrls st) baseUrl.

Definition isDuplicateName (st : Seen) (name : string) : bool :=
  set_has (existingNames st) name || set_has (processedNames st) name.

(** [addAttachment] for an attachment or an embed: on success the URL, its
    base and the name are recorded; a rejection is logged and nothing is
    recorded.  [add_ok n] tells whether the call numbered [n] resolves. *)
Definition add_named (add_ok : nat -> bool) (cardId url baseUrl name : string)
  (st : Seen) : Seen :=
  let ok := add_ok (List.length (issued st)) in
  let issued' := (issued st ++ [AddAttachment cardId url name ok])%list in
  if ok then
    {| existingUrls := set_add (set_add (existingUrls st) url) baseUrl;
       existingNames := set_add (existingNames st) name;
       processedUrls := set_add (set_add (processedUrls st) url) baseUrl;
       processedNames := set_add (processedNames st) name;
       issued := issued' |}
  else
    {| existingUrls := existingUrls st;
       existingNames := existingNames st;
       processedUrls := processedUrls st;
       processedNames := processedNames st;
       issued := issued' |}.

(** [addAttachment] for a bare URL: only the URL and its base are
    recorded. *)
Definition add_link (add_ok : nat -> bool) (cardId url baseUrl name : string)
  (st : Seen) : Seen :=
  let ok := add_ok (List.length (issued st)) in
  let issued' := (issued st ++ [AddAttachment cardId url name ok])%list in
  if ok then
    {| existingUrls := set_add (set_add (existingUrls st) url) baseUrl;
       existingNames := existingNames st;
       processedUrls := set_add (set_add (processedUrls st) url) baseUrl;
       processedNames := processedNames st;
       issued := issued' |}
  else
    {| existingUrls := existingUrls st;
       existingNames := existingNames st;
       processedUrls := processedUrls st;
       processedNames := processedNames st;
       issued := issued' |}.

(** Process Discord attachments *)
Definition reconcile_attachment (add_ok : nat -> bool) (cardId : string)
  (st : Seen) (attachment : Attachment) : Seen :=
  let url := attachment_url attachment in
  let name := attachment_name attachment in
  let baseUrl := before_first "?" url in
  if negb (isDuplicateUrl st url baseUrl) && negb (isDuplicateName st name)
  then add_named add_ok cardId url baseUrl name st
  else st.

(** [o && o.url] for [embed.image] and [embed.video]. *)
Definition media_url (o : option JSVal) : option string :=
  match o with
  | Some url => if truthy url then Some (template url) else None
  | None => None
  end.

(** The link an embed contributes and the name it is attached under. *)
Definition embed_candidate (embed : Embed) : option (string * string) :=
  match media_url (embed_image embed) with
  | Some urlToProcess =>
      Some (urlToProcess,
            template (or_else (embed_title embed) (JStr "Embedded Image")))
  | None =>
      match media_url (embed_video embed) with
      | Some urlToProcess =>
          Some (urlToProcess,
                template (or_else (embed_title embed)
                            (JStr "Embedded Video")))
      | None =>
          if truthy (embed_url embed)
             && negb (JSVal_eqb (embed_type embed) (JStr "image"))
             && negb (JSVal_eqb (embed_type embed) (JStr "gifv"))
          then Some (template (embed_url embed),
                     template (or_else (embed_title embed)
                                 (JStr "Embedded Link")))
          else None
      end
  end.

(** Process embeds *)
Definition reconcile_embed (add_ok : nat -> bool) (cardId : string)
  (st : Seen) (embed : Embed) : Seen :=
  match embed_candidate embed with
  | None => st
  | Some (urlToProcess, attachmentName) =>
      let baseUrl := before_first "?" urlToProcess in
      if negb (isDuplicateUrl st urlToProcess baseUrl)
         && negb (isDuplicateName st attachmentName)
      then add_named add_ok cardId urlToProcess baseUrl attachmentName st
      else st
  end.

(** Extract URLs from message content *)
Definition reconcile_url (add_ok : nat -> bool) (cardId : string)
  (st : Seen) (url : string) : Seen :=
  let baseUrl := before_first "?" url in
  let attachmentName := "Shared Link" in
  if negb (isDuplicateUrl st url baseUrl)
  then add_link add_ok cardId url baseUrl attachmentName st
  else st.

(** The body of the loop over [messages]. *)
Definition reconcile_message (add_ok : nat -> bool) (cardId : string)
  (st : Seen) (message : Message) : Seen :=
  let st :=
    fold_left (reconcile_attachment add_ok cardId) (attachments message) st in
  let st := fold_left (reconcile_embed add_ok cardId) (embeds message) st in
  let urls := match_urls (content message) in
  fold_left (reconcile_url add_ok cardId) urls st.

(** The attachment part of [updateCardWithAllMessages]: the
    [addAttachment] calls of one pass. *)
Definition reconcile (add_ok : nat -> bool) (cardId : string)
  (existingAttachments : list RemoteAttachment) (messages : list Message)
  : list Call :=
  issued
    (fold_left (reconcile_message add_ok cardId) messages
       (seed existingAttachments)).

(** *** One synchronisation of a card *)

(** What one run of [updateCardWithAllMessages] receives from outside. *)
Record SyncResponses : Type := {
  (* pages of [thread.messages.fetch]; [None] when a fetch rejects *)
  sync_pages : option (list (list Message));
  (* whether [trello.card.update] resolves *)
  sync_update_ok : bool;
  (* [trello.searchAttachments]; [None] when it rejects *)
  sync_existing : option (list RemoteAttachment);
  (* whether the n-th [trello.addAttachment] of the pass resolves *)
  sync_add_ok : nat -> bool
}.

(** The calls issued, oldest first.  Every failure inside is caught and
    logged, so the method always returns. *)
Definition updateCardWithAllMessages (loc : Locale) (thread : Thread)
  (cardId : string) (r : SyncResponses) : list Call :=
  match sync_pages r with
  | None => []
  | Some pages =>
      let messages := fetchAllThreadMessages pages in
      let description := description_of loc thread messages in
      if negb (sync_update_ok r) then [CardUpdate cardId description false]
      else
        CardUpdate cardId description true
        :: match sync_existing r with
           | None => []
           | Some existingAttachments =>
               reconcile (sync_add_ok r) cardId existingAttachments messages
           end
  end.

(** *** The identity registry and the orchestrator *)

Record Bot : Type := {
  threadCardMap : list (string * string);    (* threadId -> cardId *)
  cardThreadMap : list (string * string);    (* cardId -> threadId *)
  processingThreads : list string
}.

Definition constructor : Bot :=
  {| threadCardMap := []; cardThreadMap := []; processingThreads := [] |}.

Definition findThreadByCardId (bot : Bot) (cardId : string) : option string :=
  map_get (cardThreadMap bot) cardId.

(** The two [set] calls that publish a mapping. *)
Definition bind (bot : Bot) (threadId cardId : string) : Bot :=
  {| threadCardMap := map_set (threadCardMap bot) threadId cardId;
     cardThreadMap := map_set (cardThreadMap bot) cardId threadId;
     processingThreads := processingThreads bot |}.

Definition with_processingThreads (bot : Bot) (s : list string) : Bot :=
  {| threadCardMap := threadCardMap bot;
     cardThreadMap := cardThreadMap bot;
     processingThreads := s |}.

(** How a method ends. *)
Inductive Outcome : Type :=
| Returned
| Threw.

(** What the look-ups of [getThreadCreator] answer. *)
Record CreatorLookup : Type := {
  (* [client.users.fetch(ownerId)]: the user name; [None] when it rejects *)
  lookup_owner : option string;
  (* [thread.fetchStarterMessage()]: the author's user name, if there is a
     message with an author; [None] when it rejects *)
  lookup_starter : option (option string)
}.

(** What one trigger receives from outside. *)
Record Responses : Type := {
  resp_creator : CreatorLookup;
  (* [trello.board.searchCards]: identifiers and names; [None] when it
     rejects *)
  resp_cards : option (list (string * string));
  (* the look-up repeated inside [createTrelloCard] *)
  resp_creator_again : CreatorLookup;
  (* [trello.card.create]: the [id] of the result; [None] when it rejects *)
  resp_created : option JSVal;
  (* the synchronisation that follows the binding *)
  resp_sync : SyncResponses;
  (* the synchronisation at the end of [handleThreadMessage] *)
  resp_resync : SyncResponses
}.

Definition getThreadCreator (thread : Thread) (r : CreatorLookup) : string :=
  if truthy (thread_ownerId thread) then
    match lookup_owner r with
    | Some username => username
    | None => "Unknown"
    end
  else
    match lookup_starter r with
    | Some (Some username) => username
    | Some None => "Unknown"
    | None => "Unknown"
    end.

Definition cardName_of (threadName threadCreator : string) : string :=
  "[Discord] " ++ threadName ++ " - by " ++ threadCreator.

(** A rejected search is caught and answered with [null], here [None]. *)
Definition findExistingCard (threadName threadCreator : string)
  (cards : option (list (string * string))) : option string :=
  match cards with
  | None => None
  | Some cards =>
      let cardName := cardName_of threadName threadCreator in
      match find (fun card => String.eqb (snd card) cardName) cards with
      | Some existingCard => Some (fst existingCard)
      | None => None
      end
  end.

(** [createTrelloCard]: the call issued and the [id] of the card data, or
    [None] when the creation rejects and the error is thrown on. *)
Definition createTrelloCard (loc : Locale) (thread : Thread) (r : Responses)
  : Call * option JSVal :=
  let threadCreator := getThreadCreator thread (resp_creator_again r) in
  let cardName := cardName_of (thread_name thread) threadCreator in
  let threadCreated := format_long loc (thread_createdTimestamp thread) in
  let cardDescription :=
    "# " ++ SPEECH ++ " " ++ thread_name thread ++ LF ++ LF
    ++ "**" ++ MEMO ++ " Thread Details**" ++ LF
    ++ BULLET ++ " **ID:** `" ++ thread_id thread ++ "`" ++ LF
    ++ BULLET ++ " **Creator:** " ++ threadCreator ++ LF
    ++ BULLET ++ " **Created:** " ++ threadCreated ++ LF ++ LF
    ++ "*Loading thread content...*" in
  match resp_created r with
  | None => (CardCreate cardName cardDescription false, None)
  | Some id => (CardCreate cardName cardDescription true, Some id)
  end.

Definition createNewThreadCard (loc : Locale) (thread : Thread)
  (r : Responses) (bot : Bot) : Bot * list Call * Outcome :=
  match createTrelloCard loc thread r with
  | (call, None) => (bot, [call], Threw)
  | (call, Some id) =>
      if negb (truthy id) then
        (* 'Card creation returned invalid data' *)
        (bot, [call], Threw)
      else
        let bot := bind bot (thread_id thread) (template id) in
        (bot,
         call :: updateCardWithAllMessages loc thread (template id)
                   (resp_sync r),
         Returned)
  end.

(** The [try] block shared by [handleNewThread] and
    [processExistingThread]. *)
Definition find_or_create (loc : Locale) (thread : Thread) (r : Responses)
  (bot : Bot) : Bot * list Call * Outcome :=
  let threadCreator := getThreadCreator thread (resp_creator r) in
  let existingCardId :=
    findExistingCard (thread_name thread) threadCreator (resp_cards r) in
  match existingCardId with
  | Some existingCardId =>
      if negb (String.eqb existingCardId "") then
        let bot := bind bot (thread_id thread) existingCardId in
        (bot,
         updateCardWithAllMessages loc thread existingCardId (resp_sync r),
         Returned)
      else createNewThreadCard loc thread r bot
  | None => createNewThreadCard loc thread r bot
  end.

(** The [catch] of both callers logs the error and goes on. *)
Definition processExistingThread (loc : Locale) (thread : Thread)
  (r : Responses) (bot : Bot) : Bot * list Call * Outcome :=
  let '(bot, calls, _) := find_or_create loc thread r bot in
  (bot, calls, Returned).

Definition handleNewThread (loc : Locale) (thread : Thread) (r : Responses)
  (bot : Bot) : Bot * list Call * Outcome :=
  match map_get (threadCardMap bot) (thread_id thread) with
  | Some cardId =>
      (bot, updateCardWithAllMessages loc thread cardId (resp_sync r),
       Returned)
  | None =>
      (* Another run holds the guard: up to ten sleeps of 500 ms, during
         which nothing else runs in this embedding. *)
      if set_has (processingThreads bot) (thread_id thread)
         && map_has (threadCardMap bot) (thread_id thread)
      then (bot, [], Returned)
      else
        let bot :=
          with_processingThreads bot
            (set_add (processingThreads bot) (thread_id thread)) in
        let '(bot, calls, _) := find_or_create loc thread r bot in
        (* finally *)
        let bot :=
          with_processingThreads bot
            (set_delete (processingThreads bot) (thread_id thread)) in
        (bot, calls, Returned)
  end.

(** [message] was posted or edited in [channel]. *)
Definition handleThreadMessage (loc : Locale) (message : Message)
  (channel : Thread) (r : Responses) (bot : Bot)
  : Bot * list Call * Outcome :=
  if author_bot message then (bot, [], Returned)
  else
    let mapped (bot : Bot) : option string :=
      match map_get (threadCardMap bot) (thread_id channel) with
      | Some cardId => if String.eqb cardId "" then None else Some cardId
      | None => None
      end in
    match mapped bot with
    | Some cardId =>
        (bot, updateCardWithAllMessages loc channel cardId (resp_resync r),
         Returned)
    | None =>
        let '(bot, calls, _) := handleNewThread loc channel r bot in
        match mapped bot with
        | None => (bot, calls, Returned)
        | Some cardId =>
            (bot,
             (calls ++ updateCardWithAllMessages loc channel cardId
                         (resp_resync r))%list,
             Returned)
        end
    end.

(** [initializeExistingThreads]: [threads] are the active threads of the
    forum, as [fetchActive] returned them, each with the responses its
    processing meets; [None] when the forum channel is missing or the fetch
    rejects. *)
Definition initializeExistingThreads (loc : Locale)
  (threads : option (list (Thread * Responses))) (bot : Bot)
  : Bot * list Call * Outcome :=
  match threads with
  | None => (bot, [], Returned)
  | Some threads =>
      let '(bot, calls) :=
        fold_left
          (fun '(bot, calls) '(thread, r) =>
             let '(bot, calls', _) := processExistingThread loc thread r bot in
             (bot, (calls ++ calls')%list))
          threads (bot, []) in
      (bot, calls, Returned)
  end.

(** *** Triggers *)

Inductive Trigger : Type :=
| ThreadCreate (thread : Thread) (r : Responses)
| MessageCreate (message : Message) (channel : Thread) (r : Responses)
| MessageUpdate (newMessage : Message) (channel : Thread) (r : Responses).

(** The event handlers of [setupEventHandlers], for events of the forum
    channel. *)
Definition handle (loc : Locale) (bot : Bot) (t : Trigger)
  : Bot * list Call * Outcome :=
  match t with
  | ThreadCreate thread r => handleNewThread loc thread r bot
  | MessageCreate message channel r =>
      handleThreadMessage loc message channel r bot
  | MessageUpdate newMessage channel r =>
      handleThreadMessage loc newMessage channel r bot
  end.

End DiscordTrelloBot.

(** ** The Trello helper: requests and their retries *)

Module TrelloHelper.
Import Text.

(** An error, as the retry loop inspects it. *)
Record Error : Type := {
  error_code : JSVal;
  error_name : JSVal;
  error_message : JSVal
}.

(** How one call of [requestFn] ends. *)
Inductive Attempt (A : Type) : Type :=
| Resolved (value : A)
| Rejected (error : Error).

Arguments Resolved {A} value.
Arguments Rejected {A} error.

(** How [_retryRequest] ends; [ReturnedUndefined] is the loop left without
    a [return], which takes [maxRetries] below 1. *)
Inductive Settled (A : Type) : Type :=
| Fulfilled (value : A)
| ReturnedUndefined
| Thrown (error : Error).

Arguments Fulfilled {A} value.
Arguments ReturnedUndefined {A}.
Arguments Thrown {A} error.

Definition isRetriableError (error : Error) : bool :=
  JSVal_eqb (error_code error) (JStr "ECONNRESET")
  || JSVal_eqb (error_code error) (JStr "ETIMEDOUT")
  || JSVal_eqb (error_name error) (JStr "AbortError")
  || (truthy (error_message error)
      && includes (template (error_message error)) "timeout").

(** The [for] loop of [_retryRequest] from [attempt] on, with [fuel]
    iterations left before [attempt <= maxRetries] fails.  [requestFn n] is
    how the n-th call ends.  The result comes with the delays slept, in
    milliseconds, oldest first. *)
Fixpoint retry_loop {A : Type} (requestFn : nat -> Attempt A)
  (defaultReturn : option A) (maxRetries : nat) (fuel attempt : nat)
  : Settled A * list Z :=
  match fuel with
  | O => (ReturnedUndefined, [])
  | S fuel' =>
      match requestFn attempt with
      | Resolved value => (Fulfilled value, [])
      | Rejected error =>
          if isRetriableError error && (attempt <? maxRetries)%nat then
            let delay := 2 ^ Z.of_nat attempt * 1000 in
            let (settled, delays) :=
              retry_loop requestFn defaultReturn maxRetries fuel' (S attempt) in
            (settled, delay :: delays)
          else
            match defaultReturn with
            | Some value => (Fulfilled value, [])
            | None => (Thrown error, [])
            end
      end
  end.

(** [_retryRequest(requestFn, defaultReturn = null, maxRetries = 3)];
    [None] stands for the [null] default. *)
Definition _retryRequest {A : Type} (requestFn : nat -> Attempt A)
  (defaultReturn : option A) (maxRetries : nat) : Settled A * list Z :=
  retry_loop requestFn defaultReturn maxRetries maxRetries 1.

(** The methods of the helper, each over the outcomes of its HTTP
    exchange. *)
Definition card_create {A : Type} (requestFn : nat -> Attempt A)
  : Settled A * list Z :=
  _retryRequest requestFn None 3.

Definition card_update {A : Type} (requestFn : nat -> Attempt A)
  : Settled A * list Z :=
  _retryRequest requestFn None 3.

Definition searchCards (requestFn : nat -> Attempt (list (string * string)))
  : Settled (list (string * string)) * list Z :=
  _retryRequest requestFn (Some []) 3.

Definition addAttachment {A : Type} (requestFn : nat -> Attempt A)
  : Settled A * list Z :=
  _retryRequest requestFn None 3.

Definition searchAttachments
  (requestFn : nat -> Attempt (list DiscordTrelloBot.RemoteAttachment))
  : Settled (list DiscordTrelloBot.RemoteAttachment) * list Z :=
  _retryRequest requestFn (Some []) 3.

Definition getBoardActions
  (requestFn : nat -> Attempt (list TrelloPoller.Action))
  : Settled (list TrelloPoller.Action) * list Z :=
  _retryRequest requestFn (Some []) 3.

(** What the caller's [await] sees: the value, or [None] for a throw. *)
Definition awaited {A : Type} (s : Settled A) : option A :=
  match s with
  | Fulfilled value => Some value
  | ReturnedUndefined => None
  | Thrown _ => None
  end.

End TrelloHelper.

(** ** Stopping the poller *)

Module Lifecycle.
Import TrelloPoller.

(** [stop()]: the live timer, if there is one, is cleared. *)
Definition stop (w : World) : World :=
  match pollingInterval (poller w) with
  | Some _ =>
      with_poller w
        (with_isPolling (with_pollingInterval (poller w) None) false)
  | None => w
  end.

End Lifecycle.

(** * Facts about the containers *)

Module JSFacts.

Lemma set_has_In (s : list string) (x : string) :
  set_has s x = true <-> In x s.
Proof.
  unfold set_has. rewrite existsb_exists. split.
  - intros (y & Hy & Heq). apply String.eqb_eq in Heq. now subst.
  - intros Hin. exists x. split; [assumption | apply String.eqb_refl].
Qed.

Lemma set_has_add (s : list string) (x y : string) :
  set_has (set_add s x) y = true <-> set_has s y = true \/ x = y.
Proof.
  unfold set_add. destruct (set_has s x) eqn:Hx.
  - split; [now left |]. intros [H | <-]; assumption.
  - rewrite !set_has_In, in_app_iff. cbn. tauto.
Qed.

Lemma slice_last_In {A : Type} (n : nat) (l : list A) (x : A) :
  In x (slice_last n l) -> In x l.
Proof.
  unfold slice_last. intros H.
  rewrite <- (firstn_skipn (List.length l - n) l).
  apply in_or_app. now right.
Qed.

Lemma map_get_set {V : Type} (m : list (string * V)) (k k' : string) (v : V) :
  map_get (map_set m k v) k'
  = if String.eqb k' k then Some v else map_get m k'.
Proof.
  induction m as [| [k0 v0] m IH]; cbn.
  - destruct (String.eqb k' k); reflexivity.
  - destruct (String.eqb_spec k k0) as [-> | Hne]; cbn.
    + destruct (String.eqb k' k0); reflexivity.
    + rewrite IH. destruct (String.eqb_spec k' k0) as [-> | Hne'];
        [| reflexivity].
      destruct (String.eqb_spec k0 k); [congruence | reflexivity].
Qed.

Lemma map_has_In {V : Type} (m : list (string * V)) (k : string) :
  map_has m k = true <-> In k (map_keys m).
Proof.
  unfold map_has, map_keys. induction m as [| [k0 v0] m IH]; cbn.
  - split; [discriminate | tauto].
  - destruct (String.eqb_spec k k0) as [-> | Hne].
    + split; [now left | reflexivity].
    + rewrite IH. split; [now right |]. intros [Heq | Hin];
        [congruence | assumption].
Qed.

Lemma map_keys_set {V : Type} (m : list (string * V)) (k : string) (v : V) :
  map_keys (map_set m k v)
  = if map_has m k then map_keys m else (map_keys m ++ [k])%list.
Proof.
  unfold map_has, map_keys. induction m as [| [k0 v0] m IH]; cbn.
  - reflexivity.
  - destruct (String.eqb_spec k k0) as [-> | Hne]; cbn; [reflexivity |].
    rewrite IH. destruct (map_get m k); reflexivity.
Qed.

Lemma map_get_In {V : Type} (m : list (string * V)) (k : string) (v : V) :
  map_get m k = Some v -> In k (map_keys m).
Proof.
  intros H. apply map_has_In. unfold map_has. now rewrite H.
Qed.

End JSFacts.

(** * Properties of the change poller *)

Module PollerFacts.
Import JSFacts TrelloPoller.

(** A stand-in for the runtime's date rendering, with every notification
    flag set to [flag]; used to run the definitions on concrete inputs. *)
Definition sample_env (flag : option string) : Env :=
  {| NOTIFY_LABEL_CHANGES := flag;
     NOTIFY_CHECKLIST_CHANGES := flag;
     NOTIFY_MEMBER_CHANGES := flag;
     NOTIFY_DUE_DATE_CHANGES := flag;
     NOTIFY_COMMENT_CHANGES := flag;
     toLocaleDateString := fun s => s;
     toISOString := number_toString |}.

(** A run of the poll loop: one [checkForUpdates] per tick. *)
Definition ticks (env : Env) (tks : list Tick) (w : World) : World :=
  fold_left (fun w tk => checkForUpdates env tk w) tks w.

(** A tick fails outright when the board query rejects. *)
Definition fails (tk : Tick) : Prop := tick_actions tk = None.

Definition failing_tick : Tick :=
  {| tick_now := 5000;
     tick_actions := None;
     tick_cardThreadMap := [];
     tick_send_ok := fun _ => true |}.

Definition started_world : World :=
  start {| boot_now := 0; boot_cardThreadMap := []; boot_fetch_ok := fun _ => true |}
    {| poller := constructor 30 0; threads := []; deliveries := [];
       timers := [] |}.

(** ** Back-off *)

Lemma failing_tick_below (env : Env) (tk : Tick) (w : World) :
  fails tk ->
  consecutiveErrors (poller w) + 1 < maxConsecutiveErrors (poller w) ->
  let w' := checkForUpdates env tk w in
  consecutiveErrors (poller w') = consecutiveErrors (poller w) + 1
  /\ maxConsecutiveErrors (poller w') = maxConsecutiveErrors (poller w)
  /\ intervalSeconds (poller w') = intervalSeconds (poller w)
  /\ pollingInterval (poller w') = pollingInterval (poller w)
  /\ lastCheckTime (poller w') = lastCheckTime (poller w)
  /\ timers w' = timers w.
Proof.
  intros Hf Hlt. unfold fails in Hf. unfold checkForUpdates. rewrite Hf.
  unfold handlePollingError. cbn [with_consecutiveErrors consecutiveErrors
    maxConsecutiveErrors].
  destruct (Z.leb_spec (maxConsecutiveErrors (poller w))
              (consecutiveErrors (poller w) + 1)) as [Hle | _]; [lia |].
  cbn. repeat split; reflexivity.
Qed.

Lemma failing_tick_at (env : Env) (tk : Tick) (w : World) :
  fails tk ->
  maxConsecutiveErrors (poller w) <= consecutiveErrors (poller w) + 1 ->
  let w' := checkForUpdates env tk w in
  consecutiveErrors (poller w') = 0
  /\ maxConsecutiveErrors (poller w') = maxConsecutiveErrors (poller w)
  /\ intervalSeconds (poller w') = intervalSeconds (poller w)
  /\ pollingInterval (poller w')
     = Some (intervalSeconds (poller w) * 2 * 1000)
  /\ lastCheckTime (poller w') = lastCheckTime (poller w)
  /\ timers w' = (timers w ++ [intervalSeconds (poller w) * 2 * 1000])%list.
Proof.
  intros Hf Hge. unfold fails in Hf. unfold checkForUpdates. rewrite Hf.
  unfold handlePollingError. cbn [with_consecutiveErrors consecutiveErrors
    maxConsecutiveErrors].
  destruct (Z.leb_spec (maxConsecutiveErrors (poller w))
              (consecutiveErrors (poller w) + 1)) as [_ | Hlt]; [| lia].
  cbn. repeat split; reflexivity.
Qed.

(** Below the threshold, [k] failures in a row leave everything but the
    counter as it was. *)
Lemma failures_below (env : Env) (tks : list Tick) :
  forall w : World,
    Forall fails tks ->
    consecutiveErrors (poller w) + Z.of_nat (List.length tks)
      < maxConsecutiveErrors (poller w) ->
    let w' := ticks env tks w in
    consecutiveErrors (poller w')
      = consecutiveErrors (poller w) + Z.of_nat (List.length tks)
    /\ maxConsecutiveErrors (poller w') = maxConsecutiveErrors (poller w)
    /\ intervalSeconds (poller w') = intervalSeconds (poller w)
    /\ pollingInterval (poller w') = pollingInterval (poller w)
    /\ lastCheckTime (poller w') = lastCheckTime (poller w)
    /\ timers w' = timers w.
Proof.
  induction tks as [| tk tks IH]; intros w Hall Hlt.
  - cbn. repeat split; lia.
  - inversion Hall as [| ? ? Hf Hall']; subst.
    cbn [List.length] in Hlt. rewrite Nat2Z.inj_succ in Hlt.
    destruct (failing_tick_below env tk w Hf ltac:(lia))
      as (Hc & Hm & Hi & Hp & Hl & Ht).
    cbn [ticks fold_left]. fold (ticks env tks (checkForUpdates env tk w)).
    destruct (IH (checkForUpdates env tk w) Hall' ltac:(lia))
      as (Hc' & Hm' & Hi' & Hp' & Hl' & Ht').
    cbn [List.length]. rewrite Nat2Z.inj_succ.
    repeat split; try congruence; lia.
Qed.

Lemma failures_keep_checkpoint (env : Env) (tks : list Tick) :
  forall w : World,
    Forall fails tks ->
    lastCheckTime (poller (ticks env tks w)) = lastCheckTime (poller w).
Proof.
  induction tks as [| tk tks IH]; intros w Hall; [reflexivity |].
  inversion Hall as [| ? ? Hf Hall']; subst.
  cbn [ticks fold_left]. fold (ticks env tks (checkForUpdates env tk w)).
  rewrite (IH _ Hall'). unfold fails in Hf.
  unfold checkForUpdates, handlePollingError. rewrite Hf.
  cbn [with_consecutiveErrors consecutiveErrors maxConsecutiveErrors].
  destruct (_ <=? _); reflexivity.
Qed.

Lemma ticks_app (env : Env) (tks1 tks2 : list Tick) (w : World) :
  ticks env (tks1 ++ tks2) w = ticks env tks2 (ticks env tks1 w).
Proof. unfold ticks. apply fold_left_app. Qed.

(** The state [start] leaves the back-off controller in. *)
Definition armed (w : World) : Prop :=
  maxConsecutiveErrors (poller w) = 5
  /\ consecutiveErrors (poller w) = 0
  /\ pollingInterval (poller w) = Some (intervalSeconds (poller w) * 1000).

(** C9.  With the threshold at 5, consecutive failing ticks never advance
    the checkpoint; fewer than five of them only count up; the fifth
    restarts the timer at twice the configured interval and resets the
    counter to 0; the sixth leaves that single doubling in place and counts
    1 again. *)
Theorem backoff_after_six_failures (env : Env) (w : World) (tks : list Tick) :
  armed w ->
  Forall fails tks ->
  let w' := ticks env tks w in
  lastCheckTime (poller w') = lastCheckTime (poller w)
  /\ ((List.length tks < 5)%nat ->
      consecutiveErrors (poller w') = Z.of_nat (List.length tks)
      /\ pollingInterval (poller w') = pollingInterval (poller w)
      /\ timers w' = timers w)
  /\ (List.length tks = 5%nat ->
      consecutiveErrors (poller w') = 0
      /\ pollingInterval (poller w')
         = Some (2 * (intervalSeconds (poller w) * 1000))
      /\ timers w'
         = (timers w ++ [2 * (intervalSeconds (poller w) * 1000)])%list)
  /\ (List.length tks = 6%nat ->
      consecutiveErrors (poller w') = 1
      /\ pollingInterval (poller w')
         = Some (2 * (intervalSeconds (poller w) * 1000))
      /\ timers w'
         = (timers w ++ [2 * (intervalSeconds (poller w) * 1000)])%list).
Proof.
  intros (Hmax & Hzero & Hint) Hall w'. subst w'.
  assert (Hfive : forall t1 t2 t3 t4 t5 : Tick,
             Forall fails [t1; t2; t3; t4; t5] ->
             let w5 := ticks env [t1; t2; t3; t4; t5] w in
             consecutiveErrors (poller w5) = 0
             /\ maxConsecutiveErrors (poller w5) = 5
             /\ intervalSeconds (poller w5) = intervalSeconds (poller w)
             /\ pollingInterval (poller w5)
                = Some (2 * (intervalSeconds (poller w) * 1000))
             /\ timers w5
                = (timers w ++ [2 * (intervalSeconds (poller w) * 1000)])%list).
  { intros t1 t2 t3 t4 t5 H5.
    change [t1; t2; t3; t4; t5] with ([t1; t2; t3; t4] ++ [t5])%list in *.
    apply Forall_app in H5. destruct H5 as [H4 H5].
    inversion H5 as [| ? ? Hf5 _]; subst.
    rewrite ticks_app.
    destruct (failures_below env [t1; t2; t3; t4] w H4)
      as (Hc & Hm & Hi & Hp & _ & Ht).
    { rewrite Hmax, Hzero. cbn. lia. }
    cbn [ticks fold_left] in *.
    set (w4 := checkForUpdates env t4 _) in *.
    destruct (failing_tick_at env t5 w4 Hf5) as (Hc5 & Hm5 & Hi5 & Hp5 & _ & Ht5).
    { rewrite Hm, Hc, Hmax, Hzero. cbn. lia. }
    cbn zeta in *. rewrite Hc5, Hm5, Hi5, Hp5, Ht5, Hm, Hi, Ht, Hmax.
    repeat split; try reflexivity.
    - f_equal. lia.
    - do 2 f_equal. lia. }
  split; [apply failures_keep_checkpoint; exact Hall |].
  split; [| split].
  - intros Hlen.
    destruct (failures_below env tks w Hall) as (Hc & _ & _ & Hp & _ & Ht).
    { rewrite Hmax, Hzero. lia. }
    cbn zeta in *. rewrite Hc, Hzero. repeat split; auto.
  - intros Hlen.
    destruct tks as [| t1 [| t2 [| t3 [| t4 [| t5 [| ]]]]]]; try discriminate.
    destruct (Hfive t1 t2 t3 t4 t5 Hall) as (Hc & _ & _ & Hp & Ht).
    repeat split; assumption.
  - intros Hlen.
    destruct tks as [| t1 [| t2 [| t3 [| t4 [| t5 [| t6 [| ]]]]]]];
      try discriminate.
    change [t1; t2; t3; t4; t5; t6]
      with ([t1; t2; t3; t4; t5] ++ [t6])%list in *.
    apply Forall_app in Hall. destruct Hall as [H5 H6].
    inversion H6 as [| ? ? Hf6 _]; subst.
    rewrite ticks_app.
    destruct (Hfive t1 t2 t3 t4 t5 H5) as (Hc & Hm & Hi & Hp & Ht).
    set (w5 := ticks env [t1; t2; t3; t4; t5] w) in *.
    cbn [ticks fold_left].
    destruct (failing_tick_below env t6 w5 Hf6)
      as (Hc6 & _ & _ & Hp6 & _ & Ht6).
    { rewrite Hc, Hm. lia. }
    cbn zeta in *. rewrite Hc6, Hp6, Ht6, Hc, Hp, Ht.
    repeat split; reflexivity.
Qed.

Lemma backoff_after_six_failures_witness :
  armed started_world
  /\ Forall fails (repeat failing_tick 6)
  /\ consecutiveErrors
       (poller (ticks (sample_env None) (repeat failing_tick 6) started_world))
     = 1
  /\ pollingInterval
       (poller (ticks (sample_env None) (repeat failing_tick 6) started_world))
     = Some 60000.
Proof.
  assert (Ha : armed started_world) by (repeat split; reflexivity).
  assert (Hf : Forall fails (repeat failing_tick 6))
    by (repeat constructor; reflexivity).
  split; [exact Ha |]. split; [exact Hf |].
  destruct (backoff_after_six_failures (sample_env None) started_world
              (repeat failing_tick 6) Ha Hf) as (_ & _ & _ & H6).
  destruct (H6 eq_refl) as (Hc & Hp & _).
  split; [exact Hc | exact Hp].
Defined.

(** ** Rendering is a function of the action and the configuration *)

(** Two environments with the same flag values and the same date
    rendering. *)
Definition same_configuration (e e' : Env) : Prop :=
  NOTIFY_LABEL_CHANGES e = NOTIFY_LABEL_CHANGES e'
  /\ NOTIFY_CHECKLIST_CHANGES e = NOTIFY_CHECKLIST_CHANGES e'
  /\ NOTIFY_MEMBER_CHANGES e = NOTIFY_MEMBER_CHANGES e'
  /\ NOTIFY_DUE_DATE_CHANGES e = NOTIFY_DUE_DATE_CHANGES e'
  /\ NOTIFY_COMMENT_CHANGES e = NOTIFY_COMMENT_CHANGES e'
  /\ (forall s, toLocaleDateString e s = toLocaleDateString e' s)
  /\ (forall ms, toISOString e ms = toISOString e' ms).

(** Two presentations of the same change: type, date and payload agree. *)
Definition same_change (a a' : Action) : Prop :=
  action_type a = action_type a'
  /\ action_date a = action_date a'
  /\ action_data a = action_data a'.

Lemma finish_ext (e e' : Env) (a a' : Action)
  (tdc : option (string * string * Z)) :
  (forall ms, toISOString e ms = toISOString e' ms) ->
  action_date a = action_date a' ->
  finish e a tdc = finish e' a' tdc.
Proof.
  intros Hiso Hdate. destruct tdc as [[[title description] color] |];
    [| reflexivity].
  unfold finish, notification. rewrite Hiso, Hdate. reflexivity.
Qed.

(** C10.  The embed formatter reads nothing but the action's type, date and
    payload, the five flags and the runtime's date rendering: two
    invocations that agree on those return the same embed (title,
    description, colour, footer and timestamp alike), or [null] both times,
    and hence the same content hash. *)
Theorem formatNotificationEmbed_deterministic (e e' : Env) (a a' : Action) :
  same_configuration e e' ->
  same_change a a' ->
  formatNotificationEmbed e a = formatNotificationEmbed e' a'
  /\ option_map createContentHash (formatNotificationEmbed e a)
     = option_map createContentHash (formatNotificationEmbed e' a').
Proof.
  intros (Hl & Hc & Hm & Hd & Hk & Hloc & Hiso) (Htype & Hdate & Hdata).
  assert (Heq : formatNotificationEmbed e a = formatNotificationEmbed e' a').
  { unfold formatNotificationEmbed, data_of.
    rewrite <- Htype, <- Hdata, <- Hl, <- Hc, <- Hm, <- Hd, <- Hk.
    rewrite <- !Hloc.
    repeat match goal with
           | |- (if ?b then _ else _) = (if ?b then _ else _) =>
               destruct b; [try reflexivity | try reflexivity]
           end;
      try (apply finish_ext; assumption). }
  split; [exact Heq | now rewrite Heq].
Qed.

Definition sample_comment (id : string) (date : Z) (cardId : string)
  : Action :=
  {| action_id := id;
     action_type := "commentCard";
     action_date := date;
     action_data :=
       Some {| data_card :=
                 Some {| card_id := JStr cardId; card_name := JStr "Card";
                         card_due := JUndefined |};
               data_old := None; data_label := None; data_checklist := None;
               data_checkItem := None; data_list := None;
               data_listBefore := None; data_listAfter := None |} |}.

Lemma formatNotificationEmbed_deterministic_witness :
  same_configuration (sample_env (Some "true")) (sample_env (Some "true"))
  /\ same_change (sample_comment "a1" 1000 "c1")
       (sample_comment "a2" 1000 "c1")
  /\ formatNotificationEmbed (sample_env (Some "true"))
       (sample_comment "a1" 1000 "c1")
     = formatNotificationEmbed (sample_env (Some "true"))
         (sample_comment "a2" 1000 "c1").
Proof.
  assert (Hc : same_configuration (sample_env (Some "true"))
                 (sample_env (Some "true")))
    by (repeat split; reflexivity).
  assert (Ha : same_change (sample_comment "a1" 1000 "c1")
                 (sample_comment "a2" 1000 "c1"))
    by (repeat split; reflexivity).
  split; [exact Hc |]. split; [exact Ha |].
  exact (proj1 (formatNotificationEmbed_deterministic
                  (sample_env (Some "true")) (sample_env (Some "true"))
                  (sample_comment "a1" 1000 "c1")
                  (sample_comment "a2" 1000 "c1") Hc Ha)).
Defined.

(** ** What one run of [processAction] does *)

Definition pair_of (d : Delivery) : string * string :=
  (delivery_card d, createContentHash (delivery_embed d)).

(** The cache after a delivery for [cardId] with hash [h]. *)
Definition cache_add (sent : list (string * list string))
  (cardId h : string) : list (string * list string) :=
  let sent := if map_has sent cardId then sent else map_set sent cardId [] in
  map_set sent cardId (set_add (hashes_of sent cardId) h).

Definition cached (sent : list (string * list string))
  (cardId h : string) : bool :=
  map_has sent cardId && set_has (hashes_of sent cardId) h.

Lemma processAction_false (env : Env) (tk : Tick) (w w' : World)
  (a : Action) :
  processAction env tk w a = (false, w') -> w' = w.
Proof.
  unfold processAction.
  repeat match goal with
         | |- context [match ?x with _ => _ end] => destruct x
         end; intros H; inversion H; reflexivity.
Qed.

Lemma processAction_true (env : Env) (tk : Tick) (w w' : World)
  (a : Action) :
  processAction env tk w a = (true, w') ->
  exists cardId threadId messages embed,
    chain (data_of a data_card) card_id = JStr cardId
    /\ map_get (tick_cardThreadMap tk) cardId = Some threadId
    /\ map_get (threads w) threadId = Some messages
    /\ formatNotificationEmbed env a = Some embed
    /\ cached (sentNotifications (poller w)) cardId
         (createContentHash embed) = false
    /\ tick_send_ok tk a = true
    /\ w' =
       {| poller :=
            with_sentNotifications (poller w)
              (cache_add (sentNotifications (poller w)) cardId
                 (createContentHash embed));
          threads :=
            map_set (threads w) threadId
              (notification_message (tick_now tk) embed :: messages);
          deliveries :=
            (deliveries w ++
               [{| delivery_thread := threadId;
                   delivery_card := cardId;
                   delivery_embed := embed;
                   delivery_action := a |}])%list;
          timers := timers w |}.
Proof.
  unfold processAction, cached, cache_add.
  destruct (chain (data_of a data_card) card_id) as [| | cardId] eqn:Hcard;
    try discriminate.
  destruct (String.eqb cardId ""); try discriminate.
  destruct (map_get (tick_cardThreadMap tk) cardId) as [threadId |] eqn:Hthread;
    try discriminate.
  destruct (String.eqb threadId ""); try discriminate.
  destruct (map_get (threads w) threadId) as [messages |] eqn:Hmsgs;
    try discriminate.
  destruct (formatNotificationEmbed env a) as [embed |] eqn:Hembed;
    try discriminate.
  destruct (map_has (sentNotifications (poller w)) cardId
            && set_has (hashes_of (sentNotifications (poller w)) cardId)
                 (createContentHash embed)) eqn:Hc; try discriminate.
  destruct (tick_send_ok tk a) eqn:Hs; try discriminate.
  cbn [negb]. intros H. injection H as <-.
  exists cardId, threadId, messages, embed.
  repeat split; try reflexivity; assumption.
Qed.

(** Order-preserving selection from a list. *)
Inductive Subsequence {A : Type} : list A -> list A -> Prop :=
| Subsequence_nil : Subsequence [] []
| Subsequence_skip (x : A) (l1 l2 : list A) :
    Subsequence l1 l2 -> Subsequence l1 (x :: l2)
| Subsequence_take (x : A) (l1 l2 : list A) :
    Subsequence l1 l2 -> Subsequence (x :: l1) (x :: l2).

Lemma Subsequence_nil_l {A : Type} (l : list A) : Subsequence [] l.
Proof. induction l; constructor; assumption. Qed.

Lemma Subsequence_In {A : Type} (l1 l2 : list A) :
  Subsequence l1 l2 -> forall x, In x l1 -> In x l2.
Proof.
  induction 1 as [| x l1 l2 _ IH | x l1 l2 _ IH]; intros y Hy.
  - exact Hy.
  - right. now apply IH.
  - destruct Hy as [-> | Hy]; [now left | right; now apply IH].
Qed.

Lemma Subsequence_trans {A : Type} (l1 l2 l3 : list A) :
  Subsequence l1 l2 -> Subsequence l2 l3 -> Subsequence l1 l3.
Proof.
  intros H12 H23. revert l1 H12.
  induction H23 as [| x l2 l3 _ IH | x l2 l3 _ IH]; intros l1 H12.
  - exact H12.
  - constructor. now apply IH.
  - inversion H12; subst.
    + constructor. now apply IH.
    + apply Subsequence_take. now apply IH.
Qed.

Lemma Subsequence_filter {A : Type} (f : A -> bool) (l : list A) :
  Subsequence (filter f l) l.
Proof.
  induction l as [| x l IH]; cbn; [constructor |].
  destruct (f x); constructor; assumption.
Qed.

Lemma Subsequence_filter_mono {A : Type} (f : A -> bool) (l1 l2 : list A) :
  Subsequence l1 l2 -> Subsequence (filter f l1) (filter f l2).
Proof.
  induction 1 as [| x l1 l2 _ IH | x l1 l2 _ IH]; cbn.
  - constructor.
  - destruct (f x); [constructor |]; assumption.
  - destruct (f x); [apply Subsequence_take |]; assumption.
Qed.

Lemma Subsequence_StronglySorted {A : Type} (R : A -> A -> Prop)
  (l1 l2 : list A) :
  Subsequence l1 l2 -> StronglySorted R l2 -> StronglySorted R l1.
Proof.
  induction 1 as [| x l1 l2 Hs IH | x l1 l2 Hs IH]; intros Hsorted.
  - constructor.
  - apply StronglySorted_inv in Hsorted. now apply IH.
  - apply StronglySorted_inv in Hsorted. destruct Hsorted as [Hs2 Hall].
    constructor; [now apply IH |].
    rewrite Forall_forall in *. intros y Hy. apply Hall.
    eapply Subsequence_In; eassumption.
Qed.

(** The step of the loop over [sortedActions]: either nothing happens, or
    one notification is sent, cached and its action marked processed. *)
Lemma loop_body_step (env : Env) (tk : Tick) (w : World) (a : Action) :
  loop_body env tk w a = w
  \/ exists (d : Delivery) (messages : list Message),
      delivery_action d = a
      /\ formatNotificationEmbed env a = Some (delivery_embed d)
      /\ chain (data_of a data_card) card_id = JStr (delivery_card d)
      /\ map_get (tick_cardThreadMap tk) (delivery_card d)
         = Some (delivery_thread d)
      /\ map_get (threads w) (delivery_thread d) = Some messages
      /\ cached (sentNotifications (poller w)) (delivery_card d)
           (createContentHash (delivery_embed d)) = false
      /\ loop_body env tk w a =
         {| poller :=
              with_processedActions
                (with_sentNotifications (poller w)
                   (cache_add (sentNotifications (poller w))
                      (delivery_card d)
                      (createContentHash (delivery_embed d))))
                (set_add (processedActions (poller w)) (action_id a));
            threads :=
              map_set (threads w) (delivery_thread d)
                (notification_message (tick_now tk) (delivery_embed d)
                 :: messages);
            deliveries := (deliveries w ++ [d])%list;
            timers := timers w |}.
Proof.
  unfold loop_body.
  destruct (processAction env tk w a) as [[|] w'] eqn:Hp.
  - right. apply processAction_true in Hp.
    destruct Hp as (cardId & threadId & messages & embed
                    & Hcard & Hthread & Hmsgs & Hembed & Hc & _ & ->).
    exists {| delivery_thread := threadId; delivery_card := cardId;
              delivery_embed := embed; delivery_action := a |}, messages.
    cbn. repeat split; assumption.
  - left. now apply processAction_false in Hp.
Qed.

(** The notifications a list of actions adds, in the order sent. *)
Lemma loop_deliveries (env : Env) (tk : Tick) (l : list Action) :
  forall w : World,
  exists ds : list Delivery,
    deliveries (fold_left (loop_body env tk) l w)
    = (deliveries w ++ ds)%list
    /\ Subsequence (map delivery_action ds) l
    /\ Forall (fun d =>
                 formatNotificationEmbed env (delivery_action d)
                 = Some (delivery_embed d)) ds
    /\ forall id : string,
        set_has (processedActions (poller (fold_left (loop_body env tk) l w)))
          id = true ->
        set_has (processedActions (poller w)) id = true
        \/ exists d, In d ds /\ action_id (delivery_action d) = id.
Proof.
  induction l as [| a l IH]; intros w.
  - exists []. cbn. rewrite app_nil_r.
    repeat split; [constructor | constructor | now left].
  - cbn [fold_left]. destruct (IH (loop_body env tk w a))
      as (ds & Hds & Hsub & Hall & Hproc).
    destruct (loop_body_step env tk w a)
      as [Heq | (d & messages & Hact & Hfmt & _ & _ & _ & _ & Heq)].
    + rewrite Heq in *. exists ds.
      repeat split; [assumption | now constructor | assumption | assumption].
    + rewrite Heq in *. cbn [deliveries poller processedActions
        with_processedActions] in *.
      exists (d :: ds). rewrite Hds.
      rewrite <- app_assoc. cbn [app map].
      repeat split.
      * rewrite Hact. now apply Subsequence_take.
      * constructor; [now rewrite Hact | assumption].
      * intros id Hid. apply Hproc in Hid.
        destruct Hid as [Hid | (d' & Hin & Hd')].
        -- apply set_has_add in Hid. destruct Hid as [Hid | <-].
           ++ now left.
           ++ right. exists d. split; [now left | now rewrite Hact].
        -- right. exists d'. split; [now right | assumption].
Qed.

(** ** What one tick does *)

(** The actions a tick retrieves; none when the board query rejects. *)
Definition batch (tk : Tick) : list Action :=
  match tick_actions tk with
  | Some actions => actions
  | None => []
  end.

Definition unprocessed (w : World) (action : Action) : bool :=
  negb (set_has (processedActions (poller w)) (action_id action)).

(** The notifications sent during one tick, in the order sent. *)
Definition new_deliveries (env : Env) (tk : Tick) (w : World)
  : list Delivery :=
  skipn (List.length (deliveries w)) (deliveries (checkForUpdates env tk w)).

Lemma cleanupOldData_processed (p : Poller) (id : string) :
  set_has (processedActions (cleanupOldData p)) id = true ->
  set_has (processedActions p) id = true.
Proof.
  unfold cleanupOldData.
  destruct (2000 <? List.length (processedActions p))%nat;
    destruct (100 <? List.length _)%nat;
    cbn [processedActions with_processedActions with_sentNotifications];
    try tauto; rewrite !set_has_In; apply slice_last_In.
Qed.

Lemma tick_deliveries (env : Env) (tk : Tick) (w : World) :
  exists ds : list Delivery,
    deliveries (checkForUpdates env tk w) = (deliveries w ++ ds)%list
    /\ Subsequence (map delivery_action ds)
         (sort (filter (unprocessed w) (batch tk)))
    /\ Forall (fun d =>
                 formatNotificationEmbed env (delivery_action d)
                 = Some (delivery_embed d)) ds
    /\ forall id : string,
        set_has (processedActions (poller (checkForUpdates env tk w))) id
        = true ->
        set_has (processedActions (poller w)) id = true
        \/ exists d, In d ds /\ action_id (delivery_action d) = id.
Proof.
  unfold checkForUpdates, batch.
  destruct (tick_actions tk) as [actions |].
  - set (w0 := with_poller w (with_consecutiveErrors (poller w) 0)).
    change (fun action : Action =>
              negb (set_has (processedActions (poller w0)) (action_id action)))
      with (unprocessed w).
    destruct (List.length (filter (unprocessed w) actions) =? 0)%nat eqn:Hlen.
    + exists []. cbn. rewrite app_nil_r.
      repeat split; [apply Subsequence_nil_l | constructor | now left].
    + destruct (loop_deliveries env tk
                  (sort (filter (unprocessed w) actions)) w0)
        as (ds & Hds & Hsub & Hall & Hproc).
      exists ds. cbn [deliveries with_poller poller with_lastCheckTime
                       processedActions].
      repeat split; try assumption.
      intros id Hid. apply cleanupOldData_processed in Hid.
      apply Hproc in Hid. exact Hid.
  - exists []. unfold handlePollingError.
    cbn [with_consecutiveErrors consecutiveErrors maxConsecutiveErrors].
    destruct (_ <=? _); cbn; rewrite app_nil_r;
      (repeat split; [apply Subsequence_nil_l | constructor | now left]).
Qed.

Lemma new_deliveries_spec (env : Env) (tk : Tick) (w : World) :
  deliveries (checkForUpdates env tk w)
  = (deliveries w ++ new_deliveries env tk w)%list.
Proof.
  unfold new_deliveries.
  destruct (tick_deliveries env tk w) as (ds & Hds & _).
  rewrite Hds, skipn_app, skipn_all, Nat.sub_diag. reflexivity.
Qed.

(** ** The sort is ascending and stable *)

Definition not_later (a b : Action) : Prop := action_date a <= action_date b.

Definition dated (T : Z) (a : Action) : bool := action_date a =? T.

Lemma sort_insert_In (a x : Action) (l : list Action) :
  In x (sort_insert a l) <-> x = a \/ In x l.
Proof.
  induction l as [| b l IH]; cbn.
  - intuition congruence.
  - destruct (action_date a - action_date b <=? 0); cbn;
      rewrite ?IH; intuition congruence.
Qed.

Lemma sort_insert_sorted (a : Action) (l : list Action) :
  StronglySorted not_later l -> StronglySorted not_later (sort_insert a l).
Proof.
  induction 1 as [| b l Hs IH Hall]; cbn.
  - repeat constructor.
  - destruct (Z.leb_spec (action_date a - action_date b) 0) as [Hle | Hgt].
    + constructor; [now constructor |].
      constructor; [unfold not_later; lia |].
      rewrite Forall_forall in *. intros x Hx.
      specialize (Hall x Hx). unfold not_later in *. lia.
    + constructor; [assumption |].
      rewrite Forall_forall in *. intros x Hx.
      apply sort_insert_In in Hx. destruct Hx as [-> | Hx].
      * unfold not_later. lia.
      * now apply Hall.
Qed.

Lemma sort_sorted (l : list Action) : StronglySorted not_later (sort l).
Proof.
  induction l as [| a l IH]; cbn; [constructor |].
  now apply sort_insert_sorted.
Qed.

Lemma sort_insert_stable (T : Z) (a : Action) (l : list Action) :
  filter (dated T) (sort_insert a l) = filter (dated T) (a :: l).
Proof.
  induction l as [| b l IH]; [reflexivity |].
  cbn [sort_insert].
  destruct (Z.leb_spec (action_date a - action_date b) 0) as [Hle | Hgt];
    [reflexivity |].
  cbn [filter] in *. rewrite IH. unfold dated.
  destruct (Z.eqb_spec (action_date a) T), (Z.eqb_spec (action_date b) T);
    try reflexivity.
  lia.
Qed.

(** Actions that carry the same timestamp come out in the order they came
    in. *)
Lemma sort_stable (T : Z) (l : list Action) :
  filter (dated T) (sort l) = filter (dated T) l.
Proof.
  induction l as [| a l IH]; [reflexivity |].
  cbn [sort]. rewrite sort_insert_stable. cbn [filter]. now rewrite IH.
Qed.

Lemma sort_permutation (l : list Action) : Permutation (sort l) l.
Proof.
  induction l as [| a l IH]; cbn; [constructor |].
  transitivity (a :: sort l); [| now constructor].
  clear IH. induction (sort l) as [| b l' IH]; cbn; [reflexivity |].
  destruct (_ <=? _); [reflexivity |].
  transitivity (b :: a :: l'); [now constructor | constructor].
Qed.

(** ** Delivery order within a tick *)

(** The order a tiebreak on identifiers would give: earlier timestamp first,
    and on equal timestamps the lexicographically smaller identifier. *)
Definition date_then_id (a b : Action) : Prop :=
  action_date a < action_date b
  \/ (action_date a = action_date b
      /\ String.leb (action_id a) (action_id b) = true).

Definition delivered_in_date_then_id_order (env : Env) (tk : Tick)
  (w : World) : Prop :=
  StronglySorted date_then_id
    (map delivery_action (new_deliveries env tk w)).

Definition sample_threads : list (string * list Message) := [("t1", [])].

Definition sample_world : World :=
  start {| boot_now := 0; boot_cardThreadMap := [("c1", "t1"); ("c2", "t1")];
           boot_fetch_ok := fun _ => true |}
    {| poller := constructor 30 0; threads := sample_threads;
       deliveries := []; timers := [] |}.

(** Two comments made at the same instant, returned by the board as
    ["b"], then ["a"]. *)
Definition tie_tick : Tick :=
  {| tick_now := 5000;
     tick_actions :=
       Some [sample_comment "b" 1000 "c1"; sample_comment "a" 1000 "c2"];
     tick_cardThreadMap := [("c1", "t1"); ("c2", "t1")];
     tick_send_ok := fun _ => true |}.

Example tie_tick_deliveries :
  map (fun d => action_id (delivery_action d))
    (new_deliveries (sample_env (Some "true")) tie_tick sample_world)
  = ["b"; "a"].
Proof. vm_compute. reflexivity. Qed.

(** C2, as stated, fails: on equal timestamps the notifications go out in
    the order of the API response, here ["b"] before ["a"]. *)
Lemma tie_not_broken_by_id :
  ~ delivered_in_date_then_id_order (sample_env (Some "true")) tie_tick
      sample_world.
Proof.
  unfold delivered_in_date_then_id_order.
  replace (map delivery_action
             (new_deliveries (sample_env (Some "true")) tie_tick sample_world))
    with [sample_comment "b" 1000 "c1"; sample_comment "a" 1000 "c2"]
    by (vm_compute; reflexivity).
  intros Hs. apply StronglySorted_inv in Hs. destruct Hs as [_ Hall].
  apply Forall_inv in Hall. destruct Hall as [Hlt | [_ Hleb]].
  - cbn in Hlt. lia.
  - vm_compute in Hleb. discriminate.
Qed.

(** C2, amended.  The notifications of one tick go out in ascending order of
    timestamp, and those whose actions carry the same timestamp go out in
    the order the API response listed them: the sort is stable and applies
    no tiebreak on identifiers. *)
Theorem deliveries_chronological_then_arrival (env : Env) (tk : Tick)
  (w : World) :
  let sent := map delivery_action (new_deliveries env tk w) in
  StronglySorted not_later sent
  /\ forall T : Z,
      Subsequence (filter (dated T) sent) (filter (dated T) (batch tk)).
Proof.
  destruct (tick_deliveries env tk w) as (ds & Hds & Hsub & _).
  assert (Hnew : new_deliveries env tk w = ds).
  { unfold new_deliveries.
    rewrite Hds, skipn_app, skipn_all, Nat.sub_diag. reflexivity. }
  cbn zeta. rewrite Hnew. split.
  - eapply Subsequence_StronglySorted; [exact Hsub | apply sort_sorted].
  - intros T.
    eapply Subsequence_trans.
    + apply Subsequence_filter_mono. exact Hsub.
    + rewrite sort_stable. apply Subsequence_filter_mono.
      apply Subsequence_filter.
Qed.

(** ** Actions whose category is switched off *)

(** A recognised type whose notification flag is not ['true']. *)
Definition gated_off (env : Env) (a : Action) : bool :=
  let type := action_type a in
  ((String.eqb type "addLabelToCard" || String.eqb type "removeLabelFromCard")
   && not_true (NOTIFY_LABEL_CHANGES env))
  || ((String.eqb type "addChecklistToCard"
       || String.eqb type "updateCheckItemStateOnCard")
      && not_true (NOTIFY_CHECKLIST_CHANGES env))
  || ((String.eqb type "addMemberToCard"
       || String.eqb type "removeMemberFromCard")
      && not_true (NOTIFY_MEMBER_CHANGES env))
  || (String.eqb type "commentCard" && not_true (NOTIFY_COMMENT_CHANGES env))
  || (String.eqb type "updateCard"
      && (negb (JSVal_eqb (chain (data_of a data_old) old_due) JUndefined)
          || negb (JSVal_eqb (chain (data_of a data_card) card_due)
                     JUndefined))
      && not_true (NOTIFY_DUE_DATE_CHANGES env)).

Lemma gated_off_no_embed (env : Env) (a : Action) :
  gated_off env a = true -> formatNotificationEmbed env a = None.
Proof.
  unfold gated_off. destruct a as [id type date data].
  cbn [action_type].
  rewrite !orb_true_iff, !andb_true_iff, !orb_true_iff.
  intros H.
  repeat match type of H with
         | _ \/ _ => destruct H as [H | H]
         | _ /\ _ => let Hf := fresh "Hflag" in destruct H as [H Hf]
         end;
    try (apply String.eqb_eq in H; subst type;
         unfold formatNotificationEmbed; cbn [action_type String.eqb Ascii.eqb Bool.eqb];
         cbn [action_type]; rewrite ?Hflag; reflexivity).
  apply String.eqb_eq in H. subst type.
  rewrite <- orb_true_iff in Hflag0.
  unfold formatNotificationEmbed.
  cbn [action_type String.eqb Ascii.eqb Bool.eqb]. cbv zeta.
  rewrite Hflag0, Hflag. reflexivity.
Qed.

(** What C4 states of a retrieved action: nothing is sent for it, and its
    identifier is in the processed set once the tick is over. *)
Definition skipped_yet_marked (env : Env) (tk : Tick) (w : World)
  (a : Action) : Prop :=
  (forall d, In d (new_deliveries env tk w) -> delivery_action d <> a)
  /\ set_has (processedActions (poller (checkForUpdates env tk w)))
       (action_id a) = true.

Definition sample_label (id : string) (date : Z) (cardId : string) : Action :=
  {| action_id := id;
     action_type := "addLabelToCard";
     action_date := date;
     action_data :=
       Some {| data_card :=
                 Some {| card_id := JStr cardId; card_name := JStr "Card";
                         card_due := JUndefined |};
               data_old := None;
               data_label :=
                 Some {| label_name := JStr "urgent";
                         label_color := JStr "red" |};
               data_checklist := None; data_checkItem := None;
               data_list := None; data_listBefore := None;
               data_listAfter := None |} |}.

Definition label_tick : Tick :=
  {| tick_now := 5000;
     tick_actions := Some [sample_label "a1" 1000 "c1"];
     tick_cardThreadMap := [("c1", "t1")];
     tick_send_ok := fun _ => true |}.

(** C4, as stated, fails: with [NOTIFY_LABEL_CHANGES] unset, the label
    action ["a1"] is not delivered and the processed set stays empty. *)
Lemma gated_action_left_unmarked :
  In (sample_label "a1" 1000 "c1") (batch label_tick)
  /\ gated_off (sample_env None) (sample_label "a1" 1000 "c1") = true
  /\ processedActions
       (poller (checkForUpdates (sample_env None) label_tick sample_world))
     = []
  /\ ~ skipped_yet_marked (sample_env None) label_tick sample_world
         (sample_label "a1" 1000 "c1").
Proof.
  split; [now left |]. split; [reflexivity |].
  split; [vm_compute; reflexivity |].
  intros [_ Hmarked]. vm_compute in Hmarked. discriminate.
Qed.

(** C4, amended.  For an action of a recognised type whose flag is off,
    retrieved by a tick: no notification is sent for it, and the tick does
    not put its identifier into the processed set (only a delivered action
    is marked), so it is examined again while the board keeps returning
    it. *)
Theorem gated_action_skipped_and_unmarked (env : Env) (tk : Tick)
  (w : World) (a : Action) :
  In a (batch tk) ->
  gated_off env a = true ->
  (forall b, In b (batch tk) -> action_id b = action_id a -> b = a) ->
  set_has (processedActions (poller w)) (action_id a) = false ->
  (forall d, In d (new_deliveries env tk w) -> delivery_action d <> a)
  /\ set_has (processedActions (poller (checkForUpdates env tk w)))
       (action_id a) = false.
Proof.
  intros Hin Hoff Hunique Hfresh.
  apply gated_off_no_embed in Hoff.
  destruct (tick_deliveries env tk w) as (ds & Hds & Hsub & Hall & Hproc).
  assert (Hnew : new_deliveries env tk w = ds).
  { unfold new_deliveries.
    rewrite Hds, skipn_app, skipn_all, Nat.sub_diag. reflexivity. }
  rewrite Hnew. rewrite Forall_forall in Hall.
  assert (Hnone : forall d, In d ds -> delivery_action d <> a).
  { intros d Hd Heq. specialize (Hall d Hd). rewrite Heq, Hoff in Hall.
    discriminate. }
  split; [exact Hnone |].
  destruct (set_has (processedActions (poller (checkForUpdates env tk w)))
              (action_id a)) eqn:Hm; [| reflexivity].
  apply Hproc in Hm. destruct Hm as [Hm | (d & Hd & Hid)].
  - congruence.
  - exfalso. apply (Hnone d Hd). apply Hunique; [| exact Hid].
    assert (Hd' : In (delivery_action d) (map delivery_action ds))
      by (now apply in_map).
    apply (Subsequence_In _ _ Hsub) in Hd'.
    apply (Permutation_in _ (sort_permutation _)) in Hd'.
    apply filter_In in Hd'. tauto.
Qed.

Lemma gated_action_skipped_and_unmarked_witness :
  In (sample_label "a1" 1000 "c1") (batch label_tick)
  /\ gated_off (sample_env None) (sample_label "a1" 1000 "c1") = true
  /\ set_has
       (processedActions
          (poller (checkForUpdates (sample_env None) label_tick sample_world)))
       "a1" = false.
Proof.
  assert (Hin : In (sample_label "a1" 1000 "c1") (batch label_tick))
    by (now left).
  assert (Hoff : gated_off (sample_env None) (sample_label "a1" 1000 "c1")
                 = true) by reflexivity.
  split; [exact Hin |]. split; [exact Hoff |].
  apply (gated_action_skipped_and_unmarked (sample_env None) label_tick
           sample_world (sample_label "a1" 1000 "c1") Hin Hoff).
  - intros b [<- | []] _. reflexivity.
  - reflexivity.
Defined.

(** ** The content-hash cache *)

Lemma cached_hashes (sent : list (string * list string)) (c h : string) :
  cached sent c h = set_has (hashes_of sent c) h.
Proof.
  unfold cached, hashes_of, map_has.
  destruct (map_get sent c); reflexivity.
Qed.

Lemma hashes_of_set (sent : list (string * list string))
  (c c' : string) (v : list string) :
  hashes_of (map_set sent c v) c'
  = if String.eqb c' c then v else hashes_of sent c'.
Proof.
  unfold hashes_of. rewrite map_get_set.
  destruct (String.eqb c' c); reflexivity.
Qed.

Lemma hashes_of_ensure (sent : list (string * list string)) (c c' : string) :
  hashes_of (if map_has sent c then sent else map_set sent c []) c'
  = hashes_of sent c'.
Proof.
  destruct (map_has sent c) eqn:Hc; [reflexivity |].
  rewrite hashes_of_set.
  destruct (String.eqb_spec c' c) as [-> | Hne]; [| reflexivity].
  unfold hashes_of. unfold map_has in Hc.
  destruct (map_get sent c); [discriminate | reflexivity].
Qed.

Lemma hashes_of_cache_add (sent : list (string * list string))
  (c h c' : string) :
  hashes_of (cache_add sent c h) c'
  = if String.eqb c' c then set_add (hashes_of sent c) h
    else hashes_of sent c'.
Proof.
  unfold cache_add. rewrite hashes_of_set, !hashes_of_ensure. reflexivity.
Qed.

Lemma cached_cache_add (sent : list (string * list string))
  (c h c' h' : string) :
  cached (cache_add sent c h) c' h' = true
  <-> cached sent c' h' = true \/ (c = c' /\ h = h').
Proof.
  rewrite !cached_hashes, hashes_of_cache_add.
  destruct (String.eqb_spec c' c) as [-> | Hne].
  - rewrite set_has_add. intuition.
  - intuition congruence.
Qed.

Lemma map_keys_cache_add (sent : list (string * list string)) (c h : string) :
  map_keys (cache_add sent c h)
  = if map_has sent c then map_keys sent else (map_keys sent ++ [c])%list.
Proof.
  unfold cache_add. destruct (map_has sent c) eqn:Hc.
  - rewrite map_keys_set, Hc. reflexivity.
  - rewrite map_keys_set.
    assert (Hin : map_has (map_set sent c []) c = true).
    { unfold map_has. rewrite map_get_set, String.eqb_refl. reflexivity. }
    rewrite Hin, map_keys_set, Hc. reflexivity.
Qed.

(** The cache has one entry per card, all of them cards of [cards]. *)
Definition keyed_within (cards : list string)
  (sent : list (string * list string)) : Prop :=
  NoDup (map_keys sent) /\ incl (map_keys sent) cards.

Lemma keyed_within_cache_add (cards : list string)
  (sent : list (string * list string)) (c h : string) :
  In c cards -> keyed_within cards sent ->
  keyed_within cards (cache_add sent c h).
Proof.
  intros Hc [Hnd Hincl]. unfold keyed_within.
  rewrite map_keys_cache_add. destruct (map_has sent c) eqn:Hhas.
  - split; assumption.
  - split.
    + apply NoDup_app; [assumption | repeat constructor; intros [] |].
      intros x Hx [<- | []].
      apply map_has_In in Hx. congruence.
    + intros x Hx. apply in_app_or in Hx. destruct Hx as [Hx | [<- | []]];
        [now apply Hincl | assumption].
Qed.

Lemma keyed_within_length (cards : list string)
  (sent : list (string * list string)) :
  keyed_within cards sent ->
  (List.length sent <= List.length cards)%nat.
Proof.
  intros [Hnd Hincl]. unfold map_keys in *.
  rewrite <- (length_map fst sent).
  now apply NoDup_incl_length.
Qed.

(** ** The start-up scan *)

(** The loop of [scanThreadNotifications] over the bot's messages. *)
Definition scan_loop (cardId : string) (botMessages : list Message)
  (sent : list (string * list string)) : list (string * list string) :=
  fold_left
    (fun sent message =>
       match embeds message with
       | [] => sent
       | embed :: _ =>
           map_set sent cardId
             (set_add (hashes_of sent cardId) (createContentHash embed))
       end)
    botMessages sent.

(** [msg] carries [h]: its first embed hashes to [h]. *)
Definition carries (h : string) (msg : Message) : Prop :=
  exists embed rest,
    embeds msg = embed :: rest /\ createContentHash embed = h.

Lemma map_set_cache_add (sent : list (string * list string)) (c h : string) :
  map_has sent c = true ->
  map_set sent c (set_add (hashes_of sent c) h) = cache_add sent c h.
Proof. intros H. unfold cache_add. rewrite H. reflexivity. Qed.

Lemma map_has_cache_add (sent : list (string * list string)) (c h c' : string) :
  map_has sent c' = true -> map_has (cache_add sent c h) c' = true.
Proof.
  rewrite !map_has_In, map_keys_cache_add.
  destruct (map_has sent c); [tauto |].
  intros H. apply in_or_app. now left.
Qed.

Lemma scan_loop_spec (c : string) (msgs : list Message) :
  forall sent : list (string * list string),
    map_has sent c = true ->
    map_has (scan_loop c msgs sent) c = true
    /\ map_keys (scan_loop c msgs sent) = map_keys sent
    /\ forall c' h',
        cached (scan_loop c msgs sent) c' h' = true
        <-> cached sent c' h' = true
            \/ (c' = c /\ exists msg, In msg msgs /\ carries h' msg).
Proof.
  induction msgs as [| msg msgs IH]; intros sent Hhas.
  - cbn. repeat split; try assumption; [tauto |].
    intros [H | (_ & msg & [] & _)]. exact H.
  - unfold scan_loop. cbn [fold_left].
    fold (scan_loop c msgs
            (match embeds msg with
             | [] => sent
             | embed :: _ =>
                 map_set sent c
                   (set_add (hashes_of sent c) (createContentHash embed))
             end)).
    destruct (embeds msg) as [| embed rest] eqn:Hemb.
    + destruct (IH sent Hhas) as (H1 & H2 & H3).
      repeat split; try assumption.
      * intros H. apply H3 in H. destruct H as [H | (-> & m & Hm & Hc)];
          [now left | right].
        split; [reflexivity |]. exists m. split; [now right | assumption].
      * intros [H | (-> & m & [<- | Hm] & Hc)]; apply H3.
        -- now left.
        -- destruct Hc as (e & r & He & _). congruence.
        -- right. split; [reflexivity |]. now exists m.
    + rewrite (map_set_cache_add _ _ _ Hhas).
      destruct (IH (cache_add sent c (createContentHash embed)))
        as (H1 & H2 & H3).
      { now apply map_has_cache_add. }
      repeat split; try assumption.
      * rewrite H2, map_keys_cache_add, Hhas. reflexivity.
      * intros H. apply H3 in H. destruct H as [H | (-> & m & Hm & Hc)].
        -- apply cached_cache_add in H. destruct H as [H | [<- <-]];
             [now left | right].
           split; [reflexivity |]. exists msg. split; [now left |].
           now exists embed, rest.
        -- right. split; [reflexivity |]. exists m.
           split; [now right | assumption].
      * intros H. apply H3. rewrite cached_cache_add.
        destruct H as [H | (-> & m & [<- | Hm] & Hc)].
        -- left. now left.
        -- left. right. destruct Hc as (e & r & He & Hh).
           rewrite Hemb in He. injection He as <- <-. now split.
        -- right. split; [reflexivity |]. now exists m.
Qed.

Lemma scanThreadNotifications_spec (ok : bool) (msgs : list Message)
  (c : string) (sent : list (string * list string)) :
  let sent' := scanThreadNotifications ok msgs c sent in
  (forall cards, In c cards -> keyed_within cards sent ->
                 keyed_within cards sent')
  /\ (forall c' h', cached sent c' h' = true -> cached sent' c' h' = true)
  /\ (ok = true ->
      forall msg h, In msg (firstn 100 msgs) -> is_notification msg = true ->
                    carries h msg -> cached sent' c h = true).
Proof.
  unfold scanThreadNotifications. destruct ok; cbn [negb].
  - set (sent0 := if map_has sent c then sent else map_set sent c []).
    fold (scan_loop c (filter is_notification (firstn 100 msgs)) sent0).
    assert (Hhas : map_has sent0 c = true).
    { subst sent0. destruct (map_has sent c) eqn:Hc; [assumption |].
      unfold map_has. rewrite map_get_set, String.eqb_refl. reflexivity. }
    destruct (scan_loop_spec c (filter is_notification (firstn 100 msgs))
                sent0 Hhas) as (H1 & H2 & H3).
    assert (Hc0 : forall c' h', cached sent0 c' h' = cached sent c' h').
    { intros c' h'. rewrite !cached_hashes. subst sent0.
      now rewrite hashes_of_ensure. }
    split; [| split].
    + intros cards Hc [Hnd Hincl]. unfold keyed_within. rewrite H2.
      subst sent0. destruct (map_has sent c) eqn:Hsc; [now split |].
      rewrite map_keys_set, Hsc. split.
      * apply NoDup_app; [assumption | repeat constructor; intros [] |].
        intros x Hx [<- | []]. apply map_has_In in Hx. congruence.
      * intros x Hx. apply in_app_or in Hx.
        destruct Hx as [Hx | [<- | []]]; [now apply Hincl | assumption].
    + intros c' h' H. apply H3. left. now rewrite Hc0.
    + intros _ msg h Hin Hnote Hcar. apply H3. right.
      split; [reflexivity |]. exists msg. split; [| assumption].
      apply filter_In. now split.
  - split; [| split]; try tauto. discriminate.
Qed.


(** ** Runs of the poller *)

(** A card of the start-up scan about to be read: whether the fetch of
    the thread's messages resolves, the card, and the thread. *)
Definition ScanStep : Type := (bool * string * string)%type.

Definition scanned (w : World) (sc : ScanStep) : World :=
  let '(fetch_ok, cardId, threadId) := sc in
  scan_card fetch_ok cardId threadId w.

Definition scanned_card (sc : ScanStep) : string := snd (fst sc).

(** [checkForUpdates] while the scan that [start] launched is still
    running.  [amid action] are the cards read while the loop waits on its
    way to [action] (the pause after the action before, the fetch of the
    thread); [after] those read during the pause that follows the last
    action.  Cards read while the board is queried come before the tick. *)
Definition checkForUpdates_amid (env : Env) (tk : Tick)
  (amid : Action -> list ScanStep) (after : list ScanStep) (w : World)
  : World :=
  match tick_actions tk with
  | None => handlePollingError w
  | Some actions =>
      let w := with_poller w (with_consecutiveErrors (poller w) 0) in
      let newActions :=
        filter (fun action =>
                  negb (set_has (processedActions (poller w))
                          (action_id action)))
          actions in
      if (List.length newActions =? 0)%nat then
        with_poller w (with_lastCheckTime (poller w) (tick_now tk))
      else
        let sortedActions := sort newActions in
        let w :=
          fold_left
            (fun w action =>
               loop_body env tk (fold_left scanned (amid action) w) action)
            sortedActions w in
        let w := fold_left scanned after w in
        let w := with_poller w (cleanupOldData (poller w)) in
        with_poller w (with_lastCheckTime (poller w) (tick_now tk))
  end.

Inductive Event : Type :=
| Polled (tk : Tick)                         (* the timer fires *)
  (* the timer fires while the scan goes on *)
| PolledAmid (tk : Tick) (amid : Action -> list ScanStep)
    (after : list ScanStep)
| Restarted (intervalSeconds0 : Z) (bt : Boot) (* the process starts afresh *)
  (* one card of the scan [start] launched has been read *)
| Scanned (fetch_ok : bool) (cardId threadId : string)
| Posted (threadId : string) (msg : Message). (* a message lands in a thread *)

Definition post (threadId : string) (msg : Message) (w : World) : World :=
  {| poller := poller w;
     threads :=
       map_set (threads w) threadId
         (msg :: match map_get (threads w) threadId with
                 | Some messages => messages
                 | None => []
                 end);
     deliveries := deliveries w;
     timers := timers w |}.

Definition step (env : Env) (w : World) (ev : Event) : World :=
  match ev with
  | Polled tk => checkForUpdates env tk w
  | PolledAmid tk amid after => checkForUpdates_amid env tk amid after w
  | Restarted intervalSeconds0 bt => restart intervalSeconds0 bt w
  | Scanned fetch_ok cardId threadId => scan_card fetch_ok cardId threadId w
  | Posted threadId msg => post threadId msg w
  end.

Definition run (env : Env) (evs : list Event) (w : World) : World :=
  fold_left (step env) evs w.

(** Before anything has run: a poller straight from its constructor over
    some Discord threads. *)
Definition initial (threads0 : list (string * list Message)) : World :=
  {| poller := constructor 30 0; threads := threads0;
     deliveries := []; timers := [] |}.

(** What C1 states of a run: no (card, content hash) pair is delivered
    twice. *)
Definition at_most_once (w : World) : Prop :=
  NoDup (map pair_of (deliveries w)).

(** The invariant behind duplicate suppression: no pair was delivered
    twice, every delivered pair is still in the cache, and the cache has
    one entry per card of [cards]. *)
Record Inv (cards : list string) (w : World) : Prop := {
  inv_once : at_most_once w;
  inv_cover :
    forall d, In d (deliveries w) ->
              cached (sentNotifications (poller w)) (delivery_card d)
                (createContentHash (delivery_embed d)) = true;
  inv_keys : keyed_within cards (sentNotifications (poller w))
}.

Lemma loop_body_Inv (env : Env) (tk : Tick) (cards : list string)
  (w : World) (a : Action) :
  incl (map_keys (tick_cardThreadMap tk)) cards ->
  Inv cards w -> Inv cards (loop_body env tk w a).
Proof.
  intros Hincl [Honce Hcover Hkeys].
  destruct (loop_body_step env tk w a)
    as [-> | (d & messages & _ & _ & _ & Hmap & _ & Hnew & ->)];
    [now constructor |].
  constructor; cbn.
  - unfold at_most_once. cbn. rewrite map_app. cbn.
    apply NoDup_app; [exact Honce | repeat constructor; intros [] |].
    intros x Hx [<- | []]. apply in_map_iff in Hx.
    destruct Hx as (d0 & Heq & Hd0). specialize (Hcover d0 Hd0).
    unfold pair_of in Heq. injection Heq as Hc Hh.
    rewrite Hc, Hh in Hcover. congruence.
  - intros d0 Hd0. apply cached_cache_add. apply in_app_or in Hd0.
    destruct Hd0 as [Hd0 | [<- | []]]; [left; now apply Hcover | right].
    now split.
  - apply keyed_within_cache_add; [| assumption].
    apply Hincl. eapply map_get_In. eassumption.
Qed.

Lemma loop_Inv (env : Env) (tk : Tick) (cards : list string)
  (l : list Action) :
  incl (map_keys (tick_cardThreadMap tk)) cards ->
  forall w, Inv cards w -> Inv cards (fold_left (loop_body env tk) l w).
Proof.
  intros Hincl. induction l as [| a l IH]; intros w Hinv; [assumption |].
  cbn. apply IH. now apply loop_body_Inv.
Qed.

Lemma Inv_poller (cards : list string) (w : World) (p : Poller) :
  sentNotifications p = sentNotifications (poller w) ->
  Inv cards w -> Inv cards (with_poller w p).
Proof.
  intros Heq [Honce Hcover Hkeys].
  constructor; cbn; rewrite ?Heq; assumption.
Qed.

Lemma cleanupOldData_within_cap (p : Poller) :
  (List.length (sentNotifications p) <= 100)%nat ->
  sentNotifications (cleanupOldData p) = sentNotifications p.
Proof.
  intros Hle. unfold cleanupOldData.
  destruct (2000 <? List.length (processedActions p))%nat;
    cbn [sentNotifications with_processedActions];
    (destruct (Nat.ltb_spec 100 (List.length (sentNotifications p)));
     [lia | reflexivity]).
Qed.

Lemma checkForUpdates_Inv (env : Env) (tk : Tick) (cards : list string)
  (w : World) :
  (List.length cards <= 100)%nat ->
  incl (map_keys (tick_cardThreadMap tk)) cards ->
  Inv cards w -> Inv cards (checkForUpdates env tk w).
Proof.
  intros Hcap Hincl Hinv. unfold checkForUpdates.
  destruct (tick_actions tk) as [actions |].
  - set (w0 := with_poller w (with_consecutiveErrors (poller w) 0)).
    assert (Hinv0 : Inv cards w0) by (now apply Inv_poller).
    destruct (_ =? 0)%nat.
    + now apply Inv_poller.
    + set (w1 := fold_left (loop_body env tk) _ w0).
      assert (Hinv1 : Inv cards w1) by (now apply loop_Inv).
      apply Inv_poller; [reflexivity |].
      apply Inv_poller; [| assumption].
      apply cleanupOldData_within_cap.
      pose proof (keyed_within_length _ _ (inv_keys _ _ Hinv1)). lia.
  - unfold handlePollingError.
    cbn [with_consecutiveErrors consecutiveErrors maxConsecutiveErrors].
    destruct (_ <=? _).
    + destruct Hinv as [Honce Hcover Hkeys]. constructor; assumption.
    + now apply Inv_poller.
Qed.

(** ** At most one delivery per card and content hash *)

(** An event the amended C1 covers: the bound cards are among [cards], and
    the process does not start afresh once a notification has gone out. *)
Definition allowed (cards : list string) (w : World) (ev : Event) : Prop :=
  match ev with
  | Polled tk => incl (map_keys (tick_cardThreadMap tk)) cards
  | PolledAmid tk amid after =>
      incl (map_keys (tick_cardThreadMap tk)) cards
      /\ (forall action,
             Forall (fun sc => In (scanned_card sc) cards) (amid action))
      /\ Forall (fun sc => In (scanned_card sc) cards) after
  | Restarted _ _ => deliveries w = []
  | Scanned _ cardId _ => In cardId cards
  | Posted _ _ => True
  end.

Fixpoint admissible (env : Env) (cards : list string) (evs : list Event)
  (w : World) : Prop :=
  match evs with
  | [] => True
  | ev :: evs' =>
      allowed cards w ev /\ admissible env cards evs' (step env w ev)
  end.

Lemma restart_Inv (cards : list string) (intervalSeconds0 : Z) (bt : Boot)
  (w : World) :
  deliveries w = [] -> Inv cards (restart intervalSeconds0 bt w).
Proof.
  intros Hnone. unfold restart, start.
  cbn [poller constructor isPolling threads deliveries].
  constructor; unfold at_most_once; cbn; rewrite ?Hnone.
  - constructor.
  - intros d [].
  - split; [constructor | intros x []].
Qed.

Lemma scan_card_Inv (cards : list string) (ok : bool)
  (cardId threadId : string) (w : World) :
  In cardId cards -> Inv cards w ->
  Inv cards (scan_card ok cardId threadId w).
Proof.
  intros Hin [Honce Hcover Hkeys]. unfold scan_card.
  destruct (map_get (threads w) threadId) as [messages |];
    [| now constructor].
  destruct (scanThreadNotifications_spec ok messages cardId
              (sentNotifications (poller w))) as (Hk & Hm & _).
  constructor; cbn.
  - exact Honce.
  - intros d Hd. apply Hm. now apply Hcover.
  - now apply Hk.
Qed.

(** The cards of the scan, read one after the other with nothing in
    between, make the whole scan. *)
Lemma scan_settled_by_cards (bt : Boot) (w : World) :
  fold_left
    (fun w ct => scan_card (boot_fetch_ok bt (snd ct)) (fst ct) (snd ct) w)
    (boot_cardThreadMap bt) w
  = scan_settled bt w.
Proof.
  unfold scan_settled, loadExistingNotifications.
  generalize (boot_cardThreadMap bt) as entries. intros entries. revert w.
  induction entries as [| [c t] entries IH]; intros w.
  - destruct w as [[] ? ? ?]. reflexivity.
  - cbn [fold_left fst snd]. rewrite IH. unfold scan_card.
    destruct (map_get (threads w) t) as [messages |]; reflexivity.
Qed.

Lemma scanned_Inv (cards : list string) (scs : list ScanStep) :
  Forall (fun sc => In (scanned_card sc) cards) scs ->
  forall w, Inv cards w -> Inv cards (fold_left scanned scs w).
Proof.
  induction 1 as [| [[ok c] t] scs Hc _ IH]; intros w Hinv; [assumption |].
  cbn [fold_left]. apply IH. now apply scan_card_Inv.
Qed.

(** Without a scan going on, the tick is [checkForUpdates]. *)
Lemma checkForUpdates_amid_none (env : Env) (tk : Tick) (w : World) :
  checkForUpdates_amid env tk (fun _ => []) [] w = checkForUpdates env tk w.
Proof. reflexivity. Qed.

Lemma checkForUpdates_amid_Inv (env : Env) (tk : Tick)
  (amid : Action -> list ScanStep) (after : list ScanStep)
  (cards : list string) (w : World) :
  (List.length cards <= 100)%nat ->
  incl (map_keys (tick_cardThreadMap tk)) cards ->
  (forall action,
      Forall (fun sc => In (scanned_card sc) cards) (amid action)) ->
  Forall (fun sc => In (scanned_card sc) cards) after ->
  Inv cards w -> Inv cards (checkForUpdates_amid env tk amid after w).
Proof.
  intros Hcap Hincl Hamid Hafter Hinv. unfold checkForUpdates_amid.
  destruct (tick_actions tk) as [actions |].
  - set (w0 := with_poller w (with_consecutiveErrors (poller w) 0)).
    assert (Hinv0 : Inv cards w0) by (now apply Inv_poller).
    destruct (_ =? 0)%nat.
    + now apply Inv_poller.
    + set (w1 := fold_left _ (sort _) w0).
      assert (Hinv1 : Inv cards w1).
      { subst w1. generalize (sort
          (filter (fun action =>
                     negb (set_has (processedActions (poller w0))
                             (action_id action))) actions)) as l.
        intros l. revert Hinv0. generalize w0 as w2.
        induction l as [| a l IH]; intros w2 Hinv2; [assumption |].
        cbn [fold_left]. apply IH. apply loop_body_Inv; [assumption |].
        now apply scanned_Inv. }
      set (w2 := fold_left scanned after w1).
      assert (Hinv2 : Inv cards w2) by (now apply scanned_Inv).
      apply Inv_poller; [reflexivity |].
      apply Inv_poller; [| assumption].
      apply cleanupOldData_within_cap.
      pose proof (keyed_within_length _ _ (inv_keys _ _ Hinv2)). lia.
  - unfold handlePollingError.
    cbn [with_consecutiveErrors consecutiveErrors maxConsecutiveErrors].
    destruct (_ <=? _).
    + destruct Hinv as [Honce Hcover Hkeys]. constructor; assumption.
    + now apply Inv_poller.
Qed.

(** Every notification sent so far is the rendering of its action. *)
Definition rendered (env : Env) (w : World) : Prop :=
  Forall (fun d =>
            formatNotificationEmbed env (delivery_action d)
            = Some (delivery_embed d)) (deliveries w).

Lemma scanned_deliveries (scs : list ScanStep) :
  forall w, deliveries (fold_left scanned scs w) = deliveries w.
Proof.
  induction scs as [| [[ok c] t] scs IH]; intros w; [reflexivity |].
  cbn [fold_left]. rewrite IH. unfold scanned, scan_card.
  destruct (map_get (threads w) t); reflexivity.
Qed.

Lemma checkForUpdates_amid_rendered (env : Env) (tk : Tick)
  (amid : Action -> list ScanStep) (after : list ScanStep) (w : World) :
  rendered env w -> rendered env (checkForUpdates_amid env tk amid after w).
Proof.
  intros Hw. unfold checkForUpdates_amid.
  destruct (tick_actions tk) as [actions |].
  - set (w0 := with_poller w (with_consecutiveErrors (poller w) 0)).
    assert (H0 : rendered env w0) by exact Hw.
    destruct (_ =? 0)%nat; [exact Hw |].
    unfold rendered.
    cbn [deliveries with_poller]. rewrite scanned_deliveries.
    generalize (sort
      (filter (fun action =>
                 negb (set_has (processedActions (poller w0))
                         (action_id action))) actions)) as l.
    intros l. revert H0. generalize w0 as w1.
    induction l as [| a l IH]; intros w1 H1; [exact H1 |].
    cbn [fold_left]. apply IH. unfold rendered in *.
    destruct (loop_body_step env tk (fold_left scanned (amid a) w1) a)
      as [-> | (d & messages & Ha & Hr & _ & _ & _ & _ & ->)].
    + now rewrite scanned_deliveries.
    + cbn [deliveries]. rewrite scanned_deliveries.
      apply Forall_app. split; [exact H1 |].
      constructor; [| constructor]. now rewrite Ha.
  - unfold handlePollingError, rendered.
    cbn [with_consecutiveErrors consecutiveErrors maxConsecutiveErrors].
    destruct (_ <=? _); exact Hw.
Qed.

Lemma step_Inv (env : Env) (cards : list string) (w : World) (ev : Event) :
  (List.length cards <= 100)%nat ->
  allowed cards w ev -> Inv cards w -> Inv cards (step env w ev).
Proof.
  intros Hcap Hok Hinv.
  destruct ev as [tk | tk amid after | i bt | ok c t | t msg];
    cbn [step allowed] in *.
  - now apply checkForUpdates_Inv.
  - destruct Hok as (Hincl & Hamid & Hafter).
    now apply checkForUpdates_amid_Inv.
  - now apply restart_Inv.
  - now apply scan_card_Inv.
  - destruct Hinv as [Honce Hcover Hkeys]. constructor; assumption.
Qed.

Lemma run_Inv (env : Env) (cards : list string) (evs : list Event) :
  (List.length cards <= 100)%nat ->
  forall w, admissible env cards evs w -> Inv cards w ->
            Inv cards (run env evs w).
Proof.
  intros Hcap. induction evs as [| ev evs IH]; intros w Hadm Hinv;
    [assumption |].
  destruct Hadm as [Hok Hadm]. cbn. apply IH; [assumption |].
  now apply step_Inv.
Qed.

(** One hundred and one bound cards, [c0] to [c100], each with its own
    thread. *)
Definition many_bindings (n : nat) : list (string * string) :=
  map (fun i => ("c" ++ number_toString (Z.of_nat i),
                 "t" ++ number_toString (Z.of_nat i)))
    (seq 0 n).

Definition many_threads (n : nat) : list (string * list Message) :=
  map (fun i => ("t" ++ number_toString (Z.of_nat i), [])) (seq 0 n).

(** Two comments on card [c0]; they render to the same notification. *)
Definition replayed_tick : Tick :=
  {| tick_now := 5000;
     tick_actions :=
       Some [sample_comment "a0" 1000 "c0"; sample_comment "x" 1001 "c0"];
     tick_cardThreadMap := many_bindings 101;
     tick_send_ok := fun _ => true |}.

(** A start over the 101 bindings, the scan of every card settled, and the
    same tick twice. *)
Definition replay : list Event :=
  (Restarted 30 {| boot_now := 0; boot_cardThreadMap := many_bindings 101;
                   boot_fetch_ok := fun _ => true |}
   :: map (fun ct => Scanned true (fst ct) (snd ct)) (many_bindings 101)
   ++ [Polled replayed_tick; Polled replayed_tick])%list.

Example replay_first_tick :
  map (fun d => action_id (delivery_action d))
    (deliveries
       (run (sample_env (Some "true")) (firstn 103 replay)
          (initial (many_threads 101))))
  = ["a0"].
Proof. vm_compute. reflexivity. Qed.

(** C1, as stated, fails.  With 101 cards bound, the scan at start-up gives
    the cache 101 entries; the first tick delivers ["a0"], suppresses ["x"]
    as a content duplicate without marking it processed, and its clean-up
    drops the oldest entry, the one of [c0]; the replay then delivers ["x"],
    the same content on the same card. *)
Lemma replay_delivers_twice :
  map (fun d => (action_id (delivery_action d), pair_of d))
    (deliveries
       (run (sample_env (Some "true")) replay (initial (many_threads 101))))
  = [("a0", ("c0", simpleHash "💬 New Comment:A new comment was added to the card"));
     ("x", ("c0", simpleHash "💬 New Comment:A new comment was added to the card"))]
  /\ ~ at_most_once
         (run (sample_env (Some "true")) replay (initial (many_threads 101))).
Proof.
  assert (H : map pair_of
                (deliveries
                   (run (sample_env (Some "true")) replay
                      (initial (many_threads 101))))
              = [("c0", simpleHash "💬 New Comment:A new comment was added to the card");
                 ("c0", simpleHash "💬 New Comment:A new comment was added to the card")])
    by (vm_compute; reflexivity).
  split; [vm_compute; reflexivity |].
  unfold at_most_once. rewrite H. intros Hnd.
  apply NoDup_cons_iff in Hnd. destruct Hnd as [Hnotin _].
  apply Hnotin. now left.
Qed.

(** C1, amended.  Over any run of one poller, made of its start, the cards
    of its start-up scan settling one by one at any point between ticks or
    between the notifications of a tick, poll ticks and thread messages, in
    which at most 100 cards are ever bound (so the clean-up never drops a
    card from the cache) and the process does not start afresh once a
    notification has gone out, each pair of card and content hash is
    delivered at most once.  Nothing is stated of what follows a
    restart. *)
Theorem at_most_once_within_cap (env : Env) (cards : list string)
  (evs : list Event) (threads0 : list (string * list Message)) :
  (List.length cards <= 100)%nat ->
  admissible env cards evs (initial threads0) ->
  at_most_once (run env evs (initial threads0)).
Proof.
  intros Hcap Hadm.
  apply (inv_once cards). apply run_Inv; try assumption.
  constructor; cbn.
  - constructor.
  - intros d [].
  - split; [constructor | intros x []].
Qed.

Definition sample_boot : Boot :=
  {| boot_now := 0; boot_cardThreadMap := [("c1", "t1"); ("c2", "t1")];
     boot_fetch_ok := fun _ => true |}.

(** A start, the scan of the first card, one tick during which the second
    card is read on the way to the first action, and the same actions
    again. *)
Definition scan_between_ticks : list Event :=
  [Restarted 30 sample_boot; Scanned true "c1" "t1";
   PolledAmid tie_tick
     (fun action =>
        if String.eqb (action_id action) "b"
        then [(true, "c2", "t1")] else [])
     [];
   Polled tie_tick].

Example scan_between_ticks_deliveries :
  map (fun d => action_id (delivery_action d))
    (deliveries
       (run (sample_env (Some "true")) scan_between_ticks
          (initial sample_threads)))
  = ["b"; "a"].
Proof. vm_compute. reflexivity. Qed.

(** Read after the first notification went out, the second card's scan
    finds that notification in the shared thread and, the wording being the
    same, keeps the second one back. *)
Example scan_amid_tick_suppresses :
  map (fun d => action_id (delivery_action d))
    (deliveries
       (run (sample_env (Some "true"))
          [Restarted 30 sample_boot; Scanned true "c1" "t1";
           PolledAmid tie_tick
             (fun action =>
                if String.eqb (action_id action) "a"
                then [(true, "c2", "t1")] else [])
             []]
          (initial sample_threads)))
  = ["b"].
Proof. vm_compute. reflexivity. Qed.

Lemma at_most_once_within_cap_witness :
  (List.length ["c1"; "c2"] <= 100)%nat
  /\ admissible (sample_env (Some "true")) ["c1"; "c2"] scan_between_ticks
       (initial sample_threads)
  /\ at_most_once
       (run (sample_env (Some "true")) scan_between_ticks
          (initial sample_threads)).
Proof.
  assert (Hcap : (List.length ["c1"; "c2"] <= 100)%nat) by (cbn; lia).
  assert (Hincl : incl ["c1"; "c2"] ["c1"; "c2"]) by apply incl_refl.
  assert (Hadm : admissible (sample_env (Some "true")) ["c1"; "c2"]
                   scan_between_ticks (initial sample_threads)).
  { unfold scan_between_ticks. cbn [admissible allowed].
    split; [reflexivity |]. split; [now left |].
    split; [| split; [exact Hincl | exact I]].
    split; [exact Hincl |]. split; [| constructor].
    intros action. destruct (String.eqb (action_id action) "b");
      [| constructor].
    constructor; [| constructor]. cbn. right. now left. }
  split; [exact Hcap |]. split; [exact Hadm |].
  exact (at_most_once_within_cap (sample_env (Some "true")) ["c1"; "c2"]
           scan_between_ticks sample_threads Hcap Hadm).
Defined.

(** *** Across a restart *)

(** One comment on card [c1]. *)
Definition comment_tick : Tick :=
  {| tick_now := 5000;
     tick_actions := Some [sample_comment "a1" 1000 "c1"];
     tick_cardThreadMap := [("c1", "t1")];
     tick_send_ok := fun _ => true |}.

(** The process restarts after the comment was notified; the tick that
    [start] runs at once comes before the scan of the card has settled. *)
Definition tick_before_scan : list Event :=
  [Restarted 30 sample_boot; Scanned true "c1" "t1"; Polled comment_tick;
   Restarted 30 sample_boot; Polled comment_tick; Scanned true "c1" "t1"].

(** The same, with the scan of the card settled before the tick. *)
Definition scan_before_tick : list Event :=
  [Restarted 30 sample_boot; Scanned true "c1" "t1"; Polled comment_tick;
   Restarted 30 sample_boot; Scanned true "c1" "t1"; Polled comment_tick].

(** After a restart the cache is empty until the scan, which [start] does
    not wait for, has read the card's thread: a tick that comes first sends
    the notification again; one that comes after does not. *)
Example restart_races_scan :
  map (fun d => action_id (delivery_action d))
    (deliveries
       (run (sample_env (Some "true")) tick_before_scan
          (initial sample_threads)))
  = ["a1"; "a1"]
  /\ map (fun d => action_id (delivery_action d))
       (deliveries
          (run (sample_env (Some "true")) scan_before_tick
             (initial sample_threads)))
     = ["a1"].
Proof. split; vm_compute; reflexivity. Qed.

End PollerFacts.

(** * Properties of the bot *)

Module BotFacts.
Import JSFacts Text DiscordTrelloBot.

(** A stand-in for the runtime's date rendering: the instant in decimal,
    and the day as the number of whole days since the epoch. *)
Definition sample_locale : Locale :=
  {| format_long := number_toString;
     format_day := fun ms => number_toString (ms / 86400000);
     format_short := number_toString |}.

Definition sample_thread : Thread :=
  {| thread_id := "t1"; thread_name := "Bug 42";
     thread_createdTimestamp := 1000; thread_ownerId := JStr "u1" |}.

Definition text_message (id author text : string) (at_ : Z) : Message :=
  {| message_id := id; author_bot := false; author_username := author;
     content := text; attachments := []; embeds := [];
     message_createdTimestamp := at_ |}.

(** ** The calls of one synchronisation *)

(** The descriptions written by a list of calls. *)
Definition descriptions (calls : list Call) : list string :=
  flat_map
    (fun call =>
       match call with
       | CardUpdate _ desc _ => [desc]
       | _ => []
       end)
    calls.

(** URL and name of the attachments a list of calls added. *)
Definition added (calls : list Call) : list (string * string) :=
  flat_map
    (fun call =>
       match call with
       | AddAttachment _ url name true => [(url, name)]
       | _ => []
       end)
    calls.

(** URL of every [addAttachment] call issued, resolved or not. *)
Definition attempted (calls : list Call) : list string :=
  flat_map
    (fun call =>
       match call with
       | AddAttachment _ url _ _ => [url]
       | _ => []
       end)
    calls.

Definition is_add (call : Call) : Prop :=
  match call with
  | AddAttachment _ _ _ _ => True
  | _ => False
  end.

Lemma descriptions_adds (calls : list Call) :
  Forall is_add calls -> descriptions calls = [].
Proof.
  induction 1 as [| call calls Hc _ IH]; [reflexivity |].
  destruct call; cbn in *; try contradiction. exact IH.
Qed.

Lemma add_named_issued (add_ok : nat -> bool)
  (cardId url baseUrl name : string) (st : Seen) :
  issued (add_named add_ok cardId url baseUrl name st)
  = (issued st
     ++ [AddAttachment cardId url name (add_ok (List.length (issued st)))])%list.
Proof. unfold add_named. destruct (add_ok _); reflexivity. Qed.

Lemma add_link_issued (add_ok : nat -> bool)
  (cardId url baseUrl name : string) (st : Seen) :
  issued (add_link add_ok cardId url baseUrl name st)
  = (issued st
     ++ [AddAttachment cardId url name (add_ok (List.length (issued st)))])%list.
Proof. unfold add_link. destruct (add_ok _); reflexivity. Qed.

(** A property of the state of a pass that every step of the loop
    preserves is preserved by the loop. *)
Lemma reconcile_message_preserves (P : Seen -> Prop) (add_ok : nat -> bool)
  (cardId : string) :
  (forall st a, P st -> P (reconcile_attachment add_ok cardId st a)) ->
  (forall st e, P st -> P (reconcile_embed add_ok cardId st e)) ->
  (forall st u, P st -> P (reconcile_url add_ok cardId st u)) ->
  forall (messages : list Message) (st : Seen),
    P st -> P (fold_left (reconcile_message add_ok cardId) messages st).
Proof.
  intros Ha He Hu.
  assert (Hfold : forall (A : Type) (f : Seen -> A -> Seen),
             (forall st a, P st -> P (f st a)) ->
             forall (l : list A) (st : Seen), P st -> P (fold_left f l st)).
  { intros A f Hf l. induction l as [| a l IH]; intros st Hst;
      [assumption |].
    cbn. apply IH. now apply Hf. }
  apply Hfold. intros st message Hst. unfold reconcile_message.
  apply Hfold; [assumption |]. apply Hfold; [assumption |].
  now apply Hfold.
Qed.

Lemma seed_issued (existing : list RemoteAttachment) :
  issued (seed existing) = [].
Proof.
  unfold seed.
  assert (H : forall l st, issued st = [] ->
                issued
                  (fold_left
                     (fun st att =>
                        {| existingUrls :=
                             set_add (set_add (existingUrls st) (remote_url att))
                               (before_first "?" (remote_url att));
                           existingNames :=
                             set_add (existingNames st) (remote_name att);
                           processedUrls := processedUrls st;
                           processedNames := processedNames st;
                           issued := issued st |}) l st) = []).
  { induction l as [| att l IH]; intros st Hst; [assumption |].
    cbn. apply IH. assumption. }
  apply H. reflexivity.
Qed.

Lemma reconcile_adds_only (add_ok : nat -> bool) (cardId : string)
  (existing : list RemoteAttachment) (messages : list Message) :
  Forall is_add (reconcile add_ok cardId existing messages).
Proof.
  unfold reconcile.
  apply (reconcile_message_preserves (fun st => Forall is_add (issued st))).
  - intros st a H. unfold reconcile_attachment.
    destruct (_ && _); [| assumption].
    rewrite add_named_issued. apply Forall_app. split; [assumption |].
    repeat constructor.
  - intros st e H. unfold reconcile_embed.
    destruct (embed_candidate e) as [[u n] |]; [| assumption].
    destruct (_ && _); [| assumption].
    rewrite add_named_issued. apply Forall_app. split; [assumption |].
    repeat constructor.
  - intros st u H. unfold reconcile_url.
    destruct (negb _); [| assumption].
    rewrite add_link_issued. apply Forall_app. split; [assumption |].
    repeat constructor.
  - rewrite seed_issued. constructor.
Qed.

(** ** Aggregation *)

Lemma updateCardWithAllMessages_descriptions (loc : Locale) (thread : Thread)
  (cardId : string) (r : SyncResponses) :
  descriptions (updateCardWithAllMessages loc thread cardId r)
  = match sync_pages r with
    | Some pages =>
        [description_of loc thread (fetchAllThreadMessages pages)]
    | None => []
    end.
Proof.
  unfold updateCardWithAllMessages.
  destruct (sync_pages r) as [pages |]; [| reflexivity].
  destruct (sync_update_ok r); cbn; [| reflexivity].
  f_equal. destruct (sync_existing r) as [existing |]; [| reflexivity].
  apply descriptions_adds, reconcile_adds_only.
Qed.

(** C8.  Two synchronisations of a thread whose metadata and fetched
    message pages are the same write the same description, byte for byte,
    whatever the card, the state of its attachments and the outcome of the
    other calls: the description is rebuilt from the thread alone and
    replaces the card's description wholesale. *)
Theorem aggregation_idempotent (loc : Locale) (thread : Thread)
  (cardId cardId' : string) (r r' : SyncResponses) :
  sync_pages r = sync_pages r' ->
  descriptions (updateCardWithAllMessages loc thread cardId r)
  = descriptions (updateCardWithAllMessages loc thread cardId' r').
Proof.
  intros Hpages. rewrite !updateCardWithAllMessages_descriptions.
  now rewrite Hpages.
Qed.

Definition sample_pages : list (list Message) :=
  [[text_message "m2" "bob" "fixed!" 2000;
    text_message "m1" "ana" "It crashes" 1000]].

Definition sample_sync (existing : list RemoteAttachment) : SyncResponses :=
  {| sync_pages := Some sample_pages;
     sync_update_ok := true;
     sync_existing := Some existing;
     sync_add_ok := fun _ => true |}.

Lemma aggregation_idempotent_witness :
  sync_pages (sample_sync []) =
  sync_pages (sample_sync [{| remote_url := "https://x/y";
                              remote_name := "y" |}])
  /\ descriptions
       (updateCardWithAllMessages sample_locale sample_thread "c1"
          (sample_sync []))
     = descriptions
         (updateCardWithAllMessages sample_locale sample_thread "c1"
            (sample_sync [{| remote_url := "https://x/y";
                             remote_name := "y" |}])).
Proof.
  split; [reflexivity |].
  apply (aggregation_idempotent sample_locale sample_thread "c1" "c1"
           (sample_sync [])
           (sample_sync [{| remote_url := "https://x/y";
                            remote_name := "y" |}])).
  reflexivity.
Defined.

(** ** Reconciliation *)

(** The normalised base of a URL: the query string stripped. *)
Definition base (url : string) : string := before_first "?" url.

Definition bases (urls : list string) : list string := map base urls.

Definition named (name : string) : bool :=
  negb (String.eqb name "Shared Link").

Lemma added_app (l1 l2 : list Call) :
  added (l1 ++ l2) = (added l1 ++ added l2)%list.
Proof. apply flat_map_app. Qed.

Lemma set_has_add_mono (s : list string) (x y : string) :
  set_has s y = true -> set_has (set_add s x) y = true.
Proof. intros H. apply set_has_add. now left. Qed.

Lemma set_has_add_same (s : list string) (x : string) :
  set_has (set_add s x) x = true.
Proof. apply set_has_add. now right. Qed.

(** What holds of the state of a pass over a card whose attachments were
    [existing] when the pass began. *)
Record Pass_inv (existing : list RemoteAttachment) (st : Seen) : Prop := {
  pi_existing_urls :
    forall att, In att existing ->
                set_has (existingUrls st) (base (remote_url att)) = true;
  pi_existing_names :
    forall att, In att existing ->
                set_has (existingNames st) (remote_name att) = true;
  pi_added_urls :
    forall u n, In (u, n) (added (issued st)) ->
                set_has (existingUrls st) (base u) = true;
  pi_added_names :
    forall u n, In (u, n) (added (issued st)) -> named n = true ->
                set_has (existingNames st) n = true;
  pi_bases_once : NoDup (bases (map fst (added (issued st))));
  pi_bases_new :
    forall u n, In (u, n) (added (issued st)) ->
                ~ In (base u) (bases (map remote_url existing));
  pi_names_once : NoDup (filter named (map snd (added (issued st))));
  pi_names_new :
    forall u n, In (u, n) (added (issued st)) -> named n = true ->
                ~ In n (map remote_name existing)
}.

Lemma NoDup_snoc {A : Type} (l : list A) (x : A) :
  NoDup l -> ~ In x l -> NoDup (l ++ [x]).
Proof.
  intros Hl Hx. apply NoDup_app; [assumption | repeat constructor; intros [] |].
  intros y Hy [<- | []]. contradiction.
Qed.

(** A resolved [addAttachment] whose URL passed the duplicate test; the
    name is recorded when [record] is set, and had to pass the name test
    then. *)
Lemma Pass_inv_added (existing : list RemoteAttachment) (st : Seen)
  (cardId url name : string) (record : bool) :
  Pass_inv existing st ->
  isDuplicateUrl st url (base url) = false ->
  (if record then isDuplicateName st name = false
   else name = "Shared Link") ->
  Pass_inv existing
    {| existingUrls := set_add (set_add (existingUrls st) url) (base url);
       existingNames :=
         if record then set_add (existingNames st) name
         else existingNames st;
       processedUrls := set_add (set_add (processedUrls st) url) (base url);
       processedNames :=
         if record then set_add (processedNames st) name
         else processedNames st;
       issued := (issued st ++ [AddAttachment cardId url name true])%list |}.
Proof.
  intros [H1 H2 H3 H4 H5 H6 H7 H8] Hurl Hname.
  unfold isDuplicateUrl in Hurl. rewrite !orb_false_iff in Hurl.
  destruct Hurl as [[[_ Hbase] _] _].
  assert (Hin : forall u n,
             In (u, n) (added (issued st ++ [AddAttachment cardId url name true]))
             <-> In (u, n) (added (issued st)) \/ (u = url /\ n = name)).
  { intros u n. rewrite added_app, in_app_iff. cbn.
    intuition congruence. }
  assert (Hnames_mono : forall x,
             set_has (existingNames st) x = true ->
             set_has (if record then set_add (existingNames st) name
                      else existingNames st) x = true).
  { intros x Hx. destruct record; [now apply set_has_add_mono | assumption]. }
  constructor; cbn [existingUrls existingNames issued].
  - intros att Hatt. now do 2 apply set_has_add_mono; apply H1.
  - intros att Hatt. apply Hnames_mono. now apply H2.
  - intros u n Hun. apply Hin in Hun. destruct Hun as [Hun | [-> ->]].
    + do 2 apply set_has_add_mono. eapply H3. eassumption.
    + apply set_has_add_same.
  - intros u n Hun Hn. apply Hin in Hun. destruct Hun as [Hun | [-> ->]].
    + apply Hnames_mono. eapply H4; eassumption.
    + destruct record; [apply set_has_add_same |].
      subst name. discriminate.
  - rewrite added_app, map_app. unfold bases. rewrite map_app. cbn.
    apply NoDup_snoc; [exact H5 |].
    intros Hdup. apply in_map_iff in Hdup.
    destruct Hdup as (u & Hu & Hdup). apply in_map_iff in Hdup.
    destruct Hdup as ([u' n'] & Heq & Hdup). cbn in Heq. subst u'.
    specialize (H3 u n' Hdup). unfold base in *. congruence.
  - intros u n Hun. apply Hin in Hun. destruct Hun as [Hun | [-> ->]].
    + eapply H6. eassumption.
    + intros Hdup. unfold bases in Hdup. rewrite map_map in Hdup.
      apply in_map_iff in Hdup. destruct Hdup as (att & Heq & Hatt).
      specialize (H1 att Hatt). unfold base in *. congruence.
  - rewrite added_app, map_app, filter_app. cbn.
    destruct (named name) eqn:Hnamed; [| now rewrite app_nil_r].
    apply NoDup_snoc; [exact H7 |].
    intros Hdup. apply filter_In in Hdup. destruct Hdup as [Hdup _].
    apply in_map_iff in Hdup. destruct Hdup as ([u' n'] & Heq & Hdup).
    cbn in Heq. subst n'. specialize (H4 u' name Hdup Hnamed).
    destruct record.
    + unfold isDuplicateName in Hname. rewrite orb_false_iff in Hname.
      destruct Hname as [Hname _]. congruence.
    + subst name. discriminate.
  - intros u n Hun Hn. apply Hin in Hun. destruct Hun as [Hun | [-> ->]].
    + eapply H8; eassumption.
    + intros Hdup. apply in_map_iff in Hdup.
      destruct Hdup as (att & Heq & Hatt). specialize (H2 att Hatt).
      destruct record.
      * unfold isDuplicateName in Hname. rewrite orb_false_iff in Hname.
        destruct Hname as [Hname _]. congruence.
      * subst name. discriminate.
Qed.

(** A rejected [addAttachment] changes nothing but the list of calls. *)
Lemma Pass_inv_rejected (existing : list RemoteAttachment) (st : Seen)
  (cardId url name : string) :
  Pass_inv existing st ->
  Pass_inv existing
    {| existingUrls := existingUrls st;
       existingNames := existingNames st;
       processedUrls := processedUrls st;
       processedNames := processedNames st;
       issued := (issued st ++ [AddAttachment cardId url name false])%list |}.
Proof.
  intros [H1 H2 H3 H4 H5 H6 H7 H8].
  assert (Hadded : added (issued st ++ [AddAttachment cardId url name false])
                   = added (issued st)).
  { rewrite added_app. cbn. apply app_nil_r. }
  constructor; cbn [existingUrls existingNames issued]; rewrite ?Hadded;
    assumption.
Qed.

Lemma seed_has (existing : list RemoteAttachment) (att : RemoteAttachment) :
  In att existing ->
  set_has (existingUrls (seed existing)) (base (remote_url att)) = true
  /\ set_has (existingNames (seed existing)) (remote_name att) = true.
Proof.
  unfold seed.
  set (f := fun (st : Seen) (att : RemoteAttachment) =>
              {| existingUrls :=
                   set_add (set_add (existingUrls st) (remote_url att))
                     (before_first "?" (remote_url att));
                 existingNames := set_add (existingNames st) (remote_name att);
                 processedUrls := processedUrls st;
                 processedNames := processedNames st;
                 issued := issued st |}).
  assert (Hmono : forall l st x,
             (set_has (existingUrls st) x = true ->
              set_has (existingUrls (fold_left f l st)) x = true)
             /\ (set_has (existingNames st) x = true ->
                 set_has (existingNames (fold_left f l st)) x = true)).
  { induction l as [| a l IH]; intros st x; [tauto |].
    cbn [fold_left]. destruct (IH (f st a) x) as [IHu IHn]. split; intros H.
    - apply IHu. cbn. now do 2 apply set_has_add_mono.
    - apply IHn. cbn. now apply set_has_add_mono. }
  generalize {| existingUrls := []; existingNames := []; processedUrls := [];
                processedNames := []; issued := [] |}.
  induction existing as [| a l IH]; intros st Hin; [destruct Hin |].
  cbn [fold_left]. destruct Hin as [-> | Hin]; [| now apply IH].
  destruct (Hmono l (f st att) (base (remote_url att))) as [Hu _].
  destruct (Hmono l (f st att) (remote_name att)) as [_ Hn].
  split; [apply Hu | apply Hn]; cbn; apply set_has_add_same.
Qed.

Lemma Pass_inv_seed (existing : list RemoteAttachment) :
  Pass_inv existing (seed existing).
Proof.
  constructor; rewrite ?seed_issued; cbn; try (intros ? ? []);
    try constructor.
  - intros att Hatt. now apply seed_has.
  - intros att Hatt. now apply seed_has.
Qed.

Lemma Pass_inv_add_named (existing : list RemoteAttachment)
  (add_ok : nat -> bool) (cardId url name : string) (st : Seen) :
  Pass_inv existing st ->
  negb (isDuplicateUrl st url (base url))
  && negb (isDuplicateName st name) = true ->
  Pass_inv existing (add_named add_ok cardId url (base url) name st).
Proof.
  intros Hinv Hnew. apply andb_true_iff in Hnew.
  rewrite !negb_true_iff in Hnew. destruct Hnew as [Hurl Hname].
  unfold add_named. destruct (add_ok _).
  - exact (Pass_inv_added existing st cardId url name true Hinv Hurl Hname).
  - now apply Pass_inv_rejected.
Qed.

Lemma Pass_inv_reconcile (existing : list RemoteAttachment)
  (add_ok : nat -> bool) (cardId : string) (messages : list Message) :
  Pass_inv existing
    (fold_left (reconcile_message add_ok cardId) messages (seed existing)).
Proof.
  apply (reconcile_message_preserves (Pass_inv existing)).
  - intros st a Hinv. unfold reconcile_attachment.
    fold (base (attachment_url a)).
    destruct (_ && _) eqn:Hnew; [| assumption].
    now apply Pass_inv_add_named.
  - intros st e Hinv. unfold reconcile_embed.
    destruct (embed_candidate e) as [[u n] |]; [| assumption].
    fold (base u). destruct (_ && _) eqn:Hnew; [| assumption].
    now apply Pass_inv_add_named.
  - intros st u Hinv. unfold reconcile_url. fold (base u).
    destruct (negb _) eqn:Hnew; [| assumption].
    apply negb_true_iff in Hnew.
    unfold add_link. destruct (add_ok _).
    + exact (Pass_inv_added existing st cardId u "Shared Link" false
               Hinv Hnew eq_refl).
    + now apply Pass_inv_rejected.
  - apply Pass_inv_seed.
Qed.

(** The attachments one synchronisation adds are those of its
    reconciliation, if it gets that far. *)
Lemma updateCardWithAllMessages_added (loc : Locale) (thread : Thread)
  (cardId : string) (r : SyncResponses) :
  added (updateCardWithAllMessages loc thread cardId r) = []
  \/ exists pages existing,
      sync_pages r = Some pages
      /\ sync_existing r = Some existing
      /\ added (updateCardWithAllMessages loc thread cardId r)
         = added (reconcile (sync_add_ok r) cardId existing
                    (fetchAllThreadMessages pages)).
Proof.
  unfold updateCardWithAllMessages.
  destruct (sync_pages r) as [pages |]; [| now left].
  destruct (sync_update_ok r); cbn [negb]; [| now left].
  destruct (sync_existing r) as [existing |]; [| now left].
  right. exists pages, existing. repeat split; reflexivity.
Qed.

(** ** Display names within one pass *)

(** What C6 states of a pass: no display name is added twice. *)
Definition names_added_once (calls : list Call) : Prop :=
  NoDup (map snd (added calls)).

(** A message with two links in its text. *)
Definition two_links : list (list Message) :=
  [[text_message "m1" "ana"
      "see https://a.example/x and https://b.example/y" 1000]].

Definition two_links_sync : SyncResponses :=
  {| sync_pages := Some two_links;
     sync_update_ok := true;
     sync_existing := Some [];
     sync_add_ok := fun _ => true |}.

(** C6, as stated, fails for bare URLs: both links of the message are
    attached, under the same display name. *)
Lemma shared_link_added_twice :
  added (updateCardWithAllMessages sample_locale sample_thread "c1"
           two_links_sync)
  = [("https://a.example/x", "Shared Link");
     ("https://b.example/y", "Shared Link")]
  /\ ~ names_added_once
         (updateCardWithAllMessages sample_locale sample_thread "c1"
            two_links_sync).
Proof.
  assert (H : added (updateCardWithAllMessages sample_locale sample_thread
                       "c1" two_links_sync)
              = [("https://a.example/x", "Shared Link");
                 ("https://b.example/y", "Shared Link")])
    by (vm_compute; reflexivity).
  split; [exact H |].
  unfold names_added_once. rewrite H. cbn. intros Hnd.
  apply NoDup_cons_iff in Hnd. destruct Hnd as [Hnotin _].
  apply Hnotin. now left.
Qed.

(** The attachments one synchronisation adds: no base URL twice, no name
    other than ['Shared Link'] twice, and none the card already had. *)
Lemma updateCardWithAllMessages_adds (loc : Locale) (thread : Thread) (cardId : string)
  (r : SyncResponses) :
  let adds := added (updateCardWithAllMessages loc thread cardId r) in
  NoDup (bases (map fst adds))
  /\ NoDup (filter named (map snd adds))
  /\ forall existing u n,
      sync_existing r = Some existing -> In (u, n) adds ->
      ~ In (base u) (bases (map remote_url existing))
      /\ (named n = true -> ~ In n (map remote_name existing)).
Proof.
  cbn zeta.
  destruct (updateCardWithAllMessages_added loc thread cardId r)
    as [-> | (pages & existing & Hp & He & ->)].
  - cbn. repeat split; try constructor; contradiction.
  - destruct (Pass_inv_reconcile existing (sync_add_ok r) cardId
                (fetchAllThreadMessages pages))
      as [_ _ _ _ H5 H6 H7 H8].
    unfold reconcile. split; [exact H5 |]. split; [exact H7 |].
    intros existing' u n Heq Hin. rewrite He in Heq. injection Heq as <-.
    split; [eapply H6 | eapply H8]; eassumption.
Qed.

(** How each kind of candidate is tested against the working sets. *)
Lemma candidates_tested (add_ok : nat -> bool) (cardId : string) (st : Seen) :
  (forall a : Attachment,
      isDuplicateUrl st (attachment_url a) (base (attachment_url a))
      || isDuplicateName st (attachment_name a) = true ->
      reconcile_attachment add_ok cardId st a = st)
  /\ (forall (e : Embed) (u n : string),
         embed_candidate e = Some (u, n) ->
         isDuplicateUrl st u (base u) || isDuplicateName st n = true ->
         reconcile_embed add_ok cardId st e = st)
  /\ (forall u : string,
         reconcile_url add_ok cardId st u
         = if isDuplicateUrl st u (base u) then st
           else add_link add_ok cardId u (base u) "Shared Link" st).
Proof.
  split; [| split].
  - intros a Hdup. unfold reconcile_attachment. fold (base (attachment_url a)).
    apply orb_true_iff in Hdup. destruct Hdup as [-> | ->];
      [reflexivity | now rewrite andb_false_r].
  - intros e u n Hcand Hdup. unfold reconcile_embed. rewrite Hcand.
    fold (base u). apply orb_true_iff in Hdup. destruct Hdup as [-> | ->];
      [reflexivity | now rewrite andb_false_r].
  - intros u. unfold reconcile_url. fold (base u).
    destruct (isDuplicateUrl st u (base u)); reflexivity.
Qed.

(** C6, amended.  Within one pass a candidate from a Discord attachment or
    an embed is skipped when its URL, its base URL or its display name has
    been seen, and a bare URL from the message text, always named
    ['Shared Link'], is skipped on its URL or base URL only, whatever names
    have been seen.  Hence no base URL is added twice or when the card
    already has it, and no display name other than ['Shared Link'] is added
    twice or when the card already has it. *)
Theorem pass_adds_once (loc : Locale) (thread : Thread) (cardId : string)
  (r : SyncResponses) :
  (forall (st : Seen) (a : Attachment),
      isDuplicateUrl st (attachment_url a) (base (attachment_url a))
      || isDuplicateName st (attachment_name a) = true ->
      reconcile_attachment (sync_add_ok r) cardId st a = st)
  /\ (forall (st : Seen) (e : Embed) (u n : string),
         embed_candidate e = Some (u, n) ->
         isDuplicateUrl st u (base u) || isDuplicateName st n = true ->
         reconcile_embed (sync_add_ok r) cardId st e = st)
  /\ (forall (st : Seen) (u : string),
         reconcile_url (sync_add_ok r) cardId st u
         = if isDuplicateUrl st u (base u) then st
           else add_link (sync_add_ok r) cardId u (base u) "Shared Link" st)
  /\ let adds := added (updateCardWithAllMessages loc thread cardId r) in
     NoDup (bases (map fst adds))
     /\ NoDup (filter named (map snd adds))
     /\ forall existing u n,
         sync_existing r = Some existing -> In (u, n) adds ->
         ~ In (base u) (bases (map remote_url existing))
         /\ (named n = true -> ~ In n (map remote_name existing)).
Proof.
  split; [intros st; apply candidates_tested |].
  split; [intros st; apply candidates_tested |].
  split; [intros st; apply candidates_tested |].
  apply updateCardWithAllMessages_adds.
Qed.

(** ** Base URLs across passes *)

(** What may go wrong in one pass. *)
Record Faults : Type := {
  fetch_rejects : bool;
  update_rejects : bool;
  search_rejects : bool;
  add_resolves : nat -> bool
}.

(** The responses a pass meets over the fixed message pages, when the card
    holds the attachments [remote]. *)
Definition responses_of (pages : list (list Message))
  (remote : list RemoteAttachment) (f : Faults) : SyncResponses :=
  {| sync_pages := if fetch_rejects f then None else Some pages;
     sync_update_ok := negb (update_rejects f);
     sync_existing := if search_rejects f then None else Some remote;
     sync_add_ok := add_resolves f |}.

(** The card's attachment list after the calls of a pass: every resolved
    add is on it. *)
Definition remote_after (remote : list RemoteAttachment) (calls : list Call)
  : list RemoteAttachment :=
  (remote
   ++ map (fun un => {| remote_url := fst un; remote_name := snd un |})
        (added calls))%list.

(** A sequence of passes over the same messages, one per element of [fs];
    the calls of all of them, oldest first. *)
Fixpoint passes (loc : Locale) (thread : Thread) (cardId : string)
  (pages : list (list Message)) (fs : list Faults)
  (remote : list RemoteAttachment) : list Call :=
  match fs with
  | [] => []
  | f :: fs' =>
      let calls :=
        updateCardWithAllMessages loc thread cardId
          (responses_of pages remote f) in
      (calls
       ++ passes loc thread cardId pages fs' (remote_after remote calls))%list
  end.

(** What C7 states of the passes: no base URL is the subject of two
    [addAttachment] calls. *)
Definition bases_attempted_once (calls : list Call) : Prop :=
  NoDup (bases (attempted calls)).

Definition picture_pages : list (list Message) :=
  [[{| message_id := "m1"; author_bot := false; author_username := "ana";
       content := "";
       attachments :=
         [{| attachment_url := "https://cdn.example.com/a.png?ex=1";
             attachment_name := "a.png";
             attachment_contentType := JStr "image/png" |}];
       embeds := [];
       message_createdTimestamp := 1000 |}]].

Definition no_fault (ok : bool) : Faults :=
  {| fetch_rejects := false; update_rejects := false;
     search_rejects := false; add_resolves := fun _ => ok |}.

(** C7, as stated, fails when a call is rejected: the attachment is not
    recorded, and the next pass issues the call again. *)
Lemma rejected_add_is_reissued :
  attempted
    (passes sample_locale sample_thread "c1" picture_pages
       [no_fault false; no_fault true] [])
  = ["https://cdn.example.com/a.png?ex=1";
     "https://cdn.example.com/a.png?ex=1"]
  /\ ~ bases_attempted_once
         (passes sample_locale sample_thread "c1" picture_pages
            [no_fault false; no_fault true] []).
Proof.
  assert (H : attempted
                (passes sample_locale sample_thread "c1" picture_pages
                   [no_fault false; no_fault true] [])
              = ["https://cdn.example.com/a.png?ex=1";
                 "https://cdn.example.com/a.png?ex=1"])
    by (vm_compute; reflexivity).
  split; [exact H |].
  unfold bases_attempted_once. rewrite H. cbn. intros Hnd.
  apply NoDup_cons_iff in Hnd. destruct Hnd as [Hnotin _].
  apply Hnotin. now left.
Qed.

Lemma bases_remote_after (remote : list RemoteAttachment)
  (calls : list Call) :
  bases (map remote_url (remote_after remote calls))
  = (bases (map remote_url remote) ++ bases (map fst (added calls)))%list.
Proof.
  unfold remote_after, bases. rewrite !map_app, !map_map. reflexivity.
Qed.

Lemma passes_added (loc : Locale) (thread : Thread) (cardId : string)
  (pages : list (list Message)) (fs : list Faults) :
  forall remote : list RemoteAttachment,
    let adds := added (passes loc thread cardId pages fs remote) in
    NoDup (bases (map fst adds))
    /\ forall b, In b (bases (map fst adds)) ->
                 ~ In b (bases (map remote_url remote)).
Proof.
  induction fs as [| f fs IH]; intros remote; cbn zeta.
  - cbn. split; [constructor | intros b []].
  - cbn [passes].
    set (calls := updateCardWithAllMessages loc thread cardId
                    (responses_of pages remote f)).
    destruct (IH (remote_after remote calls)) as [IHnd IHnew].
    rewrite bases_remote_after in IHnew.
    destruct (updateCardWithAllMessages_adds loc thread cardId
                (responses_of pages remote f))
      as (Hnd & _ & Hnew).
    fold calls in Hnd, Hnew.
    assert (Hfresh : forall b, In b (bases (map fst (added calls))) ->
                               ~ In b (bases (map remote_url remote))).
    { intros b Hb. unfold bases in Hb. rewrite map_map in Hb.
      apply in_map_iff in Hb. destruct Hb as ([u n] & <- & Hun).
      destruct (search_rejects f) eqn:Hs.
      - exfalso. revert Hun. subst calls.
        unfold updateCardWithAllMessages, responses_of.
        cbn [sync_pages sync_update_ok sync_existing]. rewrite Hs.
        destruct (fetch_rejects f); [intros [] |].
        destruct (negb (negb (update_rejects f))); intros [].
      - apply (Hnew remote u n); [| exact Hun].
        unfold responses_of. cbn. now rewrite Hs. }
    rewrite added_app, map_app. unfold bases at 1 2. rewrite map_app.
    split.
    + apply NoDup_app; [exact Hnd | exact IHnd |].
      intros b Hb Hb'. apply (IHnew b Hb'). apply in_or_app. now right.
    + intros b Hb. apply in_app_or in Hb. destruct Hb as [Hb | Hb].
      * now apply Hfresh.
      * intros Hr. apply (IHnew b Hb). apply in_or_app. now left.
Qed.

(** Every [addAttachment] call of the list resolved. *)
Definition all_resolved (calls : list Call) : Prop :=
  Forall (fun call =>
            match call with
            | AddAttachment _ _ _ ok => ok = true
            | _ => True
            end) calls.

Lemma attempted_resolved (calls : list Call) :
  all_resolved calls -> attempted calls = map fst (added calls).
Proof.
  induction 1 as [| call calls Hc _ IH]; [reflexivity |].
  unfold attempted, added in *. cbn [flat_map].
  destruct call as [| | cardId url name ok]; cbn [app]; try exact IH.
  subst ok. cbn. f_equal. exact IH.
Qed.

Lemma reconcile_resolved (add_ok : nat -> bool) (cardId : string)
  (existing : list RemoteAttachment) (messages : list Message) :
  (forall n, add_ok n = true) ->
  all_resolved (reconcile add_ok cardId existing messages).
Proof.
  intros Hok. unfold reconcile.
  apply (reconcile_message_preserves (fun st => all_resolved (issued st))).
  - intros st a H. unfold reconcile_attachment.
    destruct (_ && _); [| assumption].
    rewrite add_named_issued. apply Forall_app. split; [assumption |].
    repeat constructor. apply Hok.
  - intros st e H. unfold reconcile_embed.
    destruct (embed_candidate e) as [[u n] |]; [| assumption].
    destruct (_ && _); [| assumption].
    rewrite add_named_issued. apply Forall_app. split; [assumption |].
    repeat constructor. apply Hok.
  - intros st u H. unfold reconcile_url.
    destruct (negb _); [| assumption].
    rewrite add_link_issued. apply Forall_app. split; [assumption |].
    repeat constructor. apply Hok.
  - rewrite seed_issued. constructor.
Qed.

Lemma passes_resolved (loc : Locale) (thread : Thread) (cardId : string)
  (pages : list (list Message)) (fs : list Faults) :
  (forall f, In f fs -> forall n, add_resolves f n = true) ->
  forall remote : list RemoteAttachment,
    all_resolved (passes loc thread cardId pages fs remote).
Proof.
  induction fs as [| f fs IH]; intros Hok remote; [constructor |].
  cbn [passes]. apply Forall_app. split.
  - unfold updateCardWithAllMessages, responses_of.
    cbn [sync_pages sync_update_ok sync_existing sync_add_ok].
    destruct (fetch_rejects f); [constructor |].
    destruct (negb (negb (update_rejects f))); [repeat constructor |].
    constructor; [exact I |].
    destruct (search_rejects f); [constructor |].
    apply reconcile_resolved. apply Hok. now left.
  - apply IH. intros f' Hf'. apply Hok. now right.
Qed.

(** C7, amended.  Over any sequence of passes on a fixed message set, with
    the card's attachment list holding every attachment added so far, at
    most one [addAttachment] call resolves for any base URL, and none for a
    base URL the card had at the outset.  A rejected call records nothing
    and is issued again by a later pass; when no call is rejected, at most
    one call is issued for any base URL. *)
Theorem base_url_added_once (loc : Locale) (thread : Thread)
  (cardId : string) (pages : list (list Message)) (fs : list Faults)
  (remote : list RemoteAttachment) :
  let calls := passes loc thread cardId pages fs remote in
  NoDup (bases (map fst (added calls)))
  /\ (forall b, In b (bases (map fst (added calls))) ->
                ~ In b (bases (map remote_url remote)))
  /\ ((forall f, In f fs -> forall n, add_resolves f n = true) ->
      bases_attempted_once calls).
Proof.
  cbn zeta. destruct (passes_added loc thread cardId pages fs remote)
    as [Hnd Hnew].
  split; [exact Hnd |]. split; [exact Hnew |].
  intros Hok. unfold bases_attempted_once.
  rewrite (attempted_resolved _ (passes_resolved _ _ _ _ _ Hok remote)).
  exact Hnd.
Qed.

(** ** The identity registry *)

(** One step of the registry on behalf of thread [threadId]: nothing
    changes, or the thread, which had no card, is bound to one, in both
    directions at once. *)
Definition Step (threadId : string) (bot bot' : Bot) : Prop :=
  (threadCardMap bot' = threadCardMap bot
   /\ cardThreadMap bot' = cardThreadMap bot)
  \/ exists cardId,
      map_get (threadCardMap bot) threadId = None
      /\ threadCardMap bot' = map_set (threadCardMap bot) threadId cardId
      /\ cardThreadMap bot' = map_set (cardThreadMap bot) cardId threadId.

(** Every binding of [bot] is a binding of [bot']. *)
Definition extends (bot bot' : Bot) : Prop :=
  forall threadId cardId,
    map_get (threadCardMap bot) threadId = Some cardId ->
    map_get (threadCardMap bot') threadId = Some cardId.

(** The reverse entry of a card points to a thread bound to that card. *)
Definition mirrored (bot : Bot) : Prop :=
  forall cardId threadId,
    map_get (cardThreadMap bot) cardId = Some threadId ->
    map_get (threadCardMap bot) threadId = Some cardId.

Lemma extends_refl (bot : Bot) : extends bot bot.
Proof. intros t c H. exact H. Qed.

Lemma extends_trans (b1 b2 b3 : Bot) :
  extends b1 b2 -> extends b2 b3 -> extends b1 b3.
Proof. intros H12 H23 t c H. apply H23, H12, H. Qed.

Lemma Step_extends (threadId : string) (bot bot' : Bot) :
  Step threadId bot bot' -> extends bot bot'.
Proof.
  intros [[Ht _] | (c0 & Hnone & Ht & _)] t c H; rewrite Ht.
  - exact H.
  - rewrite map_get_set. destruct (String.eqb_spec t threadId) as [-> | _];
      [congruence | exact H].
Qed.

Lemma Step_mirrored (threadId : string) (bot bot' : Bot) :
  Step threadId bot bot' -> mirrored bot -> mirrored bot'.
Proof.
  intros [[Ht Hc] | (c0 & Hnone & Ht & Hc)] Hm c t; rewrite Ht, Hc.
  - apply Hm.
  - rewrite !map_get_set.
    destruct (String.eqb_spec c c0) as [-> | Hne].
    + intros H. injection H as <-. now rewrite String.eqb_refl.
    + intros H. apply Hm in H.
      destruct (String.eqb_spec t threadId) as [-> | _];
        [congruence | exact H].
Qed.

(** A step binds no thread but its own. *)
Lemma Step_bound (threadId : string) (bot bot' : Bot) (t c : string) :
  Step threadId bot bot' ->
  map_get (threadCardMap bot') t = Some c ->
  t = threadId \/ map_get (threadCardMap bot) t = Some c.
Proof.
  intros [[Ht _] | (c0 & _ & Ht & _)]; rewrite Ht.
  - now right.
  - rewrite map_get_set. destruct (String.eqb_spec t threadId);
      [now left | now right].
Qed.

Lemma Step_same (threadId : string) (bot : Bot) : Step threadId bot bot.
Proof. left. now split. Qed.

Lemma Step_bind (bot : Bot) (threadId cardId : string) :
  map_get (threadCardMap bot) threadId = None ->
  Step threadId bot (bind bot threadId cardId).
Proof. intros H. right. exists cardId. now repeat split. Qed.

(** The thread a run is about is unbound: [createNewThreadCard] binds it or
    leaves the registry alone. *)
Lemma createNewThreadCard_Step (loc : Locale) (thread : Thread)
  (r : Responses) (bot : Bot) :
  map_get (threadCardMap bot) (thread_id thread) = None ->
  Step (thread_id thread) bot
    (fst (fst (createNewThreadCard loc thread r bot))).
Proof.
  intros Hnone. unfold createNewThreadCard.
  destruct (createTrelloCard loc thread r) as [call [id |]];
    [| apply Step_same].
  destruct (negb (truthy id)); [apply Step_same |].
  now apply Step_bind.
Qed.

Lemma find_or_create_Step (loc : Locale) (thread : Thread) (r : Responses)
  (bot : Bot) :
  map_get (threadCardMap bot) (thread_id thread) = None ->
  Step (thread_id thread) bot (fst (fst (find_or_create loc thread r bot))).
Proof.
  intros Hnone. unfold find_or_create.
  destruct (findExistingCard _ _ _) as [existingCardId |].
  - destruct (negb (String.eqb existingCardId "")).
    + now apply Step_bind.
    + now apply createNewThreadCard_Step.
  - now apply createNewThreadCard_Step.
Qed.

Lemma processExistingThread_Step (loc : Locale) (thread : Thread)
  (r : Responses) (bot : Bot) :
  map_get (threadCardMap bot) (thread_id thread) = None ->
  Step (thread_id thread) bot
    (fst (fst (processExistingThread loc thread r bot))).
Proof.
  intros Hnone. unfold processExistingThread.
  pose proof (find_or_create_Step loc thread r bot Hnone) as H.
  destruct (find_or_create loc thread r bot) as [[bot' calls] outcome].
  exact H.
Qed.

Lemma handleNewThread_Step (loc : Locale) (thread : Thread) (r : Responses)
  (bot : Bot) :
  Step (thread_id thread) bot (fst (fst (handleNewThread loc thread r bot))).
Proof.
  unfold handleNewThread.
  destruct (map_get (threadCardMap bot) (thread_id thread)) as [cardId |]
    eqn:Hget; [apply Step_same |].
  destruct (_ && _); [apply Step_same |].
  set (bot0 := with_processingThreads bot _).
  pose proof (find_or_create_Step loc thread r bot0 Hget) as H.
  destruct (find_or_create loc thread r bot0) as [[bot' calls] outcome].
  exact H.
Qed.

Lemma handleThreadMessage_Step (loc : Locale) (message : Message)
  (channel : Thread) (r : Responses) (bot : Bot) :
  Step (thread_id channel) bot
    (fst (fst (handleThreadMessage loc message channel r bot))).
Proof.
  unfold handleThreadMessage.
  destruct (author_bot message); [apply Step_same |].
  destruct (match map_get (threadCardMap bot) (thread_id channel) with
            | Some cardId => if String.eqb cardId "" then None else Some cardId
            | None => None
            end); [apply Step_same |].
  pose proof (handleNewThread_Step loc channel r bot) as H.
  destruct (handleNewThread loc channel r bot) as [[bot' calls] outcome].
  cbn [fst] in H.
  destruct (match map_get (threadCardMap bot') (thread_id channel) with
            | Some cardId => if String.eqb cardId "" then None else Some cardId
            | None => None
            end); exact H.
Qed.

(** The thread a trigger is about. *)
Definition subject (t : Trigger) : string :=
  match t with
  | ThreadCreate thread _ => thread_id thread
  | MessageCreate _ channel _ => thread_id channel
  | MessageUpdate _ channel _ => thread_id channel
  end.

Lemma handle_Step (loc : Locale) (bot : Bot) (t : Trigger) :
  Step (subject t) bot (fst (fst (handle loc bot t))).
Proof.
  destruct t; cbn [handle subject];
    [apply handleNewThread_Step | apply handleThreadMessage_Step ..].
Qed.

(** ** Runs of the orchestrator *)

(** The registry after the start-up reconciliation of one thread, and after
    one trigger. *)
Definition reconciled (loc : Locale) (bot : Bot) (tr : Thread * Responses)
  : Bot :=
  fst (fst (processExistingThread loc (fst tr) (snd tr) bot)).

Definition handled (loc : Locale) (bot : Bot) (t : Trigger) : Bot :=
  fst (fst (handle loc bot t)).

(** The states a fold goes through after each element. *)
Fixpoint visited {A : Type} (f : Bot -> A -> Bot) (l : list A) (bot : Bot)
  : list Bot :=
  match l with
  | [] => []
  | a :: l' => f bot a :: visited f l' (f bot a)
  end.

(** What the bot does, one thing after the other: it handles a trigger, or
    the ready handler reconciles one of the active threads.  The handlers
    are registered when the bot is constructed and the ready handler awaits
    the threads one by one, so triggers fall before, between and after the
    reconciliations. *)
Inductive Occurrence : Type :=
| Triggered (t : Trigger)
| Reconciled (thread : Thread) (r : Responses).

Definition occurs (loc : Locale) (bot : Bot) (o : Occurrence) : Bot :=
  match o with
  | Triggered t => handled loc bot t
  | Reconciled thread r => reconciled loc bot (thread, r)
  end.

(** The thread an occurrence is about. *)
Definition concerns (o : Occurrence) : string :=
  match o with
  | Triggered t => subject t
  | Reconciled thread _ => thread_id thread
  end.

(** The registry over a run: as constructed, and after each occurrence. *)
Definition course (loc : Locale) (os : list Occurrence) : list Bot :=
  constructor :: visited (occurs loc) os constructor.

Lemma initializeExistingThreads_reconciled (loc : Locale)
  (active : list (Thread * Responses)) (bot : Bot) :
  fst (fst (initializeExistingThreads loc (Some active) bot))
  = fold_left (reconciled loc) active bot.
Proof.
  unfold initializeExistingThreads.
  assert (H : forall l b calls,
             fst (fold_left
                    (fun '(bot, calls) '(thread, r) =>
                       let '(bot, calls', _) :=
                         processExistingThread loc thread r bot in
                       (bot, (calls ++ calls')%list))
                    l (b, calls))
             = fold_left (reconciled loc) l b).
  { induction l as [| [thread r] l IH]; intros b calls; [reflexivity |].
    cbn [fold_left]. unfold reconciled at 2. cbn [fst snd].
    destruct (processExistingThread loc thread r b) as [[b' calls'] o].
    cbn [fst]. apply IH. }
  specialize (H active bot []).
  destruct (fold_left _ active (bot, [])) as [b calls]. exact H.
Qed.

Lemma StronglySorted_related {A : Type} (R : A -> A -> Prop) (l : list A) :
  StronglySorted R l ->
  forall x y, In x l -> In y l -> x = y \/ R x y \/ R y x.
Proof.
  induction 1 as [| a l Hs IH Hall]; intros x y Hx Hy; [destruct Hx |].
  rewrite Forall_forall in Hall.
  destruct Hx as [<- | Hx], Hy as [<- | Hy].
  - now left.
  - right. left. now apply Hall.
  - right. right. now apply Hall.
  - now apply IH.
Qed.

Lemma StronglySorted_app {A : Type} (R : A -> A -> Prop) (l1 l2 : list A) :
  StronglySorted R l1 -> StronglySorted R l2 ->
  (forall x y, In x l1 -> In y l2 -> R x y) ->
  StronglySorted R (l1 ++ l2).
Proof.
  induction 1 as [| a l1 Hs IH Hall]; intros H2 Hcross; [exact H2 |].
  cbn. constructor.
  - apply IH; [exact H2 |]. intros x y Hx Hy. apply Hcross; [now right | exact Hy].
  - apply Forall_app. split; [exact Hall |].
    apply Forall_forall. intros y Hy. apply Hcross; [now left | exact Hy].
Qed.

(** A fold whose every step is a [Step] goes through registries that only
    grow and stay mirrored.  [ok] is what the fold needs of the state and
    of the elements still to come. *)
Lemma visited_steps {A : Type} (f : Bot -> A -> Bot) (key : A -> string)
  (ok : Bot -> list A -> Prop) :
  (forall bot a l, ok bot (a :: l) ->
                   Step (key a) bot (f bot a) /\ ok (f bot a) l) ->
  forall (l : list A) (bot : Bot),
    ok bot l ->
    StronglySorted extends (bot :: visited f l bot)
    /\ Forall (fun b => extends b (fold_left f l bot)) (bot :: visited f l bot)
    /\ (mirrored bot -> Forall mirrored (bot :: visited f l bot))
    /\ (mirrored bot -> mirrored (fold_left f l bot)).
Proof.
  intros Hstep. induction l as [| a l IH]; intros bot Hok.
  - cbn. repeat split.
    + repeat constructor.
    + repeat constructor. apply extends_refl.
    + intros Hm. now repeat constructor.
    + tauto.
  - destruct (Hstep bot a l Hok) as [Hs Hok'].
    destruct (IH (f bot a) Hok') as (IH1 & IH2 & IH3 & IH4).
    pose proof (Step_extends _ _ _ Hs) as Hext.
    pose proof (Step_mirrored _ _ _ Hs) as Hmir.
    cbn [visited fold_left]. repeat split.
    + constructor; [exact IH1 |].
      apply StronglySorted_inv in IH1. destruct IH1 as [_ Hall].
      constructor; [exact Hext |].
      eapply Forall_impl; [| exact Hall].
      intros b Hb. eapply extends_trans; eassumption.
    + constructor; [| exact IH2].
      apply Forall_inv in IH2. eapply extends_trans; eassumption.
    + intros Hm. constructor; [exact Hm |]. apply IH3. now apply Hmir.
    + intros Hm. apply IH4. now apply Hmir.
Qed.

(** What the ready handler needs: the active threads are distinct, and none
    of those still to come is bound. *)
Definition fresh_threads (bot : Bot) (active : list (Thread * Responses))
  : Prop :=
  NoDup (map (fun tr => thread_id (fst tr)) active)
  /\ forall tr, In tr active ->
                map_get (threadCardMap bot) (thread_id (fst tr)) = None.

Lemma reconciled_fresh (loc : Locale) (bot : Bot) (tr : Thread * Responses)
  (active : list (Thread * Responses)) :
  fresh_threads bot (tr :: active) ->
  Step (thread_id (fst tr)) bot (reconciled loc bot tr)
  /\ fresh_threads (reconciled loc bot tr) active.
Proof.
  intros [Hnd Hfree]. cbn in Hnd. apply NoDup_cons_iff in Hnd.
  destruct Hnd as [Hnotin Hnd].
  assert (Hs : Step (thread_id (fst tr)) bot (reconciled loc bot tr)).
  { apply processExistingThread_Step. apply Hfree. now left. }
  split; [exact Hs |]. split; [exact Hnd |].
  intros tr' Hin.
  destruct (map_get (threadCardMap (reconciled loc bot tr))
              (thread_id (fst tr'))) as [c |] eqn:Hget; [| reflexivity].
  destruct (Step_bound _ _ _ _ _ Hs Hget) as [Heq | Hold].
  - exfalso. apply Hnotin. rewrite <- Heq.
    apply (in_map (fun tr => thread_id (fst tr))). exact Hin.
  - rewrite Hfree in Hold; [discriminate | now right].
Qed.

(** Every reconciliation of the run finds its thread without a card. *)
Fixpoint unbound_when_reconciled (loc : Locale) (os : list Occurrence)
  (bot : Bot) : Prop :=
  match os with
  | [] => True
  | o :: os' =>
      match o with
      | Triggered _ => True
      | Reconciled thread _ =>
          map_get (threadCardMap bot) (thread_id thread) = None
      end
      /\ unbound_when_reconciled loc os' (occurs loc bot o)
  end.

Lemma occurs_Step (loc : Locale) (bot : Bot) (o : Occurrence)
  (os : list Occurrence) :
  unbound_when_reconciled loc (o :: os) bot ->
  Step (concerns o) bot (occurs loc bot o)
  /\ unbound_when_reconciled loc os (occurs loc bot o).
Proof.
  intros [Hnow Hlater]. split; [| exact Hlater].
  destruct o as [t | thread r]; cbn [occurs concerns].
  - apply handle_Step.
  - now apply processExistingThread_Step.
Qed.

Lemma course_grows (loc : Locale) (os : list Occurrence) :
  unbound_when_reconciled loc os constructor ->
  StronglySorted extends (course loc os).
Proof.
  intros Hok.
  destruct (visited_steps (occurs loc) concerns
              (fun bot os => unbound_when_reconciled loc os bot)
              (occurs_Step loc) os constructor Hok) as (Hs & _).
  exact Hs.
Qed.

(** [threadId] resolves to [cardId] at some point of the run, and the
    reverse. *)
Definition resolves (bots : list Bot) (threadId cardId : string) : Prop :=
  exists bot, In bot bots
              /\ map_get (threadCardMap bot) threadId = Some cardId.

Definition resolves_back (bots : list Bot) (cardId threadId : string) : Prop :=
  exists bot, In bot bots
              /\ findThreadByCardId bot cardId = Some threadId.

(** What C3 states of a run. *)
Definition mapping_unique (bots : list Bot) : Prop :=
  (forall threadId cardId cardId',
      resolves bots threadId cardId -> resolves bots threadId cardId' ->
      cardId = cardId')
  /\ (forall cardId threadId threadId',
         resolves_back bots cardId threadId ->
         resolves_back bots cardId threadId' ->
         threadId = threadId').

Definition quiet_sync : SyncResponses :=
  {| sync_pages := Some []; sync_update_ok := true;
     sync_existing := Some []; sync_add_ok := fun _ => true |}.

(** The responses a trigger meets when the creator is ["ana"], the board
    holds [cards], and a creation would return the identifier [created]. *)
Definition board (cards : list (string * string)) (created : string)
  : Responses :=
  {| resp_creator :=
       {| lookup_owner := Some "ana"; lookup_starter := Some (Some "ana") |};
     resp_cards := Some cards;
     resp_creator_again :=
       {| lookup_owner := Some "ana"; lookup_starter := Some (Some "ana") |};
     resp_created := Some (JStr created);
     resp_sync := quiet_sync;
     resp_resync := quiet_sync |}.

Definition thread_named (id name : string) : Thread :=
  {| thread_id := id; thread_name := name;
     thread_createdTimestamp := 1000; thread_ownerId := JStr "u1" |}.

(** Two threads of the same name by the same creator. *)
Definition namesakes : list Trigger :=
  [ThreadCreate (thread_named "t1" "Bug 42") (board [] "c1");
   ThreadCreate (thread_named "t2" "Bug 42")
     (board [("c1", "[Discord] Bug 42 - by ana")] "c2")].

(** C3, as stated, fails: the second thread finds the card of the first by
    its name and is bound to it too, and the card, which resolved to ["t1"],
    now resolves to ["t2"]. *)
Lemma namesakes_share_a_card :
  map (fun bot => (threadCardMap bot, cardThreadMap bot))
    (course sample_locale (map Triggered namesakes))
  = [([], []);
     ([("t1", "c1")], [("c1", "t1")]);
     ([("t1", "c1"); ("t2", "c1")], [("c1", "t2")])]
  /\ ~ mapping_unique (course sample_locale (map Triggered namesakes)).
Proof.
  split; [vm_compute; reflexivity |].
  intros [_ Hback].
  assert (H : "t1" = "t2"); [| discriminate H].
  apply (Hback "c1").
  - exists (handled sample_locale constructor
              (ThreadCreate (thread_named "t1" "Bug 42") (board [] "c1"))).
    split; [right; left; reflexivity | vm_compute; reflexivity].
  - exists (fold_left (handled sample_locale) namesakes constructor).
    split; [right; right; left; reflexivity | vm_compute; reflexivity].
Qed.

(** C3, amended.  After any sequence of triggers (thread created, message
    created or edited) and start-up reconciliations of threads that have no
    card yet, in any order and each run to its end before the next: no
    thread ever resolves to two different cards, and at every moment a card
    resolves to at most one thread.  Over time a card does resolve to
    different threads: threads of the same name and creator share a card,
    which resolves to the one bound last.  Nothing is stated of a
    reconciliation that meets a thread already bound. *)
Theorem registry_threads_stable (loc : Locale) (os : list Occurrence) :
  unbound_when_reconciled loc os constructor ->
  (forall threadId cardId cardId',
      resolves (course loc os) threadId cardId ->
      resolves (course loc os) threadId cardId' ->
      cardId = cardId')
  /\ (forall bot cardId threadId threadId',
         In bot (course loc os) ->
         findThreadByCardId bot cardId = Some threadId ->
         findThreadByCardId bot cardId = Some threadId' ->
         threadId = threadId').
Proof.
  intros Hok. pose proof (course_grows loc os Hok) as Hs. split.
  - intros t c c' (b & Hb & Hc) (b' & Hb' & Hc').
    destruct (StronglySorted_related _ _ Hs b b' Hb Hb')
      as [<- | [Hext | Hext]].
    + congruence.
    + apply Hext in Hc. congruence.
    + apply Hext in Hc'. congruence.
  - intros bot c t t' _ Ht Ht'. congruence.
Qed.

(** A message in a thread before the ready handler reaches any thread, the
    reconciliation of another thread, a thread created meanwhile, and the
    reconciliation of a third. *)
Definition interleaved : list Occurrence :=
  [Triggered (MessageCreate (text_message "m1" "ana" "It crashes" 1000)
                (thread_named "t1" "Bug 42") (board [] "c1"));
   Reconciled (thread_named "t0" "Old bug") (board [] "c0");
   Triggered (ThreadCreate (thread_named "t2" "Bug 43") (board [] "c2"));
   Reconciled (thread_named "t3" "Bug 44") (board [] "c3")].

Example interleaved_registry :
  map threadCardMap (course sample_locale interleaved)
  = [[];
     [("t1", "c1")];
     [("t1", "c1"); ("t0", "c0")];
     [("t1", "c1"); ("t0", "c0"); ("t2", "c2")];
     [("t1", "c1"); ("t0", "c0"); ("t2", "c2"); ("t3", "c3")]].
Proof. vm_compute. reflexivity. Qed.

Lemma registry_threads_stable_witness :
  unbound_when_reconciled sample_locale interleaved constructor
  /\ forall threadId cardId cardId',
      resolves (course sample_locale interleaved) threadId cardId ->
      resolves (course sample_locale interleaved) threadId cardId' ->
      cardId = cardId'.
Proof.
  assert (Hok : unbound_when_reconciled sample_locale interleaved constructor)
    by (vm_compute; tauto).
  split; [exact Hok |].
  exact (proj1 (registry_threads_stable sample_locale interleaved Hok)).
Defined.

(** *** A reconciliation that meets a bound thread *)

(** A message binds thread [t1] to the card created for it; the ready
    handler then reaches [t1], its search for the card finds nothing, and
    it creates a second card. *)
Definition reconciled_late : list Occurrence :=
  [Triggered (MessageCreate (text_message "m1" "ana" "It crashes" 1000)
                (thread_named "t1" "Bug 42") (board [] "c1"));
   Reconciled (thread_named "t1" "Bug 42") (board [] "c2")].

(** [processExistingThread] has neither the test of the registry nor the
    guard with which [handleNewThread] begins: it binds the thread it is
    given whether or not the thread has a card, here to a second one,
    leaving the first card's reverse entry behind. *)
Example reconciliation_rebinds :
  map (fun bot => (threadCardMap bot, cardThreadMap bot))
    (course sample_locale reconciled_late)
  = [([], []);
     ([("t1", "c1")], [("c1", "t1")]);
     ([("t1", "c2")], [("c1", "t1"); ("c2", "t1")])].
Proof. vm_compute. reflexivity. Qed.

(** ** Failures of the search and of the creation *)

(** What C5 states of a trigger on an unbound thread whose card search or
    card creation fails: the failure reaches the caller, no synchronisation
    is run, and the thread stays unbound. *)
Definition aborted_unpublished (thread : Thread)
  (result : Bot * list Call * Outcome) : Prop :=
  let '(bot', calls, outcome) := result in
  outcome = Threw
  /\ descriptions calls = []
  /\ map_get (threadCardMap bot') (thread_id thread) = None.

(** [r] with the answer of [searchCards] replaced. *)
Definition searching (r : Responses) (cards : option (list (string * string)))
  : Responses :=
  {| resp_creator := resp_creator r;
     resp_cards := cards;
     resp_creator_again := resp_creator_again r;
     resp_created := resp_created r;
     resp_sync := resp_sync r;
     resp_resync := resp_resync r |}.

(** C5, as stated, fails for a failing search: the rejection is absorbed as
    "no card found", a card is created, bound and synchronised, and the
    handler returns. *)
Lemma failed_search_creates_card :
  resp_cards (searching (board [] "c9") None) = None
  /\ (let '(bot', calls, outcome) :=
        handleNewThread sample_locale (thread_named "t1" "Bug 42")
          (searching (board [] "c9") None) constructor in
      outcome = Returned
      /\ threadCardMap bot' = [("t1", "c9")]
      /\ List.length (descriptions calls) = 1%nat)
  /\ ~ aborted_unpublished (thread_named "t1" "Bug 42")
         (handleNewThread sample_locale (thread_named "t1" "Bug 42")
            (searching (board [] "c9") None) constructor).
Proof.
  split; [reflexivity |]. split; [vm_compute; repeat split; reflexivity |].
  unfold aborted_unpublished.
  destruct (handleNewThread sample_locale (thread_named "t1" "Bug 42")
              (searching (board [] "c9") None) constructor)
    as [[bot' calls] outcome] eqn:H.
  vm_compute in H. injection H as <- <- <-.
  intros (Hthrew & _). discriminate.
Qed.

(** The search found a card to use. *)
Definition card_found (thread : Thread) (r : Responses) : bool :=
  match findExistingCard (thread_name thread)
          (getThreadCreator thread (resp_creator r)) (resp_cards r) with
  | Some existingCardId => negb (String.eqb existingCardId "")
  | None => false
  end.

(** The creation rejects, or returns no identifier. *)
Definition creation_fails (r : Responses) : Prop :=
  match resp_created r with
  | None => True
  | Some id => truthy id = false
  end.

Lemma handleNewThread_returns (loc : Locale) (thread : Thread)
  (r : Responses) (bot : Bot) :
  snd (handleNewThread loc thread r bot) = Returned.
Proof.
  unfold handleNewThread.
  destruct (map_get _ _); [reflexivity |].
  destruct (_ && _); [reflexivity |].
  destruct (find_or_create _ _ _ _) as [[bot' calls] outcome]. reflexivity.
Qed.

Lemma createNewThreadCard_fails (loc : Locale) (thread : Thread)
  (r : Responses) (bot : Bot) :
  creation_fails r ->
  exists name desc ok,
    createNewThreadCard loc thread r bot
    = (bot, [CardCreate name desc ok], Threw).
Proof.
  unfold creation_fails, createNewThreadCard, createTrelloCard.
  destruct (resp_created r) as [id |]; intros Hfail.
  - rewrite Hfail. cbn [negb]. now eexists _, _, _.
  - now eexists _, _, _.
Qed.

(** C5, amended.  For a trigger on an unbound thread the handler always
    returns: failures are caught and logged, never passed on to its caller.
    A rejected card search is absorbed as "no card found" and the trigger
    goes on to create a card.  A failing creation is thrown by
    [createNewThreadCard] to the handler, which catches it: when no card is
    found and the creation fails, the only call issued is the creation, no
    synchronisation runs and the registry is left as it was, the thread
    unbound. *)
Theorem creation_failure_publishes_nothing (loc : Locale) (thread : Thread)
  (r : Responses) (bot : Bot) :
  map_get (threadCardMap bot) (thread_id thread) = None ->
  snd (handleNewThread loc thread r bot) = Returned
  /\ (resp_cards r = None ->
      card_found thread r = false
      /\ handleNewThread loc thread r bot
         = handleNewThread loc thread (searching r (Some [])) bot)
  /\ (creation_fails r ->
      exists name desc ok,
        createNewThreadCard loc thread r bot
        = (bot, [CardCreate name desc ok], Threw))
  /\ (card_found thread r = false -> creation_fails r ->
      let '(bot', calls, _) := handleNewThread loc thread r bot in
      threadCardMap bot' = threadCardMap bot
      /\ cardThreadMap bot' = cardThreadMap bot
      /\ map_get (threadCardMap bot') (thread_id thread) = None
      /\ descriptions calls = []
      /\ attempted calls = []
      /\ exists name desc ok, calls = [CardCreate name desc ok]).
Proof.
  intros Hnone. split; [apply handleNewThread_returns |]. split; [| split].
  - intros Hsearch. split.
    + unfold card_found. now rewrite Hsearch.
    + unfold handleNewThread, find_or_create, searching.
      cbn [resp_creator resp_cards resp_sync]. rewrite Hsearch.
      reflexivity.
  - apply createNewThreadCard_fails.
  - intros Hfound Hfail. unfold handleNewThread. rewrite Hnone.
    replace (map_has (threadCardMap bot) (thread_id thread)) with false
      by (unfold map_has; now rewrite Hnone).
    rewrite andb_false_r.
    set (bot0 := with_processingThreads bot _).
    assert (Hfc : exists name desc ok,
               find_or_create loc thread r bot0
               = (bot0, [CardCreate name desc ok], Threw)).
    { unfold find_or_create. unfold card_found in Hfound.
      destruct (findExistingCard _ _ _) as [existingCardId |].
      - rewrite Hfound. now apply createNewThreadCard_fails.
      - now apply createNewThreadCard_fails. }
    destruct Hfc as (name & desc & ok & ->).
    cbn. repeat split; try assumption. now exists name, desc, ok.
Qed.

Definition failing_creation : Responses :=
  {| resp_creator :=
       {| lookup_owner := Some "ana"; lookup_starter := Some (Some "ana") |};
     resp_cards := None;
     resp_creator_again :=
       {| lookup_owner := Some "ana"; lookup_starter := Some (Some "ana") |};
     resp_created := None;
     resp_sync := quiet_sync;
     resp_resync := quiet_sync |}.

Lemma creation_failure_publishes_nothing_witness :
  map_get (threadCardMap constructor)
    (thread_id (thread_named "t1" "Bug 42")) = None
  /\ snd (handleNewThread sample_locale (thread_named "t1" "Bug 42")
            failing_creation constructor) = Returned.
Proof.
  assert (Hnone : map_get (threadCardMap constructor)
                    (thread_id (thread_named "t1" "Bug 42")) = None)
    by reflexivity.
  split; [exact Hnone |].
  exact (proj1 (creation_failure_publishes_nothing sample_locale
                  (thread_named "t1" "Bug 42") failing_creation constructor
                  Hnone)).
Defined.

(** ** Two scenarios *)

(** A thread ["Bug 42"] created by ["ana"], holding one post and the reply
    ["fixed!"]: the card is created under the conventional name, the
    description written holds the reply, and no attachment call is made. *)
Example scenario_new_thread :
  let '(bot', calls, _) :=
    handleNewThread sample_locale (thread_named "t1" "Bug 42")
      {| resp_creator :=
           {| lookup_owner := Some "ana"; lookup_starter := None |};
         resp_cards := Some [];
         resp_creator_again :=
           {| lookup_owner := Some "ana"; lookup_starter := None |};
         resp_created := Some (JStr "c1");
         resp_sync := sample_sync [];
         resp_resync := sample_sync [] |}
      constructor in
  threadCardMap bot' = [("t1", "c1")]
  /\ cardThreadMap bot' = [("c1", "t1")]
  /\ match calls with
     | [CardCreate name _ true; CardUpdate "c1" desc true] =>
         name = "[Discord] Bug 42 - by ana" /\ includes desc "fixed!" = true
     | _ => False
     end.
Proof. vm_compute. repeat split; reflexivity. Qed.

(** A message whose body is just a link to a GIF is summarised, and the
    link is attached unless the card already has it. *)
Example scenario_media_link :
  includes
    (formatMessageForCard sample_locale
       (text_message "m1" "bob" "https://cdn.example.com/clip.gif" 2000)
       false)
    "*bob only attached a GIF*" = true
  /\ attempted
       (reconcile (fun _ => true) "c1" []
          [text_message "m1" "bob" "https://cdn.example.com/clip.gif" 2000])
     = ["https://cdn.example.com/clip.gif"]
  /\ attempted
       (reconcile (fun _ => true) "c1"
          [{| remote_url := "https://cdn.example.com/clip.gif";
              remote_name := "clip.gif" |}]
          [text_message "m1" "bob" "https://cdn.example.com/clip.gif" 2000])
     = [].
Proof. vm_compute. repeat split; reflexivity. Qed.

End BotFacts.

(** * Further properties of the change poller *)

Module PollerLaws.
Import JSFacts TrelloPoller PollerFacts.

(** ** The content hash *)







Definition is_ascii (c : ascii) : bool := byte_of c <? 0x80.

Fixpoint all_ascii (s : string) : bool :=
  match s with
  | EmptyString => true
  | String c rest => is_ascii c && all_ascii rest
  end.

(** Plain text has one code unit per byte. *)
Lemma charCodes_ascii (s : string) :
  all_ascii s = true -> charCodes s = map byte_of (list_ascii_of_string s).
Proof.
  induction s as [| c rest IH]; [reflexivity |].
  cbn [all_ascii]. intros H. apply andb_true_iff in H. destruct H as [Hc Hr].
  unfold is_ascii in Hc. apply Z.ltb_lt in Hc.
  cbn [charCodes list_ascii_of_string map].
  destruct (Z.ltb_spec (byte_of c) 192) as [_ | Hge]; [| lia].
  now rewrite (IH Hr).
Qed.

(** The speech balloon of the comment notification, beyond the basic
    plane, is read as its two surrogates; the hash of the notification is
    the number the loop gives over those code units. *)
Example charCodes_comment_title :
  charCodes "💬 New" = [0xD83D; 0xDCAC; 32; 78; 101; 119]
  /\ simpleHash "💬 New Comment:A new comment was added to the card"
     = "950068929".
Proof. split; vm_compute; reflexivity. Qed.



(** ** Where a notification goes, and which actions are marked *)

(** A delivery made on behalf of its action: the card is the one the action
    names, the thread is the one the registry binds to that card, the embed
    is the rendering of the action, and the send resolved. *)
Definition routed (env : Env) (tk : Tick) (d : Delivery) : Prop :=
  chain (data_of (delivery_action d) data_card) card_id
  = JStr (delivery_card d)
  /\ map_get (tick_cardThreadMap tk) (delivery_card d)
     = Some (delivery_thread d)
  /\ delivery_thread d <> ""
  /\ formatNotificationEmbed env (delivery_action d) = Some (delivery_embed d)
  /\ tick_send_ok tk (delivery_action d) = true.

Lemma processAction_thread_not_empty (env : Env) (tk : Tick) (w w' : World)
  (a : Action) (cardId threadId : string) :
  processAction env tk w a = (true, w') ->
  chain (data_of a data_card) card_id = JStr cardId ->
  map_get (tick_cardThreadMap tk) cardId = Some threadId ->
  threadId <> "".
Proof.
  unfold processAction. intros H Hc Ht. rewrite Hc, Ht in H.
  destruct (String.eqb cardId ""); [discriminate |].
  destruct (String.eqb_spec threadId ""); [discriminate | assumption].
Qed.

Lemma set_add_cases (s : list string) (x : string) :
  (set_add s x = s /\ In x s) \/ (set_add s x = (s ++ [x])%list /\ ~ In x s).
Proof.
  unfold set_add. destruct (set_has s x) eqn:H.
  - left. split; [reflexivity | now apply set_has_In].
  - right. split; [reflexivity |]. intros Hin. apply set_has_In in Hin.
    congruence.
Qed.

(** The loop over the sorted actions: the notifications it sends and the
    identifiers it appends to the processed set. *)
Lemma loop_trace (env : Env) (tk : Tick) (l : list Action) :
  forall w : World,
  exists (ds : list Delivery) (ids : list string),
    deliveries (fold_left (loop_body env tk) l w)
    = (deliveries w ++ ds)%list
    /\ processedActions (poller (fold_left (loop_body env tk) l w))
       = (processedActions (poller w) ++ ids)%list
    /\ Subsequence (map delivery_action ds) l
    /\ Forall (routed env tk) ds
    /\ (List.length ids <= List.length l)%nat
    /\ forall d, In d ds ->
                 In (action_id (delivery_action d))
                   (processedActions (poller w) ++ ids).
Proof.
  induction l as [| a l IH]; intros w.
  - exists [], []. cbn. rewrite !app_nil_r.
    repeat split; try constructor. intros d [].
  - cbn [fold_left]. unfold loop_body at 2 4.
    destruct (processAction env tk w a) as [[|] w1] eqn:Hp.
    + pose proof (processAction_true _ _ _ _ _ Hp)
        as (cardId & threadId & messages & embed
            & Hcard & Hthread & Hmsgs & Hembed & Hc & Hsend & Hw1).
      pose proof (processAction_thread_not_empty _ _ _ _ _ _ _ Hp Hcard
                    Hthread) as Hne.
      set (w2 := with_poller w1
                   (with_processedActions (poller w1)
                      (set_add (processedActions (poller w1)) (action_id a)))).
      destruct (IH w2) as (ds & ids & Hds & Hids & Hsub & Hall & Hlen & Hin).
      set (d := {| delivery_thread := threadId; delivery_card := cardId;
                   delivery_embed := embed; delivery_action := a |}).
      assert (Hdw2 : deliveries w2 = (deliveries w ++ [d])%list)
        by (subst w2 w1; reflexivity).
      assert (Hpw1 : processedActions (poller w1) = processedActions (poller w))
        by (subst w1; reflexivity).
      assert (Hpw2 : processedActions (poller w2)
                     = set_add (processedActions (poller w)) (action_id a))
        by (subst w2; cbn; now rewrite Hpw1).
      destruct (set_add_cases (processedActions (poller w)) (action_id a))
        as [[Hadd Hold] | [Hadd Hnew]].
      * exists (d :: ds), ids. rewrite Hds, Hids, Hdw2, Hpw2, Hadd.
        rewrite <- app_assoc. cbn [app map List.length].
        repeat split.
        -- now apply Subsequence_take.
        -- constructor; [| assumption]. repeat split; assumption.
        -- lia.
        -- intros d' [<- | Hd']; [apply in_or_app; now left |].
           specialize (Hin d' Hd'). now rewrite Hpw2, Hadd in Hin.
      * exists (d :: ds), (action_id a :: ids).
        rewrite Hds, Hids, Hdw2, Hpw2, Hadd.
        rewrite <- !app_assoc. cbn [app map List.length].
        repeat split.
        -- now apply Subsequence_take.
        -- constructor; [| assumption]. repeat split; assumption.
        -- lia.
        -- intros d' [<- | Hd'].
           ++ apply in_or_app. right. now left.
           ++ specialize (Hin d' Hd').
              rewrite Hpw2, Hadd, <- app_assoc in Hin. exact Hin.
    + apply processAction_false in Hp. subst w1.
      destruct (IH w) as (ds & ids & Hds & Hids & Hsub & Hall & Hlen & Hin).
      exists ds, ids. repeat split; try assumption.
      * now constructor.
      * cbn. lia.
Qed.

Lemma sort_In (x : Action) (l : list Action) : In x (sort l) <-> In x l.
Proof.
  split; intros H.
  - eapply Permutation_in; [apply sort_permutation | exact H].
  - eapply Permutation_in; [apply Permutation_sym, sort_permutation | exact H].
Qed.

Lemma sort_length (l : list Action) : List.length (sort l) = List.length l.
Proof. apply Permutation_length, sort_permutation. Qed.

Lemma cleanupOldData_slices (p : Poller) :
  processedActions (cleanupOldData p) = slice_last 2000 (processedActions p)
  /\ sentNotifications (cleanupOldData p)
     = slice_last 100 (sentNotifications p).
Proof.
  unfold cleanupOldData, slice_last.
  destruct (Nat.ltb_spec 2000 (List.length (processedActions p))) as [H1 | H1];
    cbn [processedActions sentNotifications with_processedActions];
    (destruct (Nat.ltb_spec 100 (List.length (sentNotifications p)))
       as [H2 | H2];
     cbn [processedActions sentNotifications with_sentNotifications
          with_processedActions]);
    split; try reflexivity;
    match goal with
    | |- ?l = skipn (List.length ?l - ?n) ?l =>
        replace (List.length l - n)%nat with 0%nat by lia; reflexivity
    end.
Qed.

Lemma slice_last_length {A : Type} (n : nat) (l : list A) :
  List.length (slice_last n l) = Nat.min n (List.length l).
Proof. unfold slice_last. rewrite length_skipn. lia. Qed.

Lemma slice_last_suffix {A : Type} (n : nat) (l : list A) :
  l = (firstn (List.length l - n) l ++ slice_last n l)%list.
Proof. unfold slice_last. symmetry. apply firstn_skipn. Qed.

(** One tick: the notifications it sends, the identifiers its loop appends
    to the processed set, and what the clean-up leaves of that set. *)
Lemma tick_trace (env : Env) (tk : Tick) (w : World) :
  exists (ds : list Delivery) (ids : list string),
    deliveries (checkForUpdates env tk w) = (deliveries w ++ ds)%list
    /\ Subsequence (map delivery_action ds)
         (sort (filter (unprocessed w) (batch tk)))
    /\ Forall (routed env tk) ds
    /\ (List.length ids <= List.length (filter (unprocessed w) (batch tk)))%nat
    /\ (forall d, In d ds ->
                  In (action_id (delivery_action d))
                    (processedActions (poller w) ++ ids))
    /\ processedActions (poller (checkForUpdates env tk w))
       = match filter (unprocessed w) (batch tk) with
         | [] => processedActions (poller w)
         | _ :: _ => slice_last 2000 (processedActions (poller w) ++ ids)
         end.
Proof.
  unfold checkForUpdates, batch.
  destruct (tick_actions tk) as [actions |].
  - set (w0 := with_poller w (with_consecutiveErrors (poller w) 0)).
    change (fun action : Action =>
              negb (set_has (processedActions (poller w0)) (action_id action)))
      with (unprocessed w).
    destruct (filter (unprocessed w) actions) as [| a l] eqn:Hf.
    + exists [], []. cbn. rewrite app_nil_r.
      repeat split; try apply Subsequence_nil_l; try constructor;
        try (now intros d []).
    + cbn [List.length Nat.eqb].
      destruct (loop_trace env tk (sort (a :: l)) w0)
        as (ds & ids & Hds & Hids & Hsub & Hall & Hlen' & Hin).
      exists ds, ids.
      cbn [deliveries with_poller poller with_lastCheckTime processedActions].
      rewrite sort_length in Hlen'.
      repeat split; try assumption.
      rewrite (proj1 (cleanupOldData_slices _)), Hids. reflexivity.
  - exists [], []. unfold handlePollingError.
    cbn [with_consecutiveErrors consecutiveErrors maxConsecutiveErrors].
    destruct (_ <=? _); cbn; rewrite app_nil_r;
      (repeat split; try apply Subsequence_nil_l; try constructor;
       try (now intros d [])).
Qed.

Lemma new_deliveries_trace (env : Env) (tk : Tick) (w : World)
  (ds : list Delivery) :
  deliveries (checkForUpdates env tk w) = (deliveries w ++ ds)%list ->
  new_deliveries env tk w = ds.
Proof.
  intros H. unfold new_deliveries.
  rewrite H, skipn_app, skipn_all, Nat.sub_diag. reflexivity.
Qed.

(** X2.  Every notification a tick sends goes to the thread the registry
    binds to the card its action names, carries the rendering of that
    action, and is for an action of the retrieved batch whose identifier
    was not in the processed set when the tick began. *)
Theorem tick_deliveries_routed (env : Env) (tk : Tick) (w : World) :
  Forall (fun d =>
            routed env tk d
            /\ In (delivery_action d) (batch tk)
            /\ set_has (processedActions (poller w))
                 (action_id (delivery_action d)) = false)
    (new_deliveries env tk w).
Proof.
  destruct (tick_trace env tk w) as (ds & ids & Hds & Hsub & Hall & _).
  rewrite (new_deliveries_trace _ _ _ _ Hds).
  rewrite Forall_forall in *. intros d Hd. split; [now apply Hall |].
  assert (Hin : In (delivery_action d)
                  (sort (filter (unprocessed w) (batch tk)))).
  { eapply Subsequence_In; [exact Hsub |]. now apply in_map. }
  apply sort_In, filter_In in Hin. destruct Hin as [Hin Hun].
  split; [assumption |]. unfold unprocessed in Hun.
  now apply negb_true_iff in Hun.
Qed.

(** X3.  While the processed set stays within its cap of 2000, a tick
    forgets no identifier and marks every action it notified: the set
    afterwards holds all it held before and the identifier of each
    notification sent. *)
Theorem delivered_actions_marked (env : Env) (tk : Tick) (w : World) :
  (List.length (processedActions (poller w)) + List.length (batch tk)
   <= 2000)%nat ->
  let w' := checkForUpdates env tk w in
  (forall id, set_has (processedActions (poller w)) id = true ->
              set_has (processedActions (poller w')) id = true)
  /\ Forall (fun d =>
               set_has (processedActions (poller w'))
                 (action_id (delivery_action d)) = true)
       (new_deliveries env tk w).
Proof.
  intros Hcap w'. subst w'.
  destruct (tick_trace env tk w)
    as (ds & ids & Hds & _ & _ & Hlen & Hin & Hproc).
  rewrite (new_deliveries_trace _ _ _ _ Hds).
  assert (Hfl : (List.length (filter (unprocessed w) (batch tk))
                 <= List.length (batch tk))%nat) by apply filter_length_le.
  assert (Hsub : forall id,
             In id (processedActions (poller w) ++ ids) ->
             In id (processedActions (poller (checkForUpdates env tk w)))).
  { intros id Hid. rewrite Hproc.
    destruct (filter (unprocessed w) (batch tk)) as [| a l] eqn:Hf.
    - cbn in Hlen. destruct ids; [| cbn in Hlen; lia].
      now rewrite app_nil_r in Hid.
    - unfold slice_last.
      replace (_ - 2000)%nat with 0%nat
        by (rewrite length_app; lia).
      exact Hid. }
  split.
  - intros id Hid. apply set_has_In. apply Hsub. apply in_or_app. left.
    now apply set_has_In.
  - rewrite Forall_forall. intros d Hd. apply set_has_In, Hsub.
    now apply Hin.
Qed.

Lemma delivered_actions_marked_witness :
  (List.length (processedActions (poller sample_world))
   + List.length (batch tie_tick) <= 2000)%nat
  /\ Forall (fun d =>
               set_has
                 (processedActions
                    (poller (checkForUpdates (sample_env (Some "true"))
                               tie_tick sample_world)))
                 (action_id (delivery_action d)) = true)
       (new_deliveries (sample_env (Some "true")) tie_tick sample_world).
Proof.
  assert (Hcap : (List.length (processedActions (poller sample_world))
                  + List.length (batch tie_tick) <= 2000)%nat)
    by (vm_compute; lia).
  split; [exact Hcap |].
  exact (proj2 (delivered_actions_marked (sample_env (Some "true")) tie_tick
                  sample_world Hcap)).
Defined.

(** ** The clean-up keeps the most recent entries *)

(** X4.  [cleanupOldData] keeps the last 2000 processed identifiers and the
    last 100 cache entries, in their order, and drops only older ones:
    both containers afterwards are suffixes of what they were, within
    their caps, and unchanged when they already were. *)
Theorem cleanupOldData_keeps_latest (p : Poller) :
  let p' := cleanupOldData p in
  (exists dropped,
      processedActions p = (dropped ++ processedActions p')%list
      /\ List.length (processedActions p')
         = Nat.min 2000 (List.length (processedActions p)))
  /\ (exists dropped,
         sentNotifications p = (dropped ++ sentNotifications p')%list
         /\ List.length (sentNotifications p')
            = Nat.min 100 (List.length (sentNotifications p)))
  /\ lastCheckTime p' = lastCheckTime p
  /\ consecutiveErrors p' = consecutiveErrors p
  /\ pollingInterval p' = pollingInterval p.
Proof.
  cbn zeta. destruct (cleanupOldData_slices p) as [-> ->].
  split; [| split].
  - eexists. split; [apply slice_last_suffix | apply slice_last_length].
  - eexists. split; [apply slice_last_suffix | apply slice_last_length].
  - unfold cleanupOldData.
    destruct (2000 <? _)%nat; destruct (100 <? _)%nat;
      repeat split; reflexivity.
Qed.

Lemma checkForUpdates_sizes (env : Env) (tk : Tick) (w : World) :
  let w' := checkForUpdates env tk w in
  (List.length (processedActions (poller w'))
   <= Nat.max 2000 (List.length (processedActions (poller w))))%nat
  /\ (List.length (sentNotifications (poller w'))
      <= Nat.max 100 (List.length (sentNotifications (poller w))))%nat.
Proof.
  cbn zeta. unfold checkForUpdates.
  destruct (tick_actions tk) as [actions |].
  - destruct (_ =? 0)%nat.
    + cbn [poller with_poller with_lastCheckTime with_consecutiveErrors
           processedActions sentNotifications]. lia.
    + set (w1 := fold_left (loop_body env tk) _ _).
      destruct (cleanupOldData_slices (poller w1)) as [H1 H2].
      set (p' := cleanupOldData (poller w1)) in *.
      cbn [poller with_poller with_lastCheckTime processedActions
           sentNotifications].
      rewrite H1, H2.
      rewrite !slice_last_length. lia.
  - unfold handlePollingError.
    cbn [with_consecutiveErrors consecutiveErrors maxConsecutiveErrors].
    destruct (_ <=? _);
      cbn [poller with_poller with_lastCheckTime with_consecutiveErrors
           with_pollingInterval processedActions sentNotifications]; lia.
Qed.

(** X5.  However many ticks run and whatever they retrieve, the processed
    set never grows beyond 2000 identifiers and the notification cache
    never beyond 100 cards, unless they were larger to begin with, and then
    they never grow beyond that. *)
Theorem ticks_stay_within_caps (env : Env) (tks : list Tick) (w : World) :
  (List.length (processedActions (poller (ticks env tks w)))
   <= Nat.max 2000 (List.length (processedActions (poller w))))%nat
  /\ (List.length (sentNotifications (poller (ticks env tks w)))
      <= Nat.max 100 (List.length (sentNotifications (poller w))))%nat.
Proof.
  revert w. induction tks as [| tk tks IH]; intros w.
  - cbn [ticks fold_left]. lia.
  - cbn [ticks fold_left]. fold (ticks env tks (checkForUpdates env tk w)).
    destruct (IH (checkForUpdates env tk w)) as [H1 H2].
    destruct (checkForUpdates_sizes env tk w) as [H3 H4]. lia.
Qed.

(** ** The back-off is a single doubling *)

Lemma checkForUpdates_period (env : Env) (tk : Tick) (w : World) :
  let w' := checkForUpdates env tk w in
  intervalSeconds (poller w') = intervalSeconds (poller w)
  /\ maxConsecutiveErrors (poller w') = maxConsecutiveErrors (poller w)
  /\ isPolling (poller w') = isPolling (poller w)
  /\ ((pollingInterval (poller w') = pollingInterval (poller w)
       /\ timers w' = timers w)
      \/ (pollingInterval (poller w')
          = Some (intervalSeconds (poller w) * 2 * 1000)
          /\ timers w'
             = (timers w ++ [intervalSeconds (poller w) * 2 * 1000])%list
          /\ tick_actions tk = None)).
Proof.
  cbn zeta. unfold checkForUpdates.
  destruct (tick_actions tk) as [actions |].
  - destruct (_ =? 0)%nat.
    + cbn. repeat split; try reflexivity. left. now split.
    + cbn [poller with_poller with_lastCheckTime intervalSeconds
           maxConsecutiveErrors isPolling pollingInterval timers].
      set (l := sort _). set (w0 := with_poller w _).
      assert (Hloop : forall l w1,
                 intervalSeconds (poller (fold_left (loop_body env tk) l w1))
                 = intervalSeconds (poller w1)
                 /\ maxConsecutiveErrors
                      (poller (fold_left (loop_body env tk) l w1))
                    = maxConsecutiveErrors (poller w1)
                 /\ isPolling (poller (fold_left (loop_body env tk) l w1))
                    = isPolling (poller w1)
                 /\ pollingInterval
                      (poller (fold_left (loop_body env tk) l w1))
                    = pollingInterval (poller w1)
                 /\ timers (fold_left (loop_body env tk) l w1) = timers w1).
      { clear. induction l as [| a l IH]; intros w1;
          [repeat split; reflexivity |].
        cbn [fold_left].
        destruct (IH (loop_body env tk w1 a)) as (-> & -> & -> & -> & ->).
        destruct (loop_body_step env tk w1 a)
          as [-> | (d & messages & _ & _ & _ & _ & _ & _ & ->)];
          repeat split; reflexivity. }
      destruct (Hloop l w0) as (H1 & H2 & H3 & H4 & H5).
      unfold cleanupOldData.
      destruct (2000 <? _)%nat; destruct (100 <? _)%nat;
        cbn [intervalSeconds maxConsecutiveErrors isPolling pollingInterval
             with_processedActions with_sentNotifications];
        rewrite H1, H2, H3, H4, H5; repeat split; try reflexivity;
        left; now split.
  - unfold handlePollingError.
    cbn [with_consecutiveErrors consecutiveErrors maxConsecutiveErrors].
    destruct (_ <=? _); cbn; repeat split; try reflexivity;
      [right | left]; repeat split; reflexivity.
Qed.

(** X6.  Whatever the ticks retrieve, the poll loop never changes the
    configured interval, and the only timers it ever starts run at twice
    that interval: the live period after any run is the one before it or
    the doubled one, and no tick that retrieved its actions changes it, so
    nothing in the loop restores the configured period. *)
Theorem period_only_ever_doubled (env : Env) (tks : list Tick) (w : World) :
  let w' := ticks env tks w in
  let doubled := intervalSeconds (poller w) * 2 * 1000 in
  intervalSeconds (poller w') = intervalSeconds (poller w)
  /\ (exists k : nat, timers w' = (timers w ++ repeat doubled k)%list
        /\ (k <= List.length (filter (fun tk =>
                                        match tick_actions tk with
                                        | None => true
                                        | Some _ => false
                                        end) tks))%nat
        /\ (k = 0%nat ->
            pollingInterval (poller w') = pollingInterval (poller w))
        /\ (k <> 0%nat -> pollingInterval (poller w') = Some doubled)).
Proof.
  cbn zeta. revert w. induction tks as [| tk tks IH]; intros w.
  - split; [reflexivity |]. exists 0%nat. cbn. rewrite app_nil_r.
    repeat split; try reflexivity; lia.
  - cbn [ticks fold_left]. fold (ticks env tks (checkForUpdates env tk w)).
    destruct (IH (checkForUpdates env tk w)) as (Hi & k & Ht & Hk & Hz & Hnz).
    destruct (checkForUpdates_period env tk w)
      as (Hi1 & _ & _ & [[Hp Htm] | (Hp & Htm & Hnone)]).
    + rewrite Hi1 in *. split; [assumption |]. exists k.
      rewrite Ht, Htm. repeat split.
      * cbn [filter]. destruct (tick_actions tk); cbn; lia.
      * intros Hk0. now rewrite Hz.
      * assumption.
    + rewrite Hi1 in *. split; [assumption |]. exists (S k).
      rewrite Ht, Htm, <- app_assoc. repeat split.
      * cbn [filter]. rewrite Hnone. cbn. lia.
      * discriminate.
      * intros _. destruct k as [| k]; [now rewrite Hz | now apply Hnz].
Qed.

(** ** A sent notification is what the start-up scan looks for *)





(** ** Notifications whose wording never varies *)

(** The change types whose notification has a fixed title and description:
    comments and member changes. *)
Definition fixed_wording (type : string) : bool :=
  String.eqb type "commentCard"
  || String.eqb type "addMemberToCard"
  || String.eqb type "removeMemberFromCard".

Lemma fixed_wording_same_hash (env : Env) (a1 a2 : Action) (e1 e2 : Embed) :
  fixed_wording (action_type a1) = true ->
  action_type a2 = action_type a1 ->
  formatNotificationEmbed env a1 = Some e1 ->
  formatNotificationEmbed env a2 = Some e2 ->
  createContentHash e1 = createContentHash e2.
Proof.
  unfold fixed_wording, formatNotificationEmbed. cbv zeta.
  intros Hfix ->.
  destruct (String.eqb_spec (action_type a1) "commentCard") as [-> | _];
    [| destruct (String.eqb_spec (action_type a1) "addMemberToCard")
         as [-> | _];
       [| destruct (String.eqb_spec (action_type a1) "removeMemberFromCard")
            as [-> | _]; [| discriminate]]];
    cbn [String.eqb Ascii.eqb Bool.eqb andb orb];
    destruct (not_true _); try discriminate;
    cbn; intros H1 H2; injection H1 as <-; injection H2 as <-; reflexivity.
Qed.

Lemma run_rendered (env : Env) (evs : list Event) :
  forall w : World, rendered env w -> rendered env (run env evs w).
Proof.
  induction evs as [| ev evs IH]; intros w Hw; [exact Hw |].
  cbn [run fold_left]. apply IH.
  destruct ev as [tk | tk amid after | i bt | ok c t | t msg]; cbn [step].
  - rewrite <- checkForUpdates_amid_none.
    now apply checkForUpdates_amid_rendered.
  - now apply checkForUpdates_amid_rendered.
  - unfold restart, start. cbn. exact Hw.
  - unfold rendered, scan_card. destruct (map_get (threads w) t); exact Hw.
  - exact Hw.
Qed.

(** X8.  Comment and member notifications have a fixed wording, so their
    content hash is the same for every such change; over any run of one
    poller within the cap of 100 bound cards, made of its start, the cards
    of its start-up scan settling at any point between ticks or between
    the notifications of a tick, poll ticks and thread messages, with no
    fresh start once a notification has gone
    out, a card therefore receives at most one notification of each of
    these types, however many such changes are made to it. *)
Theorem fixed_wording_notified_once (env : Env) (cards : list string)
  (evs : list Event) (threads0 : list (string * list Message))
  (i j : nat) (d1 d2 : Delivery) :
  (List.length cards <= 100)%nat ->
  admissible env cards evs (initial threads0) ->
  nth_error (deliveries (run env evs (initial threads0))) i = Some d1 ->
  nth_error (deliveries (run env evs (initial threads0))) j = Some d2 ->
  delivery_card d1 = delivery_card d2 ->
  fixed_wording (action_type (delivery_action d1)) = true ->
  action_type (delivery_action d2) = action_type (delivery_action d1) ->
  i = j.
Proof.
  intros Hcap Hadm Hi Hj Hcard Hfix Htype.
  assert (Hinv : Inv cards (run env evs (initial threads0))).
  { apply run_Inv; try assumption. constructor; cbn.
    - constructor.
    - intros d [].
    - split; [constructor | intros x []]. }
  pose proof (inv_once _ _ Hinv) as Honce. unfold at_most_once in Honce.
  assert (Hr : rendered env (run env evs (initial threads0)))
    by (apply run_rendered; constructor).
  unfold rendered in Hr. rewrite Forall_forall in Hr.
  pose proof (Hr d1 (nth_error_In _ _ Hi)) as H1.
  pose proof (Hr d2 (nth_error_In _ _ Hj)) as H2.
  pose proof (fixed_wording_same_hash env _ _ _ _ Hfix Htype H1 H2) as Hh.
  eapply (proj1 (NoDup_nth_error _) Honce).
  - rewrite length_map. apply nth_error_Some. congruence.
  - rewrite !nth_error_map, Hi, Hj. cbn. unfold pair_of. congruence.
Qed.

(** A start, then three comments on one card, retrieved over two ticks
    with the scan of the card settling in between. *)
Definition comment_ticks : list Event :=
  [Restarted 30 sample_boot;
   Polled {| tick_now := 5000;
             tick_actions :=
               Some [sample_comment "a1" 1000 "c1";
                     sample_comment "a2" 2000 "c1"];
             tick_cardThreadMap := [("c1", "t1")];
             tick_send_ok := fun _ => true |};
   Scanned true "c1" "t1";
   Polled {| tick_now := 9000;
             tick_actions := Some [sample_comment "a3" 6000 "c1"];
             tick_cardThreadMap := [("c1", "t1")];
             tick_send_ok := fun _ => true |}].

Definition first_comment : Delivery :=
  {| delivery_thread := "t1"; delivery_card := "c1";
     delivery_embed :=
       notification (sample_env (Some "true"))
         (sample_comment "a1" 1000 "c1") 0x0079BF
         "💬 New Comment" "A new comment was added to the card";
     delivery_action := sample_comment "a1" 1000 "c1" |}.

Lemma fixed_wording_notified_once_witness :
  deliveries
    (run (sample_env (Some "true")) comment_ticks (initial sample_threads))
  = [first_comment]
  /\ (List.length ["c1"] <= 100)%nat
  /\ admissible (sample_env (Some "true")) ["c1"] comment_ticks
       (initial sample_threads)
  /\ fixed_wording (action_type (delivery_action first_comment)) = true
  /\ 0%nat = 0%nat.
Proof.
  assert (Hcap : (List.length ["c1"] <= 100)%nat) by (cbn; lia).
  assert (Hadm : admissible (sample_env (Some "true")) ["c1"] comment_ticks
                   (initial sample_threads)).
  { unfold comment_ticks. cbn [admissible allowed].
    split; [reflexivity |]. split; [apply incl_refl |].
    split; [now left |]. split; [apply incl_refl | exact I]. }
  assert (Hi : nth_error
                 (deliveries
                    (run (sample_env (Some "true")) comment_ticks
                       (initial sample_threads))) 0
               = Some first_comment)
    by (vm_compute; reflexivity).
  split; [vm_compute; reflexivity |].
  split; [exact Hcap |]. split; [exact Hadm |]. split; [reflexivity |].
  exact (fixed_wording_notified_once (sample_env (Some "true")) ["c1"]
           comment_ticks sample_threads 0 0 first_comment first_comment
           Hcap Hadm Hi Hi eq_refl eq_refl eq_refl).
Defined.


(** ** Starting and stopping *)

Lemma ticks_controller (env : Env) (tks : list Tick) :
  forall w : World,
    isPolling (poller (ticks env tks w)) = isPolling (poller w)
    /\ intervalSeconds (poller (ticks env tks w)) = intervalSeconds (poller w)
    /\ (pollingInterval (poller w) <> None ->
        pollingInterval (poller (ticks env tks w)) <> None).
Proof.
  induction tks as [| tk tks IH]; intros w.
  - cbn. tauto.
  - cbn [ticks fold_left]. fold (ticks env tks (checkForUpdates env tk w)).
    destruct (IH (checkForUpdates env tk w)) as (H1 & H2 & H3).
    destruct (checkForUpdates_period env tk w)
      as (Hi & _ & Hp & [[Hsame _] | (Hdouble & _ & _)]).
    + rewrite H1, H2, Hp, Hi. repeat split. intros Hw. apply H3. congruence.
    + rewrite H1, H2, Hp, Hi. repeat split. intros _. apply H3. congruence.
Qed.

(** X27.  A poller that is running cannot be started twice, and only a
    stop brings back the configured period: after a fresh start and any
    number of ticks, with or without a back-off, [start] changes nothing;
    [stop] clears the timer and the polling flag; and the [start] that
    follows sets a timer at the configured interval again. *)
Theorem stop_then_start_restores_period (env : Env) (intervalSeconds0 : Z)
  (bt0 bt : Boot) (w : World) (tks : list Tick) :
  let w1 := ticks env tks (restart intervalSeconds0 bt0 w) in
  start bt w1 = w1
  /\ isPolling (poller (Lifecycle.stop w1)) = false
  /\ pollingInterval (poller (Lifecycle.stop w1)) = None
  /\ pollingInterval (poller (start bt (Lifecycle.stop w1)))
     = Some (intervalSeconds0 * 1000)
  /\ timers (start bt (Lifecycle.stop w1))
     = (timers w1 ++ [intervalSeconds0 * 1000])%list.
Proof.
  cbv zeta.
  destruct (ticks_controller env tks (restart intervalSeconds0 bt0 w))
    as (Hpolling & Hinterval & Htimer).
  set (w1 := ticks env tks (restart intervalSeconds0 bt0 w)) in *.
  assert (Hp : isPolling (poller w1) = true) by (rewrite Hpolling; reflexivity).
  assert (Hi : intervalSeconds (poller w1) = intervalSeconds0)
    by (rewrite Hinterval; reflexivity).
  assert (Ht : pollingInterval (poller w1) <> None)
    by (apply Htimer; discriminate).
  split; [unfold start; now rewrite Hp |].
  unfold Lifecycle.stop.
  destruct (pollingInterval (poller w1)) as [period |]; [| contradiction].
  unfold start.
  cbn [poller with_poller isPolling pollingInterval with_isPolling
       with_pollingInterval with_sentNotifications with_lastCheckTime
       intervalSeconds timers].
  rewrite Hi. repeat split; reflexivity.
Qed.


(** ** What an [updateCard] action is reported as *)

(** The due date is part of the change: [oldDue !== undefined ||
    newDue !== undefined]. *)
Definition due_touched (a : Action) : bool :=
  negb (JSVal_eqb (chain (data_of a data_old) old_due) JUndefined)
  || negb (JSVal_eqb (chain (data_of a data_card) card_due) JUndefined).

(** X28.  An [updateCard] action yields one notification at most, and the
    last applicable case wins: with both lists present it is reported as a
    move, whatever else changed; without them, with an old name, as a
    rename, whatever happened to the due date.  When the due date is part
    of the change and due-date notifications are off, nothing is reported,
    not even the move or the rename. *)
Theorem updateCard_last_case_wins (env : Env) (a : Action) :
  action_type a = "updateCard" ->
  (due_touched a && not_true (NOTIFY_DUE_DATE_CHANGES env) = true ->
   formatNotificationEmbed env a = None)
  /\ (due_touched a && not_true (NOTIFY_DUE_DATE_CHANGES env) = false ->
      (forall listBefore listAfter,
          data_of a data_listBefore = Some listBefore ->
          data_of a data_listAfter = Some listAfter ->
          formatNotificationEmbed env a
          = Some (notification env a 0x9F19CC "🔄 Card Moved"
                    ("Card was moved from **"
                     ++ template (ref_name listBefore) ++ "** to **"
                     ++ template (ref_name listAfter) ++ "**")))
      /\ ((data_of a data_listBefore = None
           \/ data_of a data_listAfter = None) ->
          chain (data_of a data_old) old_name <> JUndefined ->
          formatNotificationEmbed env a
          = Some (notification env a 0x0079BF "✏️ Card Renamed"
                    ("Card was renamed from **"
                     ++ template (chain (data_of a data_old) old_name)
                     ++ "**")))).
Proof.
  intros Htype. unfold formatNotificationEmbed. cbv zeta. rewrite Htype.
  cbn [String.eqb Ascii.eqb Bool.eqb]. fold (due_touched a).
  split.
  - intros Hgate. now rewrite Hgate.
  - intros Hgate. rewrite Hgate. split.
    + intros listBefore listAfter Hb Ha. rewrite Hb, Ha. reflexivity.
    + intros Hlists Hname.
      assert (Hold : negb (JSVal_eqb (chain (data_of a data_old) old_name)
                             JUndefined) = true).
      { destruct (chain (data_of a data_old) old_name);
          [contradiction | reflexivity | reflexivity]. }
      rewrite Hold.
      destruct Hlists as [H | H]; rewrite H;
        [| destruct (data_of a data_listBefore)]; reflexivity.
Qed.

(** A card moved between lists and given a due date in one action. *)
Definition moved_and_dated : Action :=
  {| action_id := "a1"; action_type := "updateCard"; action_date := 1000;
     action_data :=
       Some {| data_card :=
                 Some {| card_id := JStr "c1"; card_name := JStr "Card";
                         card_due := JStr "2025-01-01" |};
               data_old :=
                 Some {| old_due := JNull; old_name := JStr "Old" |};
               data_label := None; data_checklist := None;
               data_checkItem := None; data_list := None;
               data_listBefore := Some {| ref_name := JStr "To do" |};
               data_listAfter := Some {| ref_name := JStr "Done" |} |} |}.

Lemma updateCard_last_case_wins_witness :
  formatNotificationEmbed (sample_env None) moved_and_dated = None
  /\ formatNotificationEmbed (sample_env (Some "true")) moved_and_dated
     = Some (notification (sample_env (Some "true")) moved_and_dated 0x9F19CC
               "🔄 Card Moved" "Card was moved from **To do** to **Done**").
Proof.
  split.
  - apply (proj1 (updateCard_last_case_wins (sample_env None) moved_and_dated
                    eq_refl)).
    reflexivity.
  - apply (proj1 (proj2 (updateCard_last_case_wins (sample_env (Some "true"))
                           moved_and_dated eq_refl) eq_refl)
             {| ref_name := JStr "To do" |} {| ref_name := JStr "Done" |});
      reflexivity.
Defined.

End PollerLaws.

(** * Properties of the Trello helper *)

Module HelperLaws.
Import JSFacts TrelloHelper.

(** The sleep before the retry that follows attempt [k], in ms. *)
Definition backoff (k : nat) : Z := 2 ^ Z.of_nat k * 1000.

(** How the loop ends at attempt [n]: with the value of the request, or,
    when the request rejects, with the default if there is one and the
    error thrown on otherwise. *)
Definition ends_at {A : Type} (requestFn : nat -> Attempt A)
  (defaultReturn : option A) (maxRetries n : nat) (settled : Settled A)
  : Prop :=
  match requestFn n with
  | Resolved value => settled = Fulfilled value
  | Rejected error =>
      (isRetriableError error = false \/ n = maxRetries)
      /\ settled = match defaultReturn with
                   | Some value => Fulfilled value
                   | None => Thrown error
                   end
  end.

Definition retried {A : Type} (requestFn : nat -> Attempt A) (k : nat)
  : Prop :=
  exists error, requestFn k = Rejected error /\ isRetriableError error = true.

Lemma retry_loop_spec {A : Type} (requestFn : nat -> Attempt A)
  (defaultReturn : option A) (maxRetries : nat) :
  forall fuel attempt : nat,
    (attempt + fuel = S maxRetries)%nat -> (1 <= fuel)%nat ->
    exists n : nat,
      (attempt <= n <= maxRetries)%nat
      /\ snd (retry_loop requestFn defaultReturn maxRetries fuel attempt)
         = map backoff (seq attempt (n - attempt))
      /\ (forall k, (attempt <= k < n)%nat -> retried requestFn k)
      /\ ends_at requestFn defaultReturn maxRetries n
           (fst (retry_loop requestFn defaultReturn maxRetries fuel attempt)).
Proof.
  induction fuel as [| fuel IH]; intros attempt Hsum Hfuel; [lia |].
  cbn [retry_loop].
  destruct (requestFn attempt) as [value | error] eqn:Hreq.
  - exists attempt. rewrite Nat.sub_diag. unfold ends_at. rewrite Hreq.
    repeat split; try lia; try reflexivity.
  - destruct (isRetriableError error) eqn:Hretry;
      [destruct (Nat.ltb_spec attempt maxRetries) as [Hlt | Hge] |];
      cbn [andb].
    + destruct (IH (S attempt) ltac:(lia) ltac:(lia))
        as (n & Hn & Hdelays & Hbefore & Hend).
      destruct (retry_loop requestFn defaultReturn maxRetries fuel (S attempt))
        as [settled delays].
      cbn [fst snd] in *. exists n. split; [lia |]. split; [| split].
      * replace (n - attempt)%nat with (S (n - S attempt)) by lia.
        cbn [seq map]. now rewrite Hdelays.
      * intros k Hk. destruct (Nat.eq_dec k attempt) as [-> | Hne].
        -- now exists error.
        -- apply Hbefore. lia.
      * exact Hend.
    + exists attempt. rewrite Nat.sub_diag. unfold ends_at. rewrite Hreq.
      split; [lia |]. split; [now destruct defaultReturn |].
      split; [intros k Hk; lia |].
      split; [right; lia | now destruct defaultReturn].
    + exists attempt. rewrite Nat.sub_diag. unfold ends_at. rewrite Hreq.
      split; [lia |]. split; [now destruct defaultReturn |].
      split; [intros k Hk; lia |].
      split; [now left | now destruct defaultReturn].
Qed.

(** X9.  [_retryRequest] with [maxRetries] at least 1 makes attempts
    1, ..., n for some n up to [maxRetries]: every attempt before the n-th
    rejected with a retriable error and was followed by a sleep of
    2^k * 1000 ms; the n-th either resolved, and its value is returned, or
    rejected with an error that is not retriable or at n = [maxRetries],
    and then the default is returned if there is one and the error is
    thrown otherwise.  The loop never falls through. *)
Theorem _retryRequest_attempts {A : Type} (requestFn : nat -> Attempt A)
  (defaultReturn : option A) (maxRetries : nat) :
  (1 <= maxRetries)%nat ->
  exists n : nat,
    (1 <= n <= maxRetries)%nat
    /\ snd (_retryRequest requestFn defaultReturn maxRetries)
       = map backoff (seq 1 (n - 1))
    /\ (forall k, (1 <= k < n)%nat -> retried requestFn k)
    /\ ends_at requestFn defaultReturn maxRetries n
         (fst (_retryRequest requestFn defaultReturn maxRetries))
    /\ fst (_retryRequest requestFn defaultReturn maxRetries)
       <> ReturnedUndefined.
Proof.
  intros Hmax. unfold _retryRequest.
  destruct (retry_loop_spec requestFn defaultReturn maxRetries maxRetries 1
              ltac:(lia) Hmax) as (n & Hn & Hdelays & Hbefore & Hend).
  exists n. repeat split; try assumption; try lia.
  unfold ends_at in Hend. destruct (requestFn n) as [value | error].
  - rewrite Hend. discriminate.
  - destruct Hend as [_ ->]. destruct defaultReturn; discriminate.
Qed.

Definition timeout_error : Error :=
  {| error_code := JUndefined; error_name := JStr "Error";
     error_message := JStr "request timeout" |}.

Definition http_error : Error :=
  {| error_code := JUndefined; error_name := JStr "Error";
     error_message := JStr "HTTP error! status: 401, message: invalid key" |}.

(** Two timeouts, then an answer. *)
Definition third_time_lucky (k : nat) : Attempt Z :=
  if (k <? 3)%nat then Rejected timeout_error else Resolved 42.

Lemma _retryRequest_attempts_witness :
  _retryRequest third_time_lucky None 3 = (Fulfilled 42, [2000; 4000])
  /\ exists n : nat,
      (1 <= n <= 3)%nat
      /\ snd (_retryRequest third_time_lucky None 3)
         = map backoff (seq 1 (n - 1))
      /\ (forall k, (1 <= k < n)%nat -> retried third_time_lucky k)
      /\ ends_at third_time_lucky None 3 n
           (fst (_retryRequest third_time_lucky None 3))
      /\ fst (_retryRequest third_time_lucky None 3) <> ReturnedUndefined.
Proof.
  split; [vm_compute; reflexivity |].
  apply (_retryRequest_attempts third_time_lucky None 3). lia.
Defined.

(** ** Queries answer with an empty list instead of throwing *)

(** A query that fell back on its default or returned what an attempt
    resolved with, after at most two sleeps. *)
Definition answered {A : Type} (requestFn : nat -> Attempt (list A))
  (s : Settled (list A) * list Z) : Prop :=
  exists result : list A,
    fst s = Fulfilled result
    /\ (result = []
        \/ exists n, (1 <= n <= 3)%nat /\ requestFn n = Resolved result)
    /\ (snd s = [] \/ snd s = [2000] \/ snd s = [2000; 4000]).

Lemma defaulted_answered {A : Type} (requestFn : nat -> Attempt (list A)) :
  answered requestFn (_retryRequest requestFn (Some []) 3).
Proof.
  unfold answered, _retryRequest.
  destruct (retry_loop_spec requestFn (Some []) 3 3 1 ltac:(lia) ltac:(lia))
    as (n & Hn & Hdelays & _ & Hend).
  unfold ends_at in Hend.
  assert (Hd : snd (retry_loop requestFn (Some []) 3 3 1) = []
               \/ snd (retry_loop requestFn (Some []) 3 3 1) = [2000]
               \/ snd (retry_loop requestFn (Some []) 3 3 1) = [2000; 4000]).
  { rewrite Hdelays.
    assert (Hcases : n = 1%nat \/ n = 2%nat \/ n = 3%nat) by lia.
    destruct Hcases as [-> | [-> | ->]]; [left | right; left | right; right];
      reflexivity. }
  destruct (requestFn n) as [value | error] eqn:Hreq.
  - exists value. split; [exact Hend |]. split; [| exact Hd].
    right. exists n. now split.
  - exists []. split; [apply Hend |]. split; [now left | exact Hd].
Qed.

Lemma all_rejected_default {A : Type} (errors : nat -> Error)
  (defaultReturn : A) :
  fst (_retryRequest (fun n => Rejected (errors n)) (Some defaultReturn) 3)
  = Fulfilled defaultReturn.
Proof.
  unfold _retryRequest.
  destruct (retry_loop_spec (fun n => @Rejected A (errors n))
              (Some defaultReturn) 3 3 1 ltac:(lia) ltac:(lia))
    as (n & _ & _ & _ & Hend).
  apply Hend.
Qed.

(** X10.  The three queries of the helper, [getBoardActions],
    [searchCards] and [searchAttachments], never throw and never return
    [undefined]: each returns what one of at most three attempts resolved
    with, or the empty list, after sleeping nothing, 2000 ms, or 2000 and
    then 4000 ms; when every attempt rejects, whatever the errors, the
    answer is the empty list. *)
Theorem queries_never_throw
  (actionsFn : nat -> Attempt (list TrelloPoller.Action))
  (cardsFn : nat -> Attempt (list (string * string)))
  (attachmentsFn : nat -> Attempt (list DiscordTrelloBot.RemoteAttachment))
  (errors : nat -> Error) :
  answered actionsFn (getBoardActions actionsFn)
  /\ answered cardsFn (searchCards cardsFn)
  /\ answered attachmentsFn (searchAttachments attachmentsFn)
  /\ awaited (fst (getBoardActions (fun n => Rejected (errors n)))) = Some []
  /\ awaited (fst (searchCards (fun n => Rejected (errors n)))) = Some []
  /\ awaited (fst (searchAttachments (fun n => Rejected (errors n))))
     = Some [].
Proof.
  unfold getBoardActions, searchCards, searchAttachments.
  rewrite !all_rejected_default.
  repeat split; try apply defaulted_answered.
Qed.

(** X11.  The commands of the helper, [card.create], [card.update] and
    [addAttachment], have no default: a first error that is not retriable
    is thrown at once, without a sleep, and three retriable errors in a row
    end with the third thrown after sleeps of 2000 and 4000 ms. *)
Theorem commands_throw {A : Type} (requestFn : nat -> Attempt A)
  (e1 e2 e3 : Error) :
  (requestFn 1%nat = Rejected e1 -> isRetriableError e1 = false ->
   card_create requestFn = (Thrown e1, [])
   /\ card_update requestFn = (Thrown e1, [])
   /\ addAttachment requestFn = (Thrown e1, []))
  /\ (requestFn 1%nat = Rejected e1 -> isRetriableError e1 = true ->
      requestFn 2%nat = Rejected e2 -> isRetriableError e2 = true ->
      requestFn 3%nat = Rejected e3 ->
      card_create requestFn = (Thrown e3, [2000; 4000])
      /\ card_update requestFn = (Thrown e3, [2000; 4000])
      /\ addAttachment requestFn = (Thrown e3, [2000; 4000])).
Proof.
  unfold card_create, card_update, addAttachment, _retryRequest.
  split.
  - intros H1 Hn. cbn [retry_loop]. rewrite H1, Hn. cbn [andb].
    repeat split; reflexivity.
  - intros H1 Hr1 H2 Hr2 H3. cbn [retry_loop].
    rewrite H1, Hr1, H2, Hr2, H3. cbn [andb Nat.ltb Nat.leb].
    rewrite andb_false_r. repeat split; reflexivity.
Qed.

Lemma commands_throw_witness :
  card_create (A := Z) (fun _ => Rejected http_error) = (Thrown http_error, [])
  /\ addAttachment (A := Z) (fun _ => Rejected timeout_error)
     = (Thrown timeout_error, [2000; 4000]).
Proof.
  split.
  - apply (proj1 (commands_throw (A := Z) (fun _ => Rejected http_error)
                    http_error http_error http_error));
      reflexivity.
  - apply (proj2 (commands_throw (A := Z) (fun _ => Rejected timeout_error)
                    timeout_error timeout_error timeout_error));
      reflexivity.
Defined.

(** ** What the callers make of a query that failed *)

(** A tick whose actions are what [getBoardActions] returned. *)
Definition polled (requestFn : nat -> Attempt (list TrelloPoller.Action))
  (now : Z) (cardThreadMap : list (string * string))
  (send_ok : TrelloPoller.Action -> bool) : TrelloPoller.Tick :=
  {| TrelloPoller.tick_now := now;
     TrelloPoller.tick_actions := awaited (fst (getBoardActions requestFn));
     TrelloPoller.tick_cardThreadMap := cardThreadMap;
     TrelloPoller.tick_send_ok := send_ok |}.

(** The responses [r], with the card search answered by [searchCards]. *)
Definition searched (r : DiscordTrelloBot.Responses)
  (requestFn : nat -> Attempt (list (string * string)))
  : DiscordTrelloBot.Responses :=
  {| DiscordTrelloBot.resp_creator := DiscordTrelloBot.resp_creator r;
     DiscordTrelloBot.resp_cards := awaited (fst (searchCards requestFn));
     DiscordTrelloBot.resp_creator_again :=
       DiscordTrelloBot.resp_creator_again r;
     DiscordTrelloBot.resp_created := DiscordTrelloBot.resp_created r;
     DiscordTrelloBot.resp_sync := DiscordTrelloBot.resp_sync r;
     DiscordTrelloBot.resp_resync := DiscordTrelloBot.resp_resync r |}.

(** The responses [r], with the attachment search answered by
    [searchAttachments]. *)
Definition listed (r : DiscordTrelloBot.SyncResponses)
  (requestFn : nat -> Attempt (list DiscordTrelloBot.RemoteAttachment))
  : DiscordTrelloBot.SyncResponses :=
  {| DiscordTrelloBot.sync_pages := DiscordTrelloBot.sync_pages r;
     DiscordTrelloBot.sync_update_ok := DiscordTrelloBot.sync_update_ok r;
     DiscordTrelloBot.sync_existing :=
       awaited (fst (searchAttachments requestFn));
     DiscordTrelloBot.sync_add_ok := DiscordTrelloBot.sync_add_ok r |}.

Section Poller.
Import TrelloPoller PollerFacts PollerLaws.

Lemma loop_consecutiveErrors (env : Env) (tk : Tick) (l : list Action) :
  forall w : World,
    consecutiveErrors (poller (fold_left (loop_body env tk) l w))
    = consecutiveErrors (poller w).
Proof.
  induction l as [| a l IH]; intros w; [reflexivity |].
  cbn [fold_left]. rewrite IH.
  destruct (loop_body_step env tk w a)
    as [-> | (d & messages & _ & _ & _ & _ & _ & _ & ->)]; reflexivity.
Qed.

Lemma retrieved_tick (env : Env) (tk : Tick) (w : World)
  (actions : list Action) :
  tick_actions tk = Some actions ->
  let w' := checkForUpdates env tk w in
  consecutiveErrors (poller w') = 0
  /\ lastCheckTime (poller w') = tick_now tk
  /\ timers w' = timers w
  /\ pollingInterval (poller w') = pollingInterval (poller w).
Proof.
  intros Hsome. cbn zeta.
  destruct (checkForUpdates_period env tk w)
    as (_ & _ & _ & [[Hp Ht] | (_ & _ & Hnone)]); [| congruence].
  split; [| split; [| now split]].
  - unfold checkForUpdates. rewrite Hsome.
    destruct (_ =? 0)%nat; [reflexivity |].
    cbn [poller with_poller with_lastCheckTime consecutiveErrors].
    set (w1 := fold_left _ _ _).
    assert (H1 : consecutiveErrors (poller w1) = 0)
      by (subst w1; now rewrite loop_consecutiveErrors).
    unfold cleanupOldData.
    destruct (2000 <? _)%nat; destruct (100 <? _)%nat; exact H1.
  - unfold checkForUpdates. rewrite Hsome.
    destruct (_ =? 0)%nat; reflexivity.
Qed.

(** X12.  A tick that takes its actions from [getBoardActions] is never a
    failed tick: whatever the request does, [checkForUpdates] zeroes the
    error counter, advances the checkpoint to the current time and leaves
    the timer alone, so [handlePollingError] is not reached through the
    board query.  When every attempt rejects, the tick is the one of an
    empty answer: nothing is sent or marked, and the checkpoint still
    advances past the window that was not read. *)
Theorem failed_board_query_advances_checkpoint (env : Env)
  (requestFn : nat -> Attempt (list Action)) (errors : nat -> Error)
  (now : Z) (cardThreadMap : list (string * string))
  (send_ok : Action -> bool) (w : World) :
  let w' := checkForUpdates env (polled requestFn now cardThreadMap send_ok) w in
  let lost :=
    checkForUpdates env
      (polled (fun n => Rejected (errors n)) now cardThreadMap send_ok) w in
  (consecutiveErrors (poller w') = 0
   /\ lastCheckTime (poller w') = now
   /\ timers w' = timers w
   /\ pollingInterval (poller w') = pollingInterval (poller w))
  /\ lost
     = with_poller w
         (with_lastCheckTime (with_consecutiveErrors (poller w) 0) now).
Proof.
  cbn zeta. split.
  - destruct (defaulted_answered requestFn) as (result & Hres & _).
    apply (retrieved_tick env (polled requestFn now cardThreadMap send_ok)
             w result).
    unfold polled, getBoardActions. cbn [tick_actions]. now rewrite Hres.
  - unfold checkForUpdates, polled, getBoardActions. cbn [tick_actions].
    rewrite all_rejected_default. reflexivity.
Qed.

End Poller.

Section Bot.
Import DiscordTrelloBot.

(** X13.  When every attempt of the card search rejects, [searchCards]
    answers with the empty list, so [findExistingCard] finds nothing and
    the thread is given a new card, whatever cards the board holds. *)
Theorem unanswered_search_creates_card (loc : Locale) (thread : Thread)
  (r : Responses) (errors : nat -> Error) (bot : Bot) :
  findExistingCard (thread_name thread)
    (getThreadCreator thread (resp_creator r))
    (resp_cards (searched r (fun n => Rejected (errors n)))) = None
  /\ find_or_create loc thread (searched r (fun n => Rejected (errors n))) bot
     = createNewThreadCard loc thread r bot.
Proof.
  unfold find_or_create, searched, searchCards. cbn [resp_cards resp_creator].
  rewrite all_rejected_default. split; reflexivity.
Qed.

(** X14.  When every attempt of the attachment search rejects,
    [searchAttachments] answers with the empty list, so the pass does not
    skip the attachments: after the description is written it reconciles
    against an empty card, as if nothing had been attached before. *)
Theorem unanswered_listing_reconciles_from_nothing (loc : Locale)
  (thread : Thread) (cardId : string) (r : SyncResponses)
  (errors : nat -> Error) :
  updateCardWithAllMessages loc thread cardId
    (listed r (fun n => Rejected (errors n)))
  = updateCardWithAllMessages loc thread cardId
      {| sync_pages := sync_pages r; sync_update_ok := sync_update_ok r;
         sync_existing := Some []; sync_add_ok := sync_add_ok r |}.
Proof.
  unfold listed, searchAttachments. now rewrite all_rejected_default.
Qed.

End Bot.

End HelperLaws.

(** * Further properties of the bot *)

Module BotLaws.
Import JSFacts Text DiscordTrelloBot BotFacts.

(** ** Markdown: which replacements change the text *)

Lemma append_assoc (a b c : string) : ((a ++ b) ++ c = a ++ (b ++ c))%string.
Proof. induction a as [| x a IH]; cbn; [reflexivity | now rewrite IH]. Qed.

Lemma prefix_drop (p s : string) :
  String.prefix p s = true -> s = (p ++ drop (String.length p) s)%string.
Proof.
  revert s. induction p as [| x p IH]; intros s H.
  - cbn. now destruct s.
  - destruct s as [| y s]; [discriminate |]. cbn in *.
    destruct (Ascii.ascii_dec x y) as [-> | Hne]; [| discriminate].
    now rewrite <- (IH s H).
Qed.

Lemma drop_drop (a b : nat) (s : string) :
  drop a (drop b s) = drop (b + a) s.
Proof.
  revert s. induction b as [| b IH]; intros s; [reflexivity |].
  destruct s as [| c s]; cbn.
  - now destruct a.
  - apply IH.
Qed.

Lemma drop_succ (n : nat) (c : ascii) (s : string) :
  (1 <= n)%nat -> drop (n - 1) s = drop n (String c s).
Proof.
  intros H. destruct n as [| n]; [lia |].
  cbn. now rewrite Nat.sub_0_r.
Qed.

Lemma lazy_until_spec (close : string) (s x : string) :
  lazy_until close s = Some x ->
  s = (x ++ close ++ drop (String.length x + String.length close) s)%string.
Proof.
  revert x. induction s as [| c s IH]; intros x; cbn [lazy_until].
  - destruct (String.prefix close "") eqn:Hp; [| discriminate].
    intros H. injection H as <-. cbn [append String.length Nat.add].
    now apply prefix_drop.
  - destruct (String.prefix close (String c s)) eqn:Hp.
    + intros H. injection H as <-. cbn [append String.length Nat.add].
      now apply prefix_drop.
    + destruct (is_line_terminator c); [discriminate |].
      destruct (lazy_until close s) as [x' |]; [| discriminate].
      intros H. injection H as <-. cbn. f_equal. now apply IH.
Qed.

Lemma line_prefix_spec (s : string) :
  s = (line_prefix s ++ drop (String.length (line_prefix s)) s)%string.
Proof.
  induction s as [| c s IH]; cbn; [reflexivity |].
  destruct (is_line_terminator c); cbn; [reflexivity | now f_equal].
Qed.

(** Putting back the delimiters a match was found between changes
    nothing. *)
Lemma replace_delimited_same (d : string) :
  (1 <= String.length d)%nat ->
  forall (s : string) (k : nat), replace_delimited_from k d d d s = drop k s.
Proof.
  intros Hd. induction s as [| c s IH]; intros k.
  - now destruct k.
  - cbn [replace_delimited_from]. destruct k as [| k]; [| apply IH].
    cbn [drop]. destruct (String.prefix d (String c s)) eqn:Hp.
    + destruct (lazy_until d (drop (String.length d) (String c s)))
        as [x |] eqn:Hx.
      * rewrite IH.
        rewrite (drop_succ _ c) by lia.
        rewrite (prefix_drop _ _ Hp) at 2.
        f_equal. symmetry.
        etransitivity; [apply (lazy_until_spec _ _ _ Hx) |].
        rewrite drop_drop.
        replace (String.length d + (String.length x + String.length d))%nat
          with (String.length d + String.length x + String.length d)%nat
          by lia.
        reflexivity.
      * now rewrite IH.
    + now rewrite IH.
Qed.

Lemma replace_to_eol_same (p : string) :
  (1 <= String.length p)%nat ->
  forall (s : string) (k : nat), replace_to_eol_from k p p s = drop k s.
Proof.
  intros Hp. induction s as [| c s IH]; intros k.
  - now destruct k.
  - cbn [replace_to_eol_from]. destruct k as [| k]; [| apply IH].
    cbn [drop]. destruct (String.prefix p (String c s)) eqn:Hpre.
    + cbv zeta. rewrite IH. rewrite (drop_succ _ c) by lia.
      symmetry. etransitivity; [apply (prefix_drop _ _ Hpre) |]. f_equal.
      etransitivity; [apply line_prefix_spec |].
      rewrite drop_drop. reflexivity.
    + now rewrite IH.
Qed.

(** X15.  Of the eight replacements of [formatDiscordMarkdown], six put
    back exactly what they matched (bold, italic, underline, strike-through,
    inline code and block quotes): the result is the content with every run
    of six backticks set on a line of its own and every [||...||] pair
    rewritten to [[SPOILER: ...]], and nothing else changed. *)
Theorem formatDiscordMarkdown_rewrites_two (content : string) :
  formatDiscordMarkdown content
  = replace_delimited "||" "[SPOILER: " "]"
      (replace_all "``````" (LF ++ "``````" ++ LF) content).
Proof.
  unfold formatDiscordMarkdown, replace_delimited, replace_to_eol.
  cbv zeta.
  rewrite (replace_delimited_same "**") by (cbn; lia).
  rewrite (replace_delimited_same "*") by (cbn; lia).
  rewrite (replace_delimited_same "__") by (cbn; lia).
  rewrite (replace_delimited_same "~~") by (cbn; lia).
  rewrite (replace_delimited_same "`") by (cbn; lia).
  rewrite (replace_to_eol_same "> ") by (cbn; lia).
  reflexivity.
Qed.

(** ** Grouping by day *)

Definition on_day (loc : Locale) (date : string) (message : Message) : bool :=
  String.eqb (format_day loc (message_createdTimestamp message)) date.

(** The body of the [forEach] in [groupMessagesByDate]. *)
Definition group_step (loc : Locale) (grouped : list (string * list Message))
  (message : Message) : list (string * list Message) :=
  let date := format_day loc (message_createdTimestamp message) in
  let grouped :=
    if map_has grouped date then grouped else map_set grouped date [] in
  match map_get grouped date with
  | Some dayMessages => map_set grouped date (dayMessages ++ [message])%list
  | None => grouped
  end.

(** [grouped] is the grouping of the messages [seen]. *)
Definition groups (loc : Locale) (seen : list Message)
  (grouped : list (string * list Message)) : Prop :=
  NoDup (map_keys grouped)
  /\ forall date : string,
      map_get grouped date
      = match filter (on_day loc date) seen with
        | [] => None
        | dayMessages => Some dayMessages
        end.

Lemma group_step_groups (loc : Locale) (seen : list Message)
  (grouped : list (string * list Message)) (message : Message) :
  groups loc seen grouped ->
  groups loc (seen ++ [message]) (group_step loc grouped message).
Proof.
  intros [Hnd Hget]. unfold group_step. cbv zeta.
  set (day := format_day loc (message_createdTimestamp message)).
  assert (Hday : on_day loc day message = true)
    by (unfold on_day; apply String.eqb_refl).
  assert (Hother : forall date, date <> day ->
                                on_day loc date message = false).
  { intros date Hne. unfold on_day. fold day.
    destruct (String.eqb_spec day date); congruence. }
  destruct (map_has grouped day) eqn:Hhas.
  - unfold map_has in Hhas.
    destruct (map_get grouped day) as [dayMessages |] eqn:Hd; [| discriminate].
    split.
    + rewrite map_keys_set. unfold map_has. now rewrite Hd.
    + intros date. rewrite map_get_set, filter_app. cbn [filter].
      destruct (String.eqb_spec date day) as [-> | Hne].
      * rewrite Hday. rewrite Hget in Hd.
        destruct (filter (on_day loc day) seen) as [| m l];
          [discriminate |].
        injection Hd as <-. reflexivity.
      * rewrite (Hother date Hne), app_nil_r. apply Hget.
  - rewrite map_get_set, String.eqb_refl.
    assert (Hnone : map_get grouped day = None).
    { unfold map_has in Hhas. now destruct (map_get grouped day). }
    split.
    + rewrite !map_keys_set. unfold map_has at 1.
      rewrite map_get_set, String.eqb_refl, Hhas.
      apply NoDup_app; [assumption | repeat constructor; intros [] |].
      intros x Hx [<- | []]. apply map_has_In in Hx. congruence.
    + intros date. rewrite !map_get_set, filter_app. cbn [filter].
      destruct (String.eqb_spec date day) as [-> | Hne].
      * rewrite Hday. rewrite Hget in Hnone.
        destruct (filter (on_day loc day) seen); [reflexivity | discriminate].
      * rewrite (Hother date Hne), app_nil_r. apply Hget.
Qed.

Lemma group_fold_groups (loc : Locale) (messages : list Message) :
  forall (seen : list Message) (grouped : list (string * list Message)),
    groups loc seen grouped ->
    groups loc (seen ++ messages)
      (fold_left (group_step loc) messages grouped).
Proof.
  induction messages as [| m messages IH]; intros seen grouped H.
  - now rewrite app_nil_r.
  - cbn [fold_left].
    replace (seen ++ m :: messages)%list
      with ((seen ++ [m]) ++ messages)%list
      by (now rewrite <- app_assoc).
    apply IH. now apply group_step_groups.
Qed.

(** X16.  [groupMessagesByDate] has one entry per calendar day on which a
    message was posted, and none else; the entry of a day holds exactly
    the messages of that day, in the order given. *)
Theorem groupMessagesByDate_by_day (loc : Locale) (messages : list Message) :
  NoDup (map_keys (groupMessagesByDate loc messages))
  /\ forall date : string,
      map_get (groupMessagesByDate loc messages) date
      = match filter (on_day loc date) messages with
        | [] => None
        | dayMessages => Some dayMessages
        end.
Proof.
  change (groups loc ([] ++ messages)
            (fold_left (group_step loc) messages [])).
  apply group_fold_groups. split; [constructor | reflexivity].
Qed.

(** ** Who wrote, and what is read *)

Lemma fold_set_add (xs : list string) :
  forall acc : list string,
    NoDup acc ->
    NoDup (fold_left set_add xs acc)
    /\ forall x, In x (fold_left set_add xs acc) <-> In x acc \/ In x xs.
Proof.
  induction xs as [| y xs IH]; intros acc Hnd.
  - cbn. split; [assumption | tauto].
  - cbn [fold_left].
    destruct (PollerLaws.set_add_cases acc y) as [[-> Hin] | [-> Hnew]].
    + destruct (IH acc Hnd) as [H1 H2]. split; [assumption |].
      intros x. rewrite H2. cbn. intuition (subst; auto).
    + destruct (IH (acc ++ [y])%list) as [H1 H2].
      { apply NoDup_app; [assumption | repeat constructor; intros [] |].
        intros x Hx [<- | []]. contradiction. }
      split; [assumption |]. intros x. rewrite H2, in_app_iff. cbn. tauto.
Qed.

(** X17.  The participants of a card are the distinct user names of the
    messages: each author is listed once, and no one else. *)
Theorem participants_are_the_authors (messages : list Message) :
  NoDup (participants_of messages)
  /\ (forall name : string,
        In name (participants_of messages)
        <-> exists message, In message messages
                            /\ author_username message = name)
  /\ (List.length (participants_of messages) <= List.length messages)%nat.
Proof.
  unfold participants_of.
  destruct (fold_set_add (map author_username messages) [] ltac:(constructor))
    as [Hnd Hin].
  split; [exact Hnd |]. split.
  - intros name. rewrite Hin, in_map_iff. cbn. split.
    + intros [[] | (m & Hm & Hi)]. now exists m.
    + intros (m & Hi & Hm). right. now exists m.
  - rewrite <- (length_map author_username messages).
    apply NoDup_incl_length; [exact Hnd |].
    intros x Hx. apply Hin in Hx. destruct Hx as [[] | Hx]. exact Hx.
Qed.

Definition human (message : Message) : bool := negb (author_bot message).

Lemma filter_concat {A : Type} (f : A -> bool) (ls : list (list A)) :
  filter f (List.concat ls) = List.concat (map (filter f) ls).
Proof.
  induction ls as [| l ls IH]; cbn; [reflexivity |].
  now rewrite filter_app, IH.
Qed.

Lemma pages_read_prefix (pages : list (list Message)) :
  exists rest, pages = (pages_read pages ++ rest)%list
               /\ Forall (fun page => page <> []) (pages_read pages)
               /\ (rest = [] \/ exists rest', rest = [] :: rest').
Proof.
  induction pages as [| page pages (rest & Heq & Hall & Hrest)].
  - exists []. cbn. split; [reflexivity | split; [constructor | now left]].
  - cbn [pages_read]. destruct page as [| m page].
    + exists ([] :: pages). cbn.
      split; [reflexivity | split; [constructor |]].
      right. now exists pages.
    + exists rest. cbn [app]. split; [now rewrite <- Heq |].
      split; [| assumption]. constructor; [discriminate | assumption].
Qed.

(** X18.  [fetchAllThreadMessages] returns the messages of human authors
    from the pages before the first empty one, oldest retrieval last: it
    is the reverse of those pages laid end to end with the bot messages
    struck out; nothing behind an empty page is read. *)
Theorem fetchAllThreadMessages_humans (pages : list (list Message)) :
  fetchAllThreadMessages pages
  = rev (filter human (List.concat (pages_read pages)))
  /\ Forall (fun message => author_bot message = false)
       (fetchAllThreadMessages pages)
  /\ exists rest,
      pages = (pages_read pages ++ rest)%list
      /\ Forall (fun page => page <> []) (pages_read pages)
      /\ (rest = [] \/ exists rest', rest = [] :: rest')
      /\ fetchAllThreadMessages (pages_read pages)
         = fetchAllThreadMessages pages.
Proof.
  assert (Heq : fetchAllThreadMessages pages
                = rev (filter human (List.concat (pages_read pages)))).
  { unfold fetchAllThreadMessages. now rewrite filter_concat. }
  split; [exact Heq |]. split.
  - rewrite Heq. apply Forall_forall. intros m Hm.
    apply in_rev, filter_In in Hm. destruct Hm as [_ Hm].
    unfold human in Hm. now apply negb_true_iff in Hm.
  - destruct (pages_read_prefix pages) as (rest & H1 & H2 & H3).
    exists rest. repeat split; try assumption.
    unfold fetchAllThreadMessages. f_equal. f_equal. f_equal.
    clear. induction pages as [| page pages IH]; [reflexivity |].
    cbn [pages_read]. destruct page; [reflexivity |].
    cbn [pages_read]. now rewrite IH.
Qed.

(** ** The poller's notifications do not feed back into the card *)

Lemma pages_read_struck (pre post : list (list Message))
  (before after : list Message) (note : Message) :
  author_bot note = true ->
  (before ++ after)%list <> [] ->
  map (filter (fun msg => negb (author_bot msg)))
    (pages_read (pre ++ (before ++ note :: after) :: post)%list)
  = map (filter (fun msg => negb (author_bot msg)))
      (pages_read (pre ++ (before ++ after) :: post)%list).
Proof.
  intros Hbot Hne. induction pre as [| page pre IH].
  - cbn [app pages_read].
    destruct (before ++ after)%list as [| m l] eqn:Hba; [congruence |].
    destruct (before ++ note :: after)%list as [| m' l'] eqn:Hbna;
      [now destruct before |].
    cbn [map]. f_equal. rewrite <- Hba, <- Hbna, !filter_app. cbn [filter].
    now rewrite Hbot.
  - cbn [app pages_read]. destruct page; [reflexivity |].
    cbn [map]. now rewrite IH.
Qed.

(** X19.  A notification the poller posted in a thread, being a bot
    message, changes nothing of what the bot writes to the card: with the
    notification on a page that holds other messages, a synchronisation
    issues the calls it issues without it. *)
Theorem notification_not_copied (loc : Locale) (thread : Thread)
  (cardId : string) (r : SyncResponses) (pre post : list (list Message))
  (before after : list Message) (now : Z) (embed : Embed) :
  (before ++ after)%list <> [] ->
  sync_pages r = Some (pre ++ (before ++ after) :: post)%list ->
  updateCardWithAllMessages loc thread cardId
    {| sync_pages :=
         Some (pre
               ++ (before
                   ++ TrelloPoller.notification_message now embed :: after)
               :: post)%list;
       sync_update_ok := sync_update_ok r;
       sync_existing := sync_existing r;
       sync_add_ok := sync_add_ok r |}
  = updateCardWithAllMessages loc thread cardId r.
Proof.
  intros Hne Hpages. unfold updateCardWithAllMessages.
  cbn [sync_pages sync_update_ok sync_existing sync_add_ok].
  rewrite Hpages. unfold fetchAllThreadMessages.
  now rewrite (pages_read_struck pre post before after
                 (TrelloPoller.notification_message now embed) eq_refl Hne).
Qed.

Lemma notification_not_copied_witness :
  updateCardWithAllMessages sample_locale sample_thread "c1"
    {| sync_pages :=
         Some [TrelloPoller.notification_message 3000
                 (TrelloPoller.notification
                    (PollerFacts.sample_env (Some "true"))
                    (PollerFacts.sample_comment "a1" 1000 "c1") 0x0079BF
                    "New Comment" "A new comment was added to the card")
               :: [text_message "m2" "bob" "fixed!" 2000;
                   text_message "m1" "ana" "It crashes" 1000]];
       sync_update_ok := true;
       sync_existing := Some [];
       sync_add_ok := fun _ => true |}
  = updateCardWithAllMessages sample_locale sample_thread "c1" (sample_sync []).
Proof.
  apply (notification_not_copied sample_locale sample_thread "c1"
           (sample_sync []) [] [] []
           [text_message "m2" "bob" "fixed!" 2000;
            text_message "m1" "ana" "It crashes" 1000]).
  - discriminate.
  - reflexivity.
Defined.

(** ** Counting attachments *)

Definition total (types : Types) : nat :=
  (images types + videos types + audio types + files types + gifs types)%nat.

Lemma categorize_total (types : Types) (attachment : Attachment) :
  total (categorize types attachment) = S (total types).
Proof.
  unfold categorize. cbv zeta.
  repeat match goal with
         | |- context [if ?b then _ else _] => destruct b
         end; unfold total; cbn [images videos audio files gifs]; lia.
Qed.

Lemma fold_categorize_total (attachments : list Attachment) :
  forall types : Types,
    total (fold_left categorize attachments types)
    = (total types + List.length attachments)%nat.
Proof.
  induction attachments as [| a l IH]; intros types; cbn [fold_left].
  - cbn. lia.
  - rewrite IH, categorize_total. cbn [List.length]. lia.
Qed.

Lemma prefix_dot (c : ascii) (s : string) :
  String.prefix "." (String c s) = Ascii.eqb c ".".
Proof.
  cbn [String.prefix]. destruct (Ascii.ascii_dec "." c) as [<- | Hne].
  - now destruct s.
  - symmetry. apply Ascii.eqb_neq. congruence.
Qed.

Lemma includes_append_dot (stem rest : string) :
  includes (stem ++ String "." rest) "." = true.
Proof.
  induction stem as [| c stem IH].
  - cbn [append includes]. now rewrite prefix_dot.
  - cbn [append includes]. rewrite IH. apply orb_true_r.
Qed.

(** X20.  [categorizeAttachments] counts every attachment in exactly one
    of its five categories: the counters add up to the number of
    attachments; with none the summary is ['an Attachment'], and a file
    whose name ends in [.gif] counts as a GIF whatever its content
    type. *)
Theorem categorizeAttachments_counts_each_once
  (attachments : list Attachment) :
  total (fold_left categorize attachments
           {| images := 0; videos := 0; audio := 0; files := 0; gifs := 0 |})
  = List.length attachments
  /\ categorizeAttachments [] = "an Attachment"
  /\ forall (url stem : string) (contentType : JSVal),
      includes stem "." = false ->
      categorizeAttachments
        [{| attachment_url := url;
            attachment_name := stem ++ ".gif";
            attachment_contentType := contentType |}]
      = "a GIF".
Proof.
  split; [| split].
  - rewrite fold_categorize_total. reflexivity.
  - reflexivity.
  - intros url stem contentType Hstem.
    assert (Hext : after_last "." (stem ++ ".gif") = "gif").
    { induction stem as [| c stem IH]; [reflexivity |].
      cbn [includes] in Hstem. apply orb_false_iff in Hstem.
      destruct Hstem as [Hc Hstem]. specialize (IH Hstem).
      rewrite prefix_dot in Hc.
      cbn [append after_last].
      change (String c (stem ++ ".gif")) with (String c stem ++ ".gif")%string.
      rewrite includes_append_dot, Hc. cbn [andb]. exact IH. }
    unfold categorizeAttachments. cbn [fold_left]. unfold categorize.
    cbn [attachment_name]. rewrite Hext. reflexivity.
Qed.

Lemma categorizeAttachments_counts_each_once_witness :
  categorizeAttachments
    [{| attachment_url := "https://cdn.example.com/a";
        attachment_name := "funny.gif";
        attachment_contentType := JStr "image/png" |}]
  = "a GIF".
Proof.
  apply (proj2 (proj2 (categorizeAttachments_counts_each_once []))
           "https://cdn.example.com/a" "funny" (JStr "image/png")).
  reflexivity.
Defined.

(** ** A second pass adds nothing *)

(** What the state of a pass knows about: the URLs and names its
    duplicate tests answer for. *)
Definition knows_url (st : Seen) (u : string) : Prop :=
  In u (existingUrls st) \/ In u (processedUrls st).

Definition knows_name (st : Seen) (n : string) : Prop :=
  In n (existingNames st) \/ In n (processedNames st).

Definition no_less (st st' : Seen) : Prop :=
  (forall u, knows_url st u -> knows_url st' u)
  /\ (forall n, knows_name st n -> knows_name st' n).

(** The candidates the loop passes over without a call. *)
Definition skips_named (st : Seen) (url name : string) : Prop :=
  (knows_url st url \/ knows_url st (base url)) \/ knows_name st name.

Definition skips_attachment (st : Seen) (a : Attachment) : Prop :=
  skips_named st (attachment_url a) (attachment_name a).

Definition skips_embed (st : Seen) (e : Embed) : Prop :=
  match embed_candidate e with
  | Some (url, name) => skips_named st url name
  | None => True
  end.

Definition skips_url (st : Seen) (url : string) : Prop :=
  knows_url st url \/ knows_url st (base url).

Definition skips_message (st : Seen) (m : Message) : Prop :=
  Forall (skips_attachment st) (attachments m)
  /\ Forall (skips_embed st) (embeds m)
  /\ Forall (skips_url st) (match_urls (content m)).

Lemma In_set_add (s : list string) (x y : string) :
  In y (set_add s x) <-> In y s \/ x = y.
Proof. rewrite <- !set_has_In. apply set_has_add. Qed.

Lemma isDuplicateUrl_iff (st : Seen) (url b : string) :
  isDuplicateUrl st url b = true <-> knows_url st url \/ knows_url st b.
Proof.
  unfold isDuplicateUrl, knows_url. rewrite !orb_true_iff, !set_has_In.
  tauto.
Qed.

Lemma isDuplicateName_iff (st : Seen) (n : string) :
  isDuplicateName st n = true <-> knows_name st n.
Proof.
  unfold isDuplicateName, knows_name. rewrite !orb_true_iff, !set_has_In.
  tauto.
Qed.

Lemma named_test (st : Seen) (url name : string) :
  negb (isDuplicateUrl st url (base url)) && negb (isDuplicateName st name)
  = false
  <-> skips_named st url name.
Proof.
  unfold skips_named. rewrite <- isDuplicateUrl_iff, <- isDuplicateName_iff.
  destruct (isDuplicateUrl st url (base url));
    destruct (isDuplicateName st name); cbn; intuition congruence.
Qed.

Lemma no_less_refl (st : Seen) : no_less st st.
Proof. split; tauto. Qed.

Lemma no_less_trans (a b c : Seen) :
  no_less a b -> no_less b c -> no_less a c.
Proof. intros [H1 H2] [H3 H4]. split; auto. Qed.

Lemma add_named_no_less (add_ok : nat -> bool)
  (cardId url name : string) (st : Seen) :
  no_less st (add_named add_ok cardId url (base url) name st).
Proof.
  unfold add_named.
  destruct (add_ok _); split; unfold knows_url, knows_name; cbn;
    intros x [H | H]; rewrite ?In_set_add; tauto.
Qed.

Lemma add_link_no_less (add_ok : nat -> bool)
  (cardId url name : string) (st : Seen) :
  no_less st (add_link add_ok cardId url (base url) name st).
Proof.
  unfold add_link.
  destruct (add_ok _); split; unfold knows_url, knows_name; cbn;
    intros x [H | H]; rewrite ?In_set_add; tauto.
Qed.

Lemma add_named_knows (cardId url name : string) (st : Seen) :
  knows_url (add_named (fun _ => true) cardId url (base url) name st) url.
Proof. left. cbn. rewrite !In_set_add. tauto. Qed.

Lemma add_link_knows (cardId url name : string) (st : Seen) :
  knows_url (add_link (fun _ => true) cardId url (base url) name st) url.
Proof. left. cbn. rewrite !In_set_add. tauto. Qed.

Section Folds.
Context {A : Type} (step : Seen -> A -> Seen) (skips : Seen -> A -> Prop).
Hypothesis step_no_less : forall st a, no_less st (step st a).
Hypothesis skips_mono :
  forall st st' a, no_less st st' -> skips st a -> skips st' a.

Lemma fold_no_less (l : list A) :
  forall st, no_less st (fold_left step l st).
Proof.
  induction l as [| a l IH]; intros st; [apply no_less_refl |].
  cbn. eapply no_less_trans; [apply step_no_less | apply IH].
Qed.

(** When each step leaves its candidate one the loop would skip, so does
    the whole loop, for every candidate. *)
Lemma fold_settles :
  (forall st a, skips (step st a) a) ->
  forall (l : list A) (st : Seen), Forall (skips (fold_left step l st)) l.
Proof.
  intros Hafter. induction l as [| a l IH]; intros st; [constructor |].
  cbn [fold_left]. constructor; [| apply IH].
  eapply skips_mono; [apply fold_no_less | apply Hafter].
Qed.

(** Skipped candidates leave the state as it is. *)
Lemma fold_skips :
  (forall st a, skips st a -> step st a = st) ->
  forall (l : list A) (st : Seen),
    Forall (skips st) l -> fold_left step l st = st.
Proof.
  intros Hskip. induction l as [| a l IH]; intros st Hall; [reflexivity |].
  inversion Hall as [| ? ? Ha Hl]; subst. cbn [fold_left].
  rewrite (Hskip st a Ha). now apply IH.
Qed.

End Folds.

Lemma skips_named_mono (st st' : Seen) (url name : string) :
  no_less st st' -> skips_named st url name -> skips_named st' url name.
Proof. intros [Hu Hn]. unfold skips_named. intuition. Qed.

Lemma skips_attachment_mono (st st' : Seen) (a : Attachment) :
  no_less st st' -> skips_attachment st a -> skips_attachment st' a.
Proof. apply skips_named_mono. Qed.

Lemma skips_embed_mono (st st' : Seen) (e : Embed) :
  no_less st st' -> skips_embed st e -> skips_embed st' e.
Proof.
  unfold skips_embed. destruct (embed_candidate e) as [[u n] |]; [| tauto].
  apply skips_named_mono.
Qed.

Lemma skips_url_mono (st st' : Seen) (u : string) :
  no_less st st' -> skips_url st u -> skips_url st' u.
Proof. intros [Hu _]. unfold skips_url. intuition. Qed.

Lemma skips_message_mono (st st' : Seen) (m : Message) :
  no_less st st' -> skips_message st m -> skips_message st' m.
Proof.
  intros Hle (Ha & He & Hu). repeat split;
    (eapply Forall_impl; [| eassumption]); intros x;
    [apply skips_attachment_mono | apply skips_embed_mono
     | apply skips_url_mono]; assumption.
Qed.

Lemma reconcile_attachment_no_less (add_ok : nat -> bool) (cardId : string)
  (st : Seen) (a : Attachment) :
  no_less st (reconcile_attachment add_ok cardId st a).
Proof.
  unfold reconcile_attachment. cbv zeta.
  destruct (_ && _); [apply add_named_no_less | apply no_less_refl].
Qed.

Lemma reconcile_embed_no_less (add_ok : nat -> bool) (cardId : string)
  (st : Seen) (e : Embed) :
  no_less st (reconcile_embed add_ok cardId st e).
Proof.
  unfold reconcile_embed.
  destruct (embed_candidate e) as [[u n] |]; [| apply no_less_refl].
  cbv zeta. destruct (_ && _); [apply add_named_no_less | apply no_less_refl].
Qed.

Lemma reconcile_url_no_less (add_ok : nat -> bool) (cardId : string)
  (st : Seen) (u : string) :
  no_less st (reconcile_url add_ok cardId st u).
Proof.
  unfold reconcile_url. cbv zeta.
  destruct (negb _); [apply add_link_no_less | apply no_less_refl].
Qed.

Lemma reconcile_message_no_less (add_ok : nat -> bool) (cardId : string)
  (st : Seen) (m : Message) :
  no_less st (reconcile_message add_ok cardId st m).
Proof.
  unfold reconcile_message. cbv zeta.
  eapply no_less_trans;
    [apply (fold_no_less _ (reconcile_attachment_no_less add_ok cardId)) |].
  eapply no_less_trans;
    [apply (fold_no_less _ (reconcile_embed_no_less add_ok cardId)) |].
  apply (fold_no_less _ (reconcile_url_no_less add_ok cardId)).
Qed.

(** With every [addAttachment] resolving, a candidate is one the loop
    would skip from then on. *)
Lemma reconcile_attachment_settles (cardId : string) (st : Seen)
  (a : Attachment) :
  skips_attachment (reconcile_attachment (fun _ => true) cardId st a) a.
Proof.
  unfold reconcile_attachment, skips_attachment. cbv zeta.
  fold (base (attachment_url a)).
  destruct (_ && _) eqn:Htest.
  - left. left. apply add_named_knows.
  - now apply named_test.
Qed.

Lemma reconcile_embed_settles (cardId : string) (st : Seen) (e : Embed) :
  skips_embed (reconcile_embed (fun _ => true) cardId st e) e.
Proof.
  unfold reconcile_embed, skips_embed.
  destruct (embed_candidate e) as [[u n] |]; [| exact I].
  cbv zeta. fold (base u). destruct (_ && _) eqn:Htest.
  - left. left. apply add_named_knows.
  - now apply named_test.
Qed.

Lemma reconcile_url_settles (cardId : string) (st : Seen) (u : string) :
  skips_url (reconcile_url (fun _ => true) cardId st u) u.
Proof.
  unfold reconcile_url, skips_url. cbv zeta. fold (base u).
  destruct (negb _) eqn:Htest.
  - left. apply add_link_knows.
  - apply negb_false_iff in Htest. now apply isDuplicateUrl_iff.
Qed.

Lemma reconcile_message_settles (cardId : string) (st : Seen) (m : Message) :
  skips_message (reconcile_message (fun _ => true) cardId st m) m.
Proof.
  unfold reconcile_message, skips_message. cbv zeta.
  set (f := fun _ : nat => true).
  set (st1 := fold_left (reconcile_attachment f cardId) (attachments m) st).
  set (st2 := fold_left (reconcile_embed f cardId) (embeds m) st1).
  set (st3 := fold_left (reconcile_url f cardId) (match_urls (content m)) st2).
  assert (H12 : no_less st1 st2)
    by apply (fold_no_less _ (reconcile_embed_no_less f cardId)).
  assert (H23 : no_less st2 st3)
    by apply (fold_no_less _ (reconcile_url_no_less f cardId)).
  split; [| split].
  - eapply Forall_impl;
      [| apply (fold_settles _ skips_attachment
                  (reconcile_attachment_no_less f cardId)
                  skips_attachment_mono
                  (reconcile_attachment_settles cardId) (attachments m) st)].
    intros a. apply skips_attachment_mono.
    exact (no_less_trans _ _ _ H12 H23).
  - eapply Forall_impl;
      [| apply (fold_settles _ skips_embed
                  (reconcile_embed_no_less f cardId)
                  skips_embed_mono
                  (reconcile_embed_settles cardId) (embeds m) st1)].
    intros e. apply skips_embed_mono. exact H23.
  - apply (fold_settles _ skips_url (reconcile_url_no_less f cardId)
             skips_url_mono (reconcile_url_settles cardId)).
Qed.

Lemma reconcile_message_skips (add_ok : nat -> bool) (cardId : string)
  (st : Seen) (m : Message) :
  skips_message st m -> reconcile_message add_ok cardId st m = st.
Proof.
  intros (Ha & He & Hu). unfold reconcile_message. cbv zeta.
  assert (H1 : forall st0 a, skips_attachment st0 a ->
                             reconcile_attachment add_ok cardId st0 a = st0).
  { intros st0 a H. unfold reconcile_attachment. cbv zeta.
    fold (base (attachment_url a)).
    now rewrite (proj2 (named_test _ _ _) H). }
  assert (H2 : forall st0 e, skips_embed st0 e ->
                             reconcile_embed add_ok cardId st0 e = st0).
  { intros st0 e H. unfold reconcile_embed, skips_embed in *.
    destruct (embed_candidate e) as [[u n] |]; [| reflexivity].
    cbv zeta. fold (base u). now rewrite (proj2 (named_test _ _ _) H). }
  assert (H3 : forall st0 u, skips_url st0 u ->
                             reconcile_url add_ok cardId st0 u = st0).
  { intros st0 u H. unfold reconcile_url. cbv zeta. fold (base u).
    now rewrite (proj2 (isDuplicateUrl_iff _ _ _) H). }
  rewrite (fold_skips _ skips_attachment H1 _ _ Ha).
  rewrite (fold_skips _ skips_embed H2 _ _ He).
  exact (fold_skips _ skips_url H3 _ _ Hu).
Qed.

(** The [forEach] over [existingAttachments], from any state. *)
Definition seed_step (st : Seen) (att : RemoteAttachment) : Seen :=
  {| existingUrls :=
       set_add (set_add (existingUrls st) (remote_url att))
         (before_first "?" (remote_url att));
     existingNames := set_add (existingNames st) (remote_name att);
     processedUrls := processedUrls st;
     processedNames := processedNames st;
     issued := issued st |}.

Lemma seed_fold (l : list RemoteAttachment) :
  forall st : Seen,
    (forall u, In u (existingUrls (fold_left seed_step l st))
               <-> In u (existingUrls st)
                   \/ exists att, In att l
                                  /\ (u = remote_url att
                                      \/ u = base (remote_url att)))
    /\ (forall n, In n (existingNames (fold_left seed_step l st))
                  <-> In n (existingNames st)
                      \/ exists att, In att l /\ n = remote_name att).
Proof.
  induction l as [| a l IH]; intros st.
  - cbn. split; intros x; split; try tauto; intros [H | (att & [] & _)];
      exact H.
  - cbn [fold_left]. destruct (IH (seed_step st a)) as [Hu Hn].
    split; intros x; [rewrite Hu | rewrite Hn]; cbn [seed_step existingUrls
      existingNames]; rewrite ?In_set_add; unfold base; split.
    + intros [[[H | <-] | <-] | (att & Hatt & H)]; [now left | right ..].
      * exists a. split; [now left | now left].
      * exists a. split; [now left | now right].
      * exists att. split; [now right | exact H].
    + intros [H | (att & [<- | Hatt] & [-> | ->])].
      * left. left. now left.
      * left. left. now right.
      * left. now right.
      * right. exists att. split; [exact Hatt | now left].
      * right. exists att. split; [exact Hatt | now right].
    + intros [[H | <-] | (att & Hatt & H)]; [now left | right ..].
      * exists a. split; [now left | reflexivity].
      * exists att. split; [now right | exact H].
    + intros [H | (att & [<- | Hatt] & ->)].
      * left. now left.
      * left. now right.
      * right. now exists att.
Qed.

Lemma seed_knows (existing : list RemoteAttachment) :
  (forall u, In u (existingUrls (seed existing))
             <-> exists att, In att existing
                             /\ (u = remote_url att
                                 \/ u = base (remote_url att)))
  /\ (forall n, In n (existingNames (seed existing))
                <-> exists att, In att existing /\ n = remote_name att)
  /\ processedUrls (seed existing) = []
  /\ processedNames (seed existing) = [].
Proof.
  change (seed existing)
    with (fold_left seed_step existing
            {| existingUrls := []; existingNames := []; processedUrls := [];
               processedNames := []; issued := [] |}).
  destruct (seed_fold existing
              {| existingUrls := []; existingNames := []; processedUrls := [];
                 processedNames := []; issued := [] |}) as [Hu Hn].
  split; [| split; [| split]].
  - intros u. rewrite Hu. cbn. tauto.
  - intros n. rewrite Hn. cbn. tauto.
  - assert (H : forall l st, processedUrls (fold_left seed_step l st)
                             = processedUrls st).
    { induction l as [| a l IH]; intros st; [reflexivity |].
      cbn [fold_left]. now rewrite IH. }
    now rewrite H.
  - assert (H : forall l st, processedNames (fold_left seed_step l st)
                             = processedNames st).
    { induction l as [| a l IH]; intros st; [reflexivity |].
      cbn [fold_left]. now rewrite IH. }
    now rewrite H.
Qed.

(** What a pass whose adds all resolve knows at any point: what the card
    held when it began, and what it added since. *)
Definition accounted (remote : list RemoteAttachment) (st : Seen) : Prop :=
  (forall u, knows_url st u ->
             In u (existingUrls (seed remote))
             \/ exists u0 n0, In (u0, n0) (added (issued st))
                              /\ (u = u0 \/ u = base u0))
  /\ (forall n, knows_name st n ->
                In n (existingNames (seed remote))
                \/ exists u0, In (u0, n) (added (issued st))).

Lemma accounted_seed (remote : list RemoteAttachment) :
  accounted remote (seed remote).
Proof.
  destruct (seed_knows remote) as (_ & _ & Hpu & Hpn).
  split; intros x [H | H]; try (now left).
  - rewrite Hpu in H. destruct H.
  - rewrite Hpn in H. destruct H.
Qed.

Lemma accounted_add_named (remote : list RemoteAttachment)
  (cardId url name : string) (st : Seen) :
  accounted remote st ->
  accounted remote (add_named (fun _ => true) cardId url (base url) name st).
Proof.
  intros [Hu Hn]. unfold add_named. cbv zeta.
  split; unfold knows_url, knows_name;
    cbn [existingUrls existingNames processedUrls processedNames issued];
    intros x; rewrite !In_set_add, added_app; cbn [added flat_map app].
  - intros H.
    assert (Hx : knows_url st x \/ x = url \/ x = base url)
      by (unfold knows_url; intuition).
    destruct Hx as [Hx | Hx].
    + destruct (Hu x Hx) as [H0 | (u0 & n0 & Hin & H0)]; [now left | right].
      exists u0, n0. split; [apply in_or_app; now left | exact H0].
    + right. exists url, name. split; [apply in_or_app; right; now left |].
      intuition.
  - intros H.
    assert (Hx : knows_name st x \/ x = name)
      by (unfold knows_name; intuition).
    destruct Hx as [Hx | ->].
    + destruct (Hn x Hx) as [H0 | (u0 & Hin)]; [now left | right].
      exists u0. apply in_or_app. now left.
    + right. exists url. apply in_or_app. right. now left.
Qed.

Lemma accounted_add_link (remote : list RemoteAttachment)
  (cardId url name : string) (st : Seen) :
  accounted remote st ->
  accounted remote (add_link (fun _ => true) cardId url (base url) name st).
Proof.
  intros [Hu Hn]. unfold add_link. cbv zeta.
  split; unfold knows_url, knows_name;
    cbn [existingUrls existingNames processedUrls processedNames issued];
    intros x; rewrite ?In_set_add, added_app; cbn [added flat_map app].
  - intros H.
    assert (Hx : knows_url st x \/ x = url \/ x = base url)
      by (unfold knows_url; intuition).
    destruct Hx as [Hx | Hx].
    + destruct (Hu x Hx) as [H0 | (u0 & n0 & Hin & H0)]; [now left | right].
      exists u0, n0. split; [apply in_or_app; now left | exact H0].
    + right. exists url, name. split; [apply in_or_app; right; now left |].
      intuition.
  - intros H.
    destruct (Hn x H) as [H0 | (u0 & Hin)]; [now left | right].
    exists u0. apply in_or_app. now left.
Qed.

Lemma accounted_reconcile (remote : list RemoteAttachment) (cardId : string)
  (messages : list Message) :
  accounted remote
    (fold_left (reconcile_message (fun _ => true) cardId) messages
       (seed remote)).
Proof.
  apply (reconcile_message_preserves (accounted remote)).
  - intros st a H. unfold reconcile_attachment. cbv zeta.
    fold (base (attachment_url a)).
    destruct (_ && _); [now apply accounted_add_named | assumption].
  - intros st e H. unfold reconcile_embed.
    destruct (embed_candidate e) as [[u n] |]; [| assumption].
    cbv zeta. fold (base u).
    destruct (_ && _); [now apply accounted_add_named | assumption].
  - intros st u H. unfold reconcile_url. cbv zeta. fold (base u).
    destruct (negb _); [now apply accounted_add_link | assumption].
  - apply accounted_seed.
Qed.

(** X24.  After a pass in which the description was written and every
    [addAttachment] resolved, a second pass over the same messages, which
    finds on the card what the first pass added, issues no [addAttachment]
    at all: it only rewrites the description. *)
Theorem second_pass_adds_nothing (loc : Locale) (thread : Thread)
  (cardId : string) (pages : list (list Message))
  (remote : list RemoteAttachment) (add_ok : nat -> bool) :
  let first :=
    updateCardWithAllMessages loc thread cardId
      {| sync_pages := Some pages; sync_update_ok := true;
         sync_existing := Some remote; sync_add_ok := fun _ => true |} in
  updateCardWithAllMessages loc thread cardId
    {| sync_pages := Some pages; sync_update_ok := true;
       sync_existing := Some (remote_after remote first);
       sync_add_ok := add_ok |}
  = [CardUpdate cardId
       (description_of loc thread (fetchAllThreadMessages pages)) true].
Proof.
  cbv zeta. unfold updateCardWithAllMessages at 1.
  cbn [sync_pages sync_update_ok sync_existing sync_add_ok negb].
  f_equal. unfold reconcile at 1.
  set (messages := fetchAllThreadMessages pages).
  set (first := updateCardWithAllMessages _ _ _ _).
  set (st1 := fold_left (reconcile_message (fun _ => true) cardId) messages
                (seed remote)).
  assert (Hadded : added first = added (issued st1)) by reflexivity.
  assert (Hle : no_less st1 (seed (remote_after remote first))).
  { destruct (accounted_reconcile remote cardId messages) as [Hu Hn].
    fold st1 in Hu, Hn.
    destruct (seed_knows remote) as (Hru & Hrn & _ & _).
    destruct (seed_knows (remote_after remote first)) as (Hsu & Hsn & _ & _).
    unfold remote_after in Hsu, Hsn. rewrite Hadded in Hsu, Hsn.
    split.
    - intros u Hk. left. apply Hsu.
      destruct (Hu u Hk) as [H | (u0 & n0 & Hin & H)].
      + apply Hru in H. destruct H as (att & Hatt & H).
        exists att. split; [apply in_or_app; now left | exact H].
      + exists {| remote_url := u0; remote_name := n0 |}.
        split; [| exact H]. apply in_or_app. right.
        apply in_map_iff. now exists (u0, n0).
    - intros n Hk. left. apply Hsn.
      destruct (Hn n Hk) as [H | (u0 & Hin)].
      + apply Hrn in H. destruct H as (att & Hatt & H).
        exists att. split; [apply in_or_app; now left | exact H].
      + exists {| remote_url := u0; remote_name := n |}.
        split; [| reflexivity]. apply in_or_app. right.
        apply in_map_iff. now exists (u0, n). }
  assert (Hskips : Forall (skips_message (seed (remote_after remote first)))
                     messages).
  { eapply Forall_impl;
      [| apply (fold_settles _ skips_message
                  (reconcile_message_no_less (fun _ => true) cardId)
                  skips_message_mono
                  (reconcile_message_settles cardId) messages (seed remote))].
    intros m. apply skips_message_mono. exact Hle. }
  rewrite (fold_skips _ skips_message
             (reconcile_message_skips add_ok cardId) _ _ Hskips).
  apply seed_issued.
Qed.

(** ** The calls of a synchronisation *)

(** An [addAttachment] on the card [cardId]. *)
Definition adds_to (cardId : string) (call : Call) : Prop :=
  exists url name ok, call = AddAttachment cardId url name ok.

Lemma reconcile_adds_to (add_ok : nat -> bool) (cardId : string)
  (existing : list RemoteAttachment) (messages : list Message) :
  Forall (adds_to cardId) (reconcile add_ok cardId existing messages).
Proof.
  unfold reconcile.
  apply (reconcile_message_preserves
           (fun st => Forall (adds_to cardId) (issued st))).
  - intros st a H. unfold reconcile_attachment. cbv zeta.
    destruct (_ && _); [| assumption].
    rewrite add_named_issued. apply Forall_app. split; [assumption |].
    repeat constructor. now eexists _, _, _.
  - intros st e H. unfold reconcile_embed.
    destruct (embed_candidate e) as [[u n] |]; [| assumption].
    cbv zeta. destruct (_ && _); [| assumption].
    rewrite add_named_issued. apply Forall_app. split; [assumption |].
    repeat constructor. now eexists _, _, _.
  - intros st u H. unfold reconcile_url. cbv zeta.
    destruct (negb _); [| assumption].
    rewrite add_link_issued. apply Forall_app. split; [assumption |].
    repeat constructor. now eexists _, _, _.
  - rewrite seed_issued. constructor.
Qed.

Lemma updateCardWithAllMessages_shape (loc : Locale) (thread : Thread)
  (cardId : string) (r : SyncResponses) :
  match sync_pages r with
  | None => updateCardWithAllMessages loc thread cardId r = []
  | Some pages =>
      exists adds,
        updateCardWithAllMessages loc thread cardId r
        = CardUpdate cardId
            (description_of loc thread (fetchAllThreadMessages pages))
            (sync_update_ok r)
          :: adds
        /\ Forall (adds_to cardId) adds
        /\ (sync_update_ok r = false \/ sync_existing r = None -> adds = [])
  end.
Proof.
  unfold updateCardWithAllMessages.
  destruct (sync_pages r) as [pages |]; [| reflexivity].
  destruct (sync_update_ok r); cbn [negb].
  - destruct (sync_existing r) as [existing |].
    + eexists. split; [reflexivity |].
      split; [apply reconcile_adds_to |]. intros [H | H]; discriminate.
    + exists []. split; [reflexivity |]. split; [constructor | reflexivity].
  - exists []. split; [reflexivity |]. split; [constructor | reflexivity].
Qed.

Definition creates (call : Call) : bool :=
  match call with
  | CardCreate _ _ _ => true
  | _ => false
  end.

Lemma updateCardWithAllMessages_creates (loc : Locale) (thread : Thread)
  (cardId : string) (r : SyncResponses) :
  existsb creates (updateCardWithAllMessages loc thread cardId r) = false.
Proof.
  pose proof (updateCardWithAllMessages_shape loc thread cardId r) as H.
  destruct (sync_pages r) as [pages |]; [| now rewrite H].
  destruct H as (adds & -> & Hadds & _). cbn [existsb creates orb].
  induction Hadds as [| call adds (u & n & ok & ->) _ IH]; [reflexivity |].
  exact IH.
Qed.

(** X21.  A synchronisation touches the one card it was given: when the
    fetch of the messages fails it issues no call; otherwise it issues one
    [card.update] on that card, first, then only [addAttachment] calls on
    that card, and none of those when the update was rejected or the
    attachment search failed.  It never creates a card. *)
Theorem synchronisation_touches_one_card (loc : Locale) (thread : Thread)
  (cardId : string) (r : SyncResponses) :
  existsb creates (updateCardWithAllMessages loc thread cardId r) = false
  /\ match sync_pages r with
     | None => updateCardWithAllMessages loc thread cardId r = []
     | Some pages =>
         exists adds,
           updateCardWithAllMessages loc thread cardId r
           = CardUpdate cardId
               (description_of loc thread (fetchAllThreadMessages pages))
               (sync_update_ok r)
             :: adds
           /\ Forall (adds_to cardId) adds
           /\ (sync_update_ok r = false \/ sync_existing r = None ->
               adds = [])
     end.
Proof.
  split.
  - apply updateCardWithAllMessages_creates.
  - apply updateCardWithAllMessages_shape.
Qed.

(** ** Adopting a card that is already on the board *)

(** The first card of the board that carries the name a thread's card
    would be given. *)
Definition namesake (thread : Thread) (creator : CreatorLookup)
  (cards : list (string * string)) : option (string * string) :=
  find (fun card =>
          String.eqb (snd card)
            (cardName_of (thread_name thread)
               (getThreadCreator thread creator)))
    cards.

(** X22.  A thread without a card, whose name and creator give the name of
    a card already on the board, adopts the first such card: the registry
    binds the two in both directions, the card is synchronised, no card is
    created, and the guard is released. *)
Theorem existing_card_adopted (loc : Locale) (thread : Thread)
  (r : Responses) (bot : Bot) (cards : list (string * string))
  (cardId name : string) :
  map_get (threadCardMap bot) (thread_id thread) = None ->
  resp_cards r = Some cards ->
  namesake thread (resp_creator r) cards = Some (cardId, name) ->
  cardId <> "" ->
  let '(bot', calls, outcome) := handleNewThread loc thread r bot in
  map_get (threadCardMap bot') (thread_id thread) = Some cardId
  /\ findThreadByCardId bot' cardId = Some (thread_id thread)
  /\ calls = updateCardWithAllMessages loc thread cardId (resp_sync r)
  /\ existsb creates calls = false
  /\ set_has (processingThreads bot') (thread_id thread) = false
  /\ outcome = Returned.
Proof.
  intros Hnone Hcards Hfind Hne. unfold handleNewThread.
  rewrite Hnone. unfold map_has. rewrite Hnone, andb_false_r.
  unfold find_or_create, findExistingCard.
  cbn [threadCardMap with_processingThreads].
  rewrite Hcards. unfold namesake in Hfind. rewrite Hfind. cbn [fst].
  destruct (String.eqb_spec cardId ""); [contradiction |]. cbn [negb].
  unfold findThreadByCardId, bind.
  cbn [threadCardMap cardThreadMap processingThreads with_processingThreads].
  rewrite !map_get_set, !String.eqb_refl.
  repeat split; try reflexivity.
  - apply updateCardWithAllMessages_creates.
  - apply not_true_is_false. rewrite set_has_In.
    unfold set_delete. rewrite filter_In, String.eqb_refl. cbn.
    intros [_ H]. discriminate.
Qed.

Lemma existing_card_adopted_witness :
  let '(bot', calls, outcome) :=
    handleNewThread sample_locale (thread_named "t1" "Bug 42")
      (board [("c7", "Other"); ("c9", "[Discord] Bug 42 - by ana")] "c1")
      constructor in
  map_get (threadCardMap bot') "t1" = Some "c9"
  /\ findThreadByCardId bot' "c9" = Some "t1"
  /\ calls = updateCardWithAllMessages sample_locale
               (thread_named "t1" "Bug 42") "c9" quiet_sync
  /\ existsb creates calls = false
  /\ set_has (processingThreads bot') "t1" = false
  /\ outcome = Returned.
Proof.
  apply (existing_card_adopted sample_locale (thread_named "t1" "Bug 42")
           (board [("c7", "Other"); ("c9", "[Discord] Bug 42 - by ana")] "c1")
           constructor
           [("c7", "Other"); ("c9", "[Discord] Bug 42 - by ana")]
           "c9" "[Discord] Bug 42 - by ana").
  - reflexivity.
  - reflexivity.
  - reflexivity.
  - discriminate.
Defined.

(** ** The guard is always released *)

Lemma find_or_create_guard (loc : Locale) (thread : Thread) (r : Responses)
  (bot : Bot) :
  processingThreads (fst (fst (find_or_create loc thread r bot)))
  = processingThreads bot.
Proof.
  unfold find_or_create, createNewThreadCard.
  destruct (findExistingCard _ _ _) as [id |];
    [destruct (negb _); [reflexivity |] |];
    (destruct (createTrelloCard loc thread r) as [call [id' |]];
     [destruct (negb (truthy id')) |]; reflexivity).
Qed.

Lemma handle_guard (loc : Locale) (bot : Bot) (t : Trigger) :
  processingThreads bot = [] -> processingThreads (handled loc bot t) = [].
Proof.
  intros Hempty.
  assert (Hnew : forall thread r,
             processingThreads (fst (fst (handleNewThread loc thread r bot)))
             = []).
  { intros thread r. unfold handleNewThread.
    destruct (map_get (threadCardMap bot) (thread_id thread));
      [exact Hempty |].
    rewrite Hempty. cbn [set_has existsb andb set_add app].
    pose proof (find_or_create_guard loc thread r
                  (with_processingThreads bot [thread_id thread])) as H.
    destruct (find_or_create loc thread r _) as [[bot' calls] outcome].
    cbn [fst] in *. cbn [processingThreads with_processingThreads].
    rewrite H. cbn. now rewrite String.eqb_refl. }
  assert (Hmsg : forall message channel r,
             processingThreads
               (fst (fst (handleThreadMessage loc message channel r bot)))
             = []).
  { intros message channel r. unfold handleThreadMessage.
    destruct (author_bot message); [exact Hempty |].
    destruct (match map_get (threadCardMap bot) (thread_id channel) with
              | Some cardId =>
                  if String.eqb cardId "" then None else Some cardId
              | None => None
              end); [exact Hempty |].
    pose proof (Hnew channel r) as H.
    destruct (handleNewThread loc channel r bot) as [[bot' calls] outcome].
    cbn [fst] in H.
    destruct (match map_get (threadCardMap bot') (thread_id channel) with
              | Some cardId =>
                  if String.eqb cardId "" then None else Some cardId
              | None => None
              end); exact H. }
  unfold handled. destruct t; cbn [handle]; [apply Hnew | apply Hmsg ..].
Qed.

Lemma reconciled_guard (loc : Locale) (bot : Bot) (tr : Thread * Responses) :
  processingThreads (reconciled loc bot tr) = processingThreads bot.
Proof.
  unfold reconciled, processExistingThread.
  pose proof (find_or_create_guard loc (fst tr) (snd tr) bot) as H.
  destruct (find_or_create loc (fst tr) (snd tr) bot)
    as [[bot' calls] outcome].
  exact H.
Qed.

Lemma visited_all {A : Type} (P : Bot -> Prop) (f : Bot -> A -> Bot) :
  (forall bot a, P bot -> P (f bot a)) ->
  forall (l : list A) (bot : Bot),
    P bot -> Forall P (visited f l bot) /\ P (fold_left f l bot).
Proof.
  intros Hf. induction l as [| a l IH]; intros bot Hbot.
  - split; [constructor | exact Hbot].
  - cbn [visited fold_left]. destruct (IH (f bot a) (Hf _ _ Hbot)) as [H1 H2].
    split; [constructor; [now apply Hf | exact H1] | exact H2].
Qed.

Lemma occurs_guard (loc : Locale) (bot : Bot) (o : Occurrence) :
  processingThreads bot = [] -> processingThreads (occurs loc bot o) = [].
Proof.
  intros H. destruct o as [t | thread r]; cbn [occurs].
  - now apply handle_guard.
  - now rewrite reconciled_guard.
Qed.

(** X23.  Over any run of the bot, triggers and the reconciliations of the
    ready handler in any order, each run to its end before the next, the
    set [processingThreads] is empty whenever a handler has returned:
    whatever fails inside, the guard of [handleNewThread] is released, and
    the start-up reconciliation never takes it. *)
Theorem guard_always_released (loc : Locale) (os : list Occurrence) :
  Forall (fun bot => processingThreads bot = []) (course loc os).
Proof.
  unfold course.
  destruct (visited_all (fun bot => processingThreads bot = [])
              (occurs loc) (occurs_guard loc) os constructor eq_refl)
    as [H _].
  constructor; [reflexivity | exact H].
Qed.

(** ** A binding outlives whatever happens next *)

Lemma handled_extends (loc : Locale) (ts : list Trigger) :
  forall bot : Bot, extends bot (fold_left (handled loc) ts bot).
Proof.
  induction ts as [| t ts IH]; intros bot; [apply extends_refl |].
  cbn [fold_left]. eapply extends_trans; [| apply IH].
  eapply Step_extends. apply handle_Step.
Qed.

(** X26.  Once a thread is bound to a card, whatever triggers are handled
    in between, a message a person posts or edits in the thread leads to
    exactly one synchronisation, of that card: no card is searched for or
    created, and the registry is left as it is. *)
Theorem bound_thread_message_synchronises_its_card (loc : Locale)
  (bot : Bot) (ts : list Trigger) (message : Message) (channel : Thread)
  (r : Responses) (cardId : string) :
  map_get (threadCardMap bot) (thread_id channel) = Some cardId ->
  cardId <> "" ->
  author_bot message = false ->
  let bot' := fold_left (handled loc) ts bot in
  handle loc bot' (MessageCreate message channel r)
  = (bot', updateCardWithAllMessages loc channel cardId (resp_resync r),
     Returned)
  /\ handle loc bot' (MessageUpdate message channel r)
     = (bot', updateCardWithAllMessages loc channel cardId (resp_resync r),
        Returned).
Proof.
  intros Hbound Hne Hhuman. cbv zeta.
  pose proof (handled_extends loc ts bot _ _ Hbound) as Hlater.
  cbn [handle]. unfold handleThreadMessage.
  rewrite Hhuman, Hlater.
  destruct (String.eqb_spec cardId ""); [contradiction |].
  split; reflexivity.
Qed.

Lemma bound_thread_message_synchronises_its_card_witness :
  let bot := handled sample_locale constructor
               (ThreadCreate (thread_named "t1" "Bug 42") (board [] "c1")) in
  let bot' :=
    fold_left (handled sample_locale)
      [ThreadCreate (thread_named "t2" "Bug 43") (board [] "c2")] bot in
  map_get (threadCardMap bot) "t1" = Some "c1"
  /\ handle sample_locale bot'
       (MessageCreate (text_message "m1" "ana" "It crashes" 1000)
          (thread_named "t1" "Bug 42") (board [] "c3"))
     = (bot',
        updateCardWithAllMessages sample_locale (thread_named "t1" "Bug 42")
          "c1" quiet_sync,
        Returned).
Proof.
  cbv zeta.
  assert (Hbound :
            map_get
              (threadCardMap
                 (handled sample_locale constructor
                    (ThreadCreate (thread_named "t1" "Bug 42")
                       (board [] "c1"))))
              (thread_id (thread_named "t1" "Bug 42")) = Some "c1")
    by (vm_compute; reflexivity).
  split; [exact Hbound |].
  apply (proj1 (bound_thread_message_synchronises_its_card sample_locale
                  _ [ThreadCreate (thread_named "t2" "Bug 43") (board [] "c2")]
                  (text_message "m1" "ana" "It crashes" 1000)
                  (thread_named "t1" "Bug 42") (board [] "c3") "c1"
                  Hbound ltac:(discriminate) eq_refl)).
Defined.

(** ** A card created for a thread is found again *)

(** X25.  The name [createTrelloCard] gives a card is the name
    [findExistingCard] looks for: when the creator look-ups answer as they
    did at creation and the board lists a card under the name the creation
    call carried, a later reconciliation of the thread, from an empty
    registry, creates no card and binds the thread to the first card of
    that name. *)
Theorem created_card_found_again (loc : Locale) (thread : Thread)
  (r r' : Responses) (cards : list (string * string))
  (cardId name desc : string) (ok : bool) :
  fst (createTrelloCard loc thread r) = CardCreate name desc ok ->
  resp_creator r' = resp_creator_again r ->
  resp_cards r' = Some cards ->
  In (cardId, name) cards ->
  (forall card, In card cards -> fst card <> "") ->
  exists adopted,
    namesake thread (resp_creator r') cards = Some (adopted, name)
    /\ In (adopted, name) cards
    /\ processExistingThread loc thread r' constructor
       = (bind constructor (thread_id thread) adopted,
          updateCardWithAllMessages loc thread adopted (resp_sync r'),
          Returned).
Proof.
  intros Hcall Hcreator Hcards Hin Hids.
  assert (Hname : name = cardName_of (thread_name thread)
                           (getThreadCreator thread (resp_creator_again r))).
  { unfold createTrelloCard in Hcall. cbv zeta in Hcall.
    destruct (resp_created r); cbn [fst] in Hcall; now injection Hcall. }
  destruct (namesake thread (resp_creator r') cards) as [[adopted name'] |]
    eqn:Hfind.
  - unfold namesake in Hfind. pose proof (find_some _ _ Hfind) as [Hmem Heq].
    cbn [snd] in Heq. apply String.eqb_eq in Heq.
    rewrite Hcreator, <- Hname in Heq. subst name'.
    exists adopted. split; [reflexivity |]. split; [exact Hmem |].
    unfold processExistingThread, find_or_create, findExistingCard.
    rewrite Hcards, Hfind. cbn [fst].
    destruct (String.eqb_spec adopted "") as [-> | _];
      [exfalso; exact (Hids _ Hmem eq_refl) |].
    reflexivity.
  - exfalso. unfold namesake in Hfind.
    pose proof (find_none _ _ Hfind _ Hin) as Hno. cbn [snd] in Hno.
    rewrite Hcreator, <- Hname, String.eqb_refl in Hno. discriminate.
Qed.

Lemma created_card_found_again_witness :
  fst (createTrelloCard sample_locale (thread_named "t1" "Bug 42")
         (board [] "c1"))
  = CardCreate "[Discord] Bug 42 - by ana"
      (match fst (createTrelloCard sample_locale (thread_named "t1" "Bug 42")
                    (board [] "c1")) with
       | CardCreate _ desc _ => desc
       | _ => EmptyString
       end) true
  /\ exists adopted,
      namesake (thread_named "t1" "Bug 42")
        (resp_creator
           (board [("c7", "Other"); ("c1", "[Discord] Bug 42 - by ana")] "c5"))
        [("c7", "Other"); ("c1", "[Discord] Bug 42 - by ana")]
      = Some (adopted, "[Discord] Bug 42 - by ana")
      /\ In (adopted, "[Discord] Bug 42 - by ana")
           [("c7", "Other"); ("c1", "[Discord] Bug 42 - by ana")]
      /\ processExistingThread sample_locale (thread_named "t1" "Bug 42")
           (board [("c7", "Other"); ("c1", "[Discord] Bug 42 - by ana")] "c5")
           constructor
         = (bind constructor "t1" adopted,
            updateCardWithAllMessages sample_locale
              (thread_named "t1" "Bug 42") adopted quiet_sync,
            Returned).
Proof.
  assert (Hcall :
            fst (createTrelloCard sample_locale (thread_named "t1" "Bug 42")
                   (board [] "c1"))
            = CardCreate "[Discord] Bug 42 - by ana"
                (match fst (createTrelloCard sample_locale
                              (thread_named "t1" "Bug 42") (board [] "c1")) with
                 | CardCreate _ desc _ => desc
                 | _ => EmptyString
                 end) true)
    by reflexivity.
  split; [exact Hcall |].
  apply (created_card_found_again sample_locale (thread_named "t1" "Bug 42")
           (board [] "c1")
           (board [("c7", "Other"); ("c1", "[Discord] Bug 42 - by ana")] "c5")
           [("c7", "Other"); ("c1", "[Discord] Bug 42 - by ana")]
           "c1" _ _ _ Hcall).
  - reflexivity.
  - reflexivity.
  - right. left. reflexivity.
  - intros card [<- | [<- | []]]; discriminate.
Defined.

(** ** What the ready handler leaves in the registry *)

(** The card the find-or-create block binds a thread to: the namesake on
    the board if the search finds one, the card created otherwise; none
    when the creation fails or returns no identifier. *)
Definition card_for (thread : Thread) (r : Responses) : option string :=
  let created :=
    match resp_created r with
    | Some id => if truthy id then Some (template id) else None
    | None => None
    end in
  match findExistingCard (thread_name thread)
          (getThreadCreator thread (resp_creator r)) (resp_cards r) with
  | Some existingCardId =>
      if String.eqb existingCardId "" then created else Some existingCardId
  | None => created
  end.

Lemma find_or_create_binds (loc : Locale) (thread : Thread) (r : Responses)
  (bot : Bot) :
  map_get (threadCardMap bot) (thread_id thread) = None ->
  map_get (threadCardMap (fst (fst (find_or_create loc thread r bot))))
    (thread_id thread)
  = card_for thread r.
Proof.
  intros Hnone. unfold find_or_create, card_for. cbv zeta.
  assert (Hcreate :
            map_get
              (threadCardMap (fst (fst (createNewThreadCard loc thread r bot))))
              (thread_id thread)
            = match resp_created r with
              | Some id => if truthy id then Some (template id) else None
              | None => None
              end).
  { unfold createNewThreadCard, createTrelloCard. cbv zeta.
    destruct (resp_created r) as [id |]; [| exact Hnone].
    destruct (truthy id); cbn [negb fst]; [| exact Hnone].
    unfold bind. cbn [threadCardMap].
    now rewrite map_get_set, String.eqb_refl. }
  destruct (findExistingCard _ _ _) as [id |]; [| exact Hcreate].
  destruct (String.eqb id ""); cbn [negb]; [exact Hcreate |].
  unfold bind. cbn [fst threadCardMap].
  now rewrite map_get_set, String.eqb_refl.
Qed.

Lemma Step_other (threadId other : string) (bot bot' : Bot) :
  Step threadId bot bot' -> other <> threadId ->
  map_get (threadCardMap bot') other = map_get (threadCardMap bot) other.
Proof.
  intros [[-> _] | (c & _ & -> & _)] Hne; [reflexivity |].
  rewrite map_get_set. destruct (String.eqb_spec other threadId);
    [contradiction | reflexivity].
Qed.

Lemma reconciled_binds (loc : Locale) (active : list (Thread * Responses)) :
  forall bot : Bot,
    fresh_threads bot active ->
    forall tr, In tr active ->
               map_get (threadCardMap (fold_left (reconciled loc) active bot))
                 (thread_id (fst tr))
               = card_for (fst tr) (snd tr).
Proof.
  induction active as [| tr0 active IH]; intros bot Hfresh tr Hin;
    [destruct Hin |].
  destruct (reconciled_fresh loc bot tr0 active Hfresh) as [Hstep Hfresh'].
  cbn [fold_left]. destruct Hin as [<- | Hin]; [| now apply IH].
  destruct Hfresh as [Hnd Hfree]. cbn in Hnd. apply NoDup_cons_iff in Hnd.
  destruct Hnd as [Hnotin _].
  assert (Hlater : forall (l : list (Thread * Responses)) (b : Bot),
             fresh_threads b l ->
             ~ In (thread_id (fst tr0))
                 (map (fun tr => thread_id (fst tr)) l) ->
             map_get (threadCardMap (fold_left (reconciled loc) l b))
               (thread_id (fst tr0))
             = map_get (threadCardMap b) (thread_id (fst tr0))).
  { induction l as [| tr1 l IHl]; intros b Hb Hnot; [reflexivity |].
    destruct (reconciled_fresh loc b tr1 l Hb) as [Hs Hb'].
    cbn [fold_left]. rewrite (IHl _ Hb').
    - apply (Step_other _ _ _ _ Hs). intros Heq. apply Hnot. left.
      now rewrite Heq.
    - intros Hin'. apply Hnot. now right. }
  rewrite (Hlater active _ Hfresh' Hnotin).
  unfold reconciled, processExistingThread.
  pose proof (find_or_create_binds loc (fst tr0) (snd tr0) bot
                (Hfree tr0 (or_introl eq_refl))) as H.
  destruct (find_or_create loc (fst tr0) (snd tr0) bot)
    as [[bot' calls] outcome].
  exact H.
Qed.

(** X29.  When the ready handler has gone through the active threads, each
    of them, if their identifiers are distinct, is bound to the card the
    board already held under its name, or else to the card created for it,
    and is left unbound exactly when the creation failed or returned no
    identifier. *)
Theorem ready_handler_binds_each_thread (loc : Locale)
  (active : list (Thread * Responses)) (thread : Thread) (r : Responses) :
  NoDup (map (fun tr => thread_id (fst tr)) active) ->
  In (thread, r) active ->
  map_get
    (threadCardMap
       (fst (fst (initializeExistingThreads loc (Some active) constructor))))
    (thread_id thread)
  = card_for thread r.
Proof.
  intros Hnd Hin. rewrite initializeExistingThreads_reconciled.
  apply (reconciled_binds loc active constructor
           (conj Hnd (fun _ _ => eq_refl)) (thread, r) Hin).
Qed.

(** Three active threads: one with a namesake on the board, one to be
    given a new card, one whose card creation fails. *)
Definition three_active : list (Thread * Responses) :=
  [(thread_named "t1" "Bug 42",
    board [("c9", "[Discord] Bug 42 - by ana")] "c1");
   (thread_named "t2" "Bug 43", board [] "c2");
   (thread_named "t3" "Bug 44", failing_creation)].

Lemma ready_handler_binds_each_thread_witness :
  map (fun tr =>
         map_get
           (threadCardMap
              (fst (fst (initializeExistingThreads sample_locale
                           (Some three_active) constructor))))
           (thread_id (fst tr)))
    three_active
  = [Some "c9"; Some "c2"; None]
  /\ map_get
       (threadCardMap
          (fst (fst (initializeExistingThreads sample_locale
                       (Some three_active) constructor))))
       (thread_id (thread_named "t2" "Bug 43"))
     = card_for (thread_named "t2" "Bug 43") (board [] "c2").
Proof.
  split; [vm_compute; reflexivity |].
  apply (ready_handler_binds_each_thread sample_locale three_active).
  - repeat constructor; cbn; intuition discriminate.
  - right. left. reflexivity.
Defined.

End BotLaws.
